(** * DFA minimisation (DFA_Minimization.c): shallow embedding and properties

    The C program keeps every automaton state in a heap cell obtained from
    [malloc], a global array [allStates] of pointers to these cells with its
    count [nStates], a global array [reachable] of marks, and a global array
    [partitions] with its count [nPartitions].  The embedding threads one
    record [Machine] holding exactly this global state through the functions
    of the program.

    Conventions of the embedding:
    - a pointer to a [State] is a heap address [loc]; a possibly-NULL pointer
      is an [option loc];
    - an array together with its element count ([allStates]/[nStates],
      [partitions]/[nPartitions], [Partition.states]/[Partition.count]) is the
      list of its first [count] elements: no loop of the program reads an
      array beyond its count;
    - [int] values stay far below the 32-bit range (they are bounded by
      [MAX_STATES]) and are held in [Z], as the program uses the negative
      sentinels -1 and -2;
    - a C string is the [string] of its characters before the terminator;
    - a loop whose trip count is not known beforehand takes a fuel argument
      and returns [None] when it runs out;
    - of the output, the messages on the error stream (without their line
      ends) and the lines of the minimised table are kept; the progress
      messages on the standard output do not touch the state and are left
      out, as are the frees that end [main]. *)

From Stdlib Require Import String Ascii ZArith Lia.
From stdpp Require Import base option list gmap strings.

Local Open Scope string_scope.
Local Open Scope list_scope.
Local Open Scope nat_scope.

(** ** Constants *)

Definition MAX_STATES : nat := 64.
Definition ALPHABET_SIZE : nat := 2.
Definition MAX_LABEL_LEN : nat := 512.
Definition EXIT_FAILURE : Z := 1%Z.

(** ** Data model *)

(** Address of a heap-allocated [State]. *)
Definition loc : Type := positive.

(** The two indices [0] and [1] of the array [next[ALPHABET_SIZE]]. *)
Inductive symbol : Type := Sym0 | Sym1.

Global Instance symbol_eq_dec : EqDecision symbol.
Proof. solve_decision. Defined.

(** [for (sym = 0; sym < ALPHABET_SIZE; ++sym)] visits the symbols in this
    order. *)
Definition alphabet : list symbol := [Sym0; Sym1].

(** [struct State]; [next0] and [next1] are [next[0]] and [next[1]]. *)
Record State : Type := mkState {
  name : string;
  isFinal : bool;
  next0 : option loc;
  next1 : option loc;
  id : Z;
  partitionId : Z
}.

Definition next (s : State) (sym : symbol) : option loc :=
  match sym with Sym0 => next0 s | Sym1 => next1 s end.

Definition set_next (sym : symbol) (t : option loc) (s : State) : State :=
  match sym with
  | Sym0 => mkState (name s) (isFinal s) t (next1 s) (id s) (partitionId s)
  | Sym1 => mkState (name s) (isFinal s) (next0 s) t (id s) (partitionId s)
  end.

Definition set_id (i : Z) (s : State) : State :=
  mkState (name s) (isFinal s) (next0 s) (next1 s) i (partitionId s).

Definition set_partitionId (i : Z) (s : State) : State :=
  mkState (name s) (isFinal s) (next0 s) (next1 s) (id s) i.

Global Instance State_inhabited : Inhabited State :=
  populate (mkState "" false None None 0%Z 0%Z).

(** [Partition]: [states] stands for the array with its [count], [p_id] for
    the field [id]. *)
Record Partition : Type := mkPartition {
  states : list loc;
  p_id : Z;
  label : string
}.

(** The global variables of the program, the heap and the error stream. *)
Record Machine : Type := mkMachine {
  heap : gmap loc State;
  allStates : list loc;
  reachable : list bool;
  partitions : list Partition;
  stderr : list string
}.

Definition nStates (st : Machine) : nat := length (allStates st).
Definition nPartitions (st : Machine) : nat := length (partitions st).

Definition set_heap (h : gmap loc State) (st : Machine) : Machine :=
  mkMachine h (allStates st) (reachable st) (partitions st) (stderr st).
Definition set_allStates (l : list loc) (st : Machine) : Machine :=
  mkMachine (heap st) l (reachable st) (partitions st) (stderr st).
Definition set_reachable (r : list bool) (st : Machine) : Machine :=
  mkMachine (heap st) (allStates st) r (partitions st) (stderr st).
Definition set_partitions (ps : list Partition) (st : Machine) : Machine :=
  mkMachine (heap st) (allStates st) (reachable st) ps (stderr st).
Definition fprintf_stderr (msg : string) (st : Machine) : Machine :=
  mkMachine (heap st) (allStates st) (reachable st) (partitions st)
            (stderr st ++ [msg]).

(** The state of the program when [main] starts: static storage is zeroed. *)
Definition initial_machine : Machine :=
  mkMachine ∅ [] (replicate MAX_STATES false) [] [].

(** [p->field]: reading through a pointer.  Reading an address that holds no
    state is undefined in C; the embedding yields the default state there, and
    the well-formedness invariant below excludes the case. *)
Definition deref (h : gmap loc State) (p : loc) : State := h !!! p.

(** A call either returns or ends the process through [exit]. *)
Inductive outcome (A : Type) : Type :=
| Returned (a : A)
| Exited (status : Z) (final : Machine).
Arguments Returned {A} a.
Arguments Exited {A} status final.

(** ** getStateIndexByPtr

    The C function returns -1 for "not found"; the embedding returns [None]. *)
Definition getStateIndexByPtr (s : option loc) (st : Machine) : option nat :=
  match s with
  | None => None
  | Some p => fst <$> list_find (λ q, q = p) (allStates st)
  end.
Global Arguments getStateIndexByPtr : simpl never.

(** ** createState *)

(** [snprintf(dst, size, "%s", src)]: at most [size - 1] characters are
    stored. *)
Definition snprintf_s (size : nat) (src : string) : string :=
  substring 0 (size - 1) src.

Section Allocator.

(** [malloc] is external: given the live heap it yields NULL or a block. *)
Variable malloc : gmap loc State → option loc.

Definition createState (nm : string) (fin : bool) (st : Machine)
  : outcome (loc * Machine) :=
  if decide (MAX_STATES ≤ nStates st) then
    Exited EXIT_FAILURE (fprintf_stderr "Error: MAX_STATES exceeded" st)
  else
    match malloc (heap st) with
    | None => Exited EXIT_FAILURE (fprintf_stderr "malloc for State failed" st)
    | Some s =>
        let cell := mkState (snprintf_s 4 nm) fin None None
                            (Z.of_nat (nStates st)) (-1)%Z in
        Returned (s, set_allStates (allStates st ++ [s])
                       (set_heap (<[s := cell]> (heap st)) st))
    end.

End Allocator.

(** ** markReachable *)

(** [reachable[i]] as a C boolean. *)
Definition is_marked (r : list bool) (i : nat) : bool := default false (r !! i).

(** The loop [for (i = 0; i < nStates; ++i) reachable[i] = false]. *)
Definition clear_marks (n : nat) (r : list bool) : list bool :=
  foldl (λ r i, <[i := false]> r) r (seq 0 n).

(** Body of the loop over [sym]: the target of one transition gets marked. *)
Definition mark_target (st : Machine) (acc : list bool * bool)
    (targetState : option loc) : list bool * bool :=
  match targetState with
  | None => acc
  | Some _ =>
      match getStateIndexByPtr targetState st with
      | Some targetIndex =>
          if negb (is_marked acc.1 targetIndex)
          then (<[targetIndex := true]> acc.1, true)
          else acc
      | None => acc
      end
  end.

(** Body of the loop over [i]; [acc] is ([reachable], [changed]). *)
Definition mark_from (st : Machine) (acc : list bool * bool) (i : nat)
    : list bool * bool :=
  if negb (is_marked acc.1 i) then acc
  else
    match allStates st !! i with
    | None => acc
    | Some p =>
        foldl (λ acc sym, mark_target st acc (next (deref (heap st) p) sym))
              acc alphabet
    end.

(** One iteration of [while (changed)]: [changed] starts at [false]. *)
Definition sweep (st : Machine) (r : list bool) : list bool * bool :=
  foldl (mark_from st) (r, false) (seq 0 (nStates st)).

Fixpoint propagate (fuel : nat) (st : Machine) (r : list bool)
    : option (list bool) :=
  match fuel with
  | O => None
  | S fuel' =>
      let '(r', changed) := sweep st r in
      if changed then propagate fuel' st r' else Some r'
  end.

Definition markReachable (fuel : nat) (startNode : option loc) (st : Machine)
    : option Machine :=
  match startNode with
  | None => Some st
  | Some start =>
      let st1 := set_reachable (clear_marks (nStates st) (reachable st)) st in
      let found :=
        match getStateIndexByPtr startNode st1 with
        | Some startIndex => Some startIndex
        | None =>
            if bool_decide (0 < nStates st1)
               && bool_decide (allStates st1 !! 0 = Some start)
            then Some 0 else None
        end in
      match found with
      | None =>
          Some (fprintf_stderr
                  "Error: Start node not found in allStates during markReachable."
                  st1)
      | Some startIndex =>
          r ← propagate fuel st1 (<[startIndex := true]> (reachable st1));
          Some (set_reachable r st1)
      end
  end.

(** ** removeUnreachable *)

(** First loop: a transition of a marked state into an unmarked state of the
    array becomes NULL. *)
Definition clear_transition (st : Machine) (p : loc) (h : gmap loc State)
    (sym : symbol) : gmap loc State :=
  match next (deref h p) sym with
  | None => h
  | Some t =>
      match getStateIndexByPtr (Some t) st with
      | Some targetIndex =>
          if negb (is_marked (reachable st) targetIndex)
          then alter (set_next sym None) p h
          else h
      | None => h
      end
  end.

Definition clear_transitions (st : Machine) (h : gmap loc State) (i : nat)
    : gmap loc State :=
  if is_marked (reachable st) i then
    match allStates st !! i with
    | None => h
    | Some p => foldl (clear_transition st p) h alphabet
    end
  else h.

(** Second loop, in place on the array: [acc] is the array, [writeIndex] and
    the heap.  The store of NULL into the slot of a freed state is not
    represented: that slot is either overwritten later in the loop or lies at
    or beyond the new [nStates]. *)
Definition compact_step (r : list bool)
    (acc : list loc * nat * gmap loc State) (readIndex : nat)
    : list loc * nat * gmap loc State :=
  let '(arr, writeIndex, h) := acc in
  match arr !! readIndex with
  | None => acc
  | Some p =>
      if is_marked r readIndex then
        let arr' :=
          if decide (readIndex ≠ writeIndex) then <[writeIndex := p]> arr
          else arr in
        match arr' !! writeIndex with
        | Some q => (arr', S writeIndex, alter (set_id (Z.of_nat writeIndex)) q h)
        | None => (arr', S writeIndex, h)
        end
      else (arr, writeIndex, delete p h)
  end.

Definition removeUnreachable (fuel : nat) (startNode : option loc)
    (st : Machine) : option Machine :=
  st1 ← markReachable fuel startNode st;
  let h1 := foldl (clear_transitions st1) (heap st1) (seq 0 (nStates st1)) in
  let '(arr, writeIndex, h2) :=
    foldl (compact_step (reachable st1)) (allStates st1, 0, h1)
          (seq 0 (nStates st1)) in
  Some (set_allStates (take writeIndex arr) (set_heap h2 st1)).

(** ** initialPartition *)

(** The label of a partition: the member names between braces, separated by
    commas, built by [strcpy]/[strcat]. *)
Fixpoint label_body (h : gmap loc State) (l : list loc) : string :=
  match l with
  | [] => ""
  | [p] => name (deref h p)
  | p :: l' => name (deref h p) +:+ "," +:+ label_body h l'
  end.

Definition make_label (h : gmap loc State) (l : list loc) : string :=
  "{" +:+ label_body h l +:+ "}".

(** [for (j...) states[j]->partitionId = i]. *)
Definition assign_partition (i : Z) (h : gmap loc State) (l : list loc)
    : gmap loc State :=
  foldl (λ h p, alter (set_partitionId i) p h) h l.

(** Body of the loop that separates final from non-final states; [acc] is the
    heap, [finalP.states] and [nonFinalP.states]. *)
Definition separate_step (acc : gmap loc State * list loc * list loc) (p : loc)
    : gmap loc State * list loc * list loc :=
  let '(h, finalP, nonFinalP) := acc in
  let h' := alter (set_partitionId (-1)%Z) p h in
  if isFinal (deref h' p) then (h', finalP ++ [p], nonFinalP)
  else (h', finalP, nonFinalP ++ [p]).

(** The two [if (count > 0)] blocks. *)
Definition add_group (acc : gmap loc State * list Partition) (group : list loc)
    : gmap loc State * list Partition :=
  let '(h, ps) := acc in
  if bool_decide (0 < length group) then
    let i := Z.of_nat (length ps) in
    let h' := assign_partition i h group in
    (h', ps ++ [mkPartition group i (make_label h' group)])
  else acc.

Definition initialPartition (st : Machine) : Machine :=
  let '(h, finalP, nonFinalP) :=
    foldl separate_step (heap st, [], []) (allStates st) in
  let '(h', ps) := add_group (add_group (h, []) finalP) nonFinalP in
  set_partitions ps (set_heap h' st).

(** ** refineAllPartitions *)

(** [next ? next->partitionId : -2]. *)
Definition target_pid (h : gmap loc State) (t : option loc) : Z :=
  match t with
  | Some q => partitionId (deref h q)
  | None => (-2)%Z
  end.

(** The loop over [sym] with its [break]. *)
Definition distinguishable (h : gmap loc State) (s_j s_k_rep : loc) : bool :=
  existsb (λ sym,
             negb (target_pid h (next (deref h s_j) sym)
                   =? target_pid h (next (deref h s_k_rep) sym))%Z)
          alphabet.

(** The loop over [k]: [s_j] joins the first sub-partition whose
    representative it cannot be told from; [None] stands for
    [placed == false].  A sub-partition is never empty. *)
Fixpoint place (h : gmap loc State) (s_j : loc) (subPartitions : list (list loc))
    : option (list (list loc)) :=
  match subPartitions with
  | [] => None
  | sub :: rest =>
      match sub with
      | s_k_rep :: _ =>
          if distinguishable h s_j s_k_rep
          then cons sub <$> place h s_j rest
          else Some ((sub ++ [s_j]) :: rest)
      | [] => cons sub <$> place h s_j rest
      end
  end.

(** The loop over [j] for one partition of at least two states. *)
Definition split_partition (h : gmap loc State) (members : list loc)
    : list (list loc) :=
  match members with
  | [] => []
  | s0 :: others =>
      foldl (λ subs s_j,
               match place h s_j subs with
               | Some subs' => subs'
               | None => subs ++ [[s_j]]
               end)
            [[s0]] others
  end.

(** [if (newNPartitionsCounter < MAX_STATES) newPartitionsList[...++] = x].
    Of an entry of [newPartitionsList] only the members are ever read: its id
    and label are rewritten before use. *)
Definition push_partition (newList : list (list loc)) (x : list loc)
    : list (list loc) :=
  if bool_decide (length newList < MAX_STATES) then newList ++ [x] else newList.

(** Body of the loop over the partitions; [acc] is ([newPartitionsList],
    [changedInPass]). *)
Definition refine_step (h : gmap loc State) (acc : list (list loc) * bool)
    (P : Partition) : list (list loc) * bool :=
  let '(newList, changedInPass) := acc in
  if bool_decide (length (states P) ≤ 1) then
    if bool_decide (0 < length (states P)) then
      (push_partition newList (states P), changedInPass)
    else acc
  else
    let subPartitions := split_partition h (states P) in
    (foldl push_partition newList subPartitions,
     changedInPass || bool_decide (1 < length subPartitions)).

(** The update of [partitions], of the partition ids of the states and of
    the labels. *)
Definition install_step (acc : gmap loc State * list Partition)
    (members : list loc) : gmap loc State * list Partition :=
  let '(h, ps) := acc in
  let i := Z.of_nat (length ps) in
  let h' := assign_partition i h members in
  (h', ps ++ [mkPartition members i (make_label h' members)]).

Definition install (newList : list (list loc)) (st : Machine) : Machine :=
  let '(h, ps) := foldl install_step (heap st, []) newList in
  set_partitions ps (set_heap h st).

(** One iteration of the [do ... while (changedInPass)] loop: the machine
    after it and the final value of [changedInPass]. *)
Definition refine_pass (st : Machine) : Machine * bool :=
  let '(newList, changedInPass) :=
    foldl (refine_step (heap st)) ([], false) (partitions st) in
  if changedInPass || negb (bool_decide (length newList = nPartitions st))
  then (install newList st, changedInPass)
  else (st, false).

Fixpoint refineAllPartitions (fuel : nat) (st : Machine) : option Machine :=
  match fuel with
  | O => None
  | S fuel' =>
      let '(st', changedInPass) := refine_pass st in
      if changedInPass then refineAllPartitions fuel' st' else Some st'
  end.

(** ** printMinimizedDFA

    One record per printed table line: the id and label of the partition, the
    final flag of its representative, and the partition ids its transitions
    lead to ([None] is printed as "-"). *)
Record Row : Type := mkRow {
  row_id : Z;
  row_label : string;
  row_final : bool;
  row_next_a : option Z;
  row_next_b : option Z
}.

Definition row_target (h : gmap loc State) (t : option loc) : option Z :=
  (λ q, partitionId (deref h q)) <$> t.

Definition printMinimizedDFA (st : Machine) : list Row :=
  omap (λ currentP,
          match states currentP with
          | [] => None
          | representative :: _ =>
              let s := deref (heap st) representative in
              Some (mkRow (p_id currentP) (label currentP) (isFinal s)
                          (row_target (heap st) (next0 s))
                          (row_target (heap st) (next1 s)))
          end)
       (partitions st).

(** ** main *)

(** [p->next[sym] = t]. *)
Definition assign_next (p : loc) (sym : symbol) (t : loc) (st : Machine)
    : Machine :=
  set_heap (alter (set_next sym (Some t)) p (heap st)) st.

(** Sequencing of calls that may [exit]. *)
Definition obind {A B : Type} (c : outcome A) (k : A → outcome B) : outcome B :=
  match c with
  | Returned a => k a
  | Exited status final => Exited status final
  end.

(** Steps 1 to 4 of [main]: prune, initial partition, refinement, table.
    [None] when a loop ran out of fuel. *)
Definition pipeline (fuel : nat) (initialDFAState : option loc) (st : Machine)
    : option (Machine * list Row) :=
  st1 ← removeUnreachable fuel initialDFAState st;
  st2 ← refineAllPartitions fuel (initialPartition st1);
  Some (st2, printMinimizedDFA st2).

Section Main.

Variable malloc : gmap loc State → option loc.

(** The part of [main] that defines "Example DFA 2"; it yields
    [initialDFAState] and the machine. *)
Definition example_dfa2 : outcome (loc * Machine) :=
  obind (createState malloc "q1" false initial_machine) (λ '(q1, st),
  obind (createState malloc "q2" true st) (λ '(q2, st),
  obind (createState malloc "q3" true st) (λ '(q3, st),
  obind (createState malloc "q4" false st) (λ '(q4, st),
  let initialDFAState := q1 in
  let st := assign_next q1 Sym0 q2 st in
  let st := assign_next q1 Sym1 q3 st in
  let st := assign_next q2 Sym0 q3 st in
  let st := assign_next q2 Sym1 q2 st in
  let st := assign_next q3 Sym0 q3 st in
  let st := assign_next q3 Sym1 q2 st in
  let st := assign_next q4 Sym0 q2 st in
  let st := assign_next q4 Sym1 q3 st in
  Returned (initialDFAState, st))))).

Definition main (fuel : nat) : outcome (option (Machine * list Row)) :=
  obind example_dfa2 (λ '(initialDFAState, st),
  Returned (pipeline fuel (Some initialDFAState) st)).

End Main.

(** An allocator that never fails and hands out the least unused address. *)
Definition bump_malloc (h : gmap loc State) : option loc := Some (fresh (dom h)).

(** ** Specification vocabulary *)

(** The transition function of the automaton held in a heap. *)
Definition delta (h : gmap loc State) (p : loc) (sym : symbol) : option loc :=
  next (deref h p) sym.

(** The state reached from [p] on the word [w]; [None] when a transition is
    missing on the way. *)
Fixpoint run (h : gmap loc State) (p : loc) (w : list symbol) : option loc :=
  match w with
  | [] => Some p
  | a :: w' =>
      match delta h p a with
      | Some q => run h q w'
      | None => None
      end
  end.

(** [w] is accepted from [p]: the run exists and ends in a final state. *)
Definition accepts (h : gmap loc State) (p : loc) (w : list symbol) : bool :=
  match run h p w with
  | Some q => isFinal (deref h q)
  | None => false
  end.

(** What is seen of [w] from [p] when a missing transition is told apart from
    a rejecting run: [None] for no run, else the final flag reached. *)
Definition observe (h : gmap loc State) (p : loc) (w : list symbol)
    : option bool :=
  (λ q, isFinal (deref h q)) <$> run h p w.

Definition same_language (h : gmap loc State) (p q : loc) : Prop :=
  ∀ w, accepts h p w = accepts h q w.

Definition same_behaviour (h : gmap loc State) (p q : loc) : Prop :=
  ∀ w, observe h p w = observe h q w.

(** [q] is reachable from [p] via zero or more transitions. *)
Definition reachable_from (h : gmap loc State) (p q : loc) : Prop :=
  ∃ w, run h p w = Some q.

(** No state of [l] lacks a transition. *)
Definition complete_on (h : gmap loc State) (l : list loc) : Prop :=
  ∀ p sym, p ∈ l → is_Some (delta h p sym).

(** A well-formed graph: the array holds distinct live states, transitions
    stay inside the array, and the capacities of the static arrays are
    respected. *)
Record wf_graph (st : Machine) : Prop := mk_wf_graph {
  wf_nodup : NoDup (allStates st);
  wf_alloc : ∀ p, p ∈ allStates st → is_Some (heap st !! p);
  wf_closed : ∀ p sym q,
    p ∈ allStates st → delta (heap st) p sym = Some q → q ∈ allStates st;
  wf_capacity : nStates st ≤ MAX_STATES;
  wf_marks : length (reachable st) = MAX_STATES
}.

(** Two states are members of one partition of the current partition set. *)
Definition same_partition (st : Machine) (p q : loc) : Prop :=
  ∃ P, P ∈ partitions st ∧ p ∈ states P ∧ q ∈ states P.

(** The machine after [k] passes of the refinement loop. *)
Definition after_passes (k : nat) (st : Machine) : Machine :=
  Nat.iter k (λ s, (refine_pass s).1) st.

(** The number of unmarked entries among the first [n] marks: the measure
    that decreases along the sweeps of [markReachable]. *)
Fixpoint unmarked (n : nat) (r : list bool) : nat :=
  match n with
  | O => 0
  | S n' => unmarked n' r + (if is_marked r n' then 0 else 1)
  end.

(** *** Invariants of the loops of [markReachable] *)

(** What every step of a sweep maintains, from [acc] to [acc']: the array
    keeps its size, marks are only added, the measure pays for the flag, and
    an unset flag means that nothing was marked. *)
Definition sweep_step_ok (n : nat) (acc acc' : list bool * bool) : Prop :=
  length acc'.1 = length acc.1 ∧
  (∀ i, is_marked acc.1 i = true → is_marked acc'.1 i = true) ∧
  unmarked n acc'.1 + Nat.b2n acc'.2 ≤ unmarked n acc.1 + Nat.b2n acc.2 ∧
  (acc'.2 = false → acc'.1 = acc.1 ∧ acc.2 = false).

(** The mark at index [i] is justified: it names a state reachable from
    [start]. *)
Definition justified (st : Machine) (start : loc) (i : nat) : Prop :=
  ∃ p, allStates st !! i = Some p ∧ reachable_from (heap st) start p.

Definition sound_marks (st : Machine) (start : loc) (r : list bool) : Prop :=
  ∀ i, i < nStates st → is_marked r i = true → justified st start i.

(** The marks are closed under the transitions. *)
Definition closed_marks (st : Machine) (r : list bool) : Prop :=
  ∀ i p sym q ti,
    is_marked r i = true → allStates st !! i = Some p →
    next (deref (heap st) p) sym = Some q →
    getStateIndexByPtr (Some q) st = Some ti → is_marked r ti = true.

(** *** Invariant of the compaction loop of [removeUnreachable]

    After the slots below [k] of the original array [orig] have been read:
    the slots from [k] on are untouched, the slots below [writeIndex] hold the
    marked states met so far in their original order, each of these carries
    its slot number as id, and the unmarked states met so far are freed. *)
Definition compact_inv (orig : list loc) (r : list bool) (h0 : gmap loc State)
    (k : nat) (acc : list loc * nat * gmap loc State) : Prop :=
  let '(arr, w, h) := acc in
  length arr = length orig ∧ w ≤ k ∧ drop k arr = drop k orig ∧
  take w arr `sublist_of` take k orig ∧
  (∀ p, p ∈ take w arr ↔
        ∃ i, i < k ∧ orig !! i = Some p ∧ is_marked r i = true) ∧
  (∀ j p, take w arr !! j = Some p →
          h !! p = set_id (Z.of_nat j) <$> h0 !! p) ∧
  (∀ i p, i < k → orig !! i = Some p → is_marked r i = false →
          h !! p = None) ∧
  (∀ p, p ∉ take k orig → h !! p = h0 !! p).

(** *** Vocabulary for the refinement *)

(** The member lists of the current partitions. *)
Definition blocks (st : Machine) : list (list loc) := states <$> partitions st.

(** The signature of a state: the partition ids its transitions lead to,
    with -2 for a missing transition. *)
Definition signature (h : gmap loc State) (p : loc) : Z * Z :=
  (target_pid h (next (deref h p) Sym0), target_pid h (next (deref h p) Sym1)).

(** Sub-partitions group by signature: none is empty, the members of one
    agree on the signature, and members of two distinct ones differ. *)
Definition grouped (h : gmap loc State) (subs : list (list loc)) : Prop :=
  (∀ s, s ∈ subs → s ≠ []) ∧
  (∀ s p q, s ∈ subs → p ∈ s → q ∈ s → signature h p = signature h q) ∧
  (∀ i j s t p q, subs !! i = Some s → subs !! j = Some t → p ∈ s → q ∈ t →
                  signature h p = signature h q → i = j).

(** What one pass makes of one partition. *)
Definition refined (h : gmap loc State) (b : list loc) : list (list loc) :=
  if bool_decide (length b ≤ 1) then
    if bool_decide (0 < length b) then [b] else []
  else split_partition h b.

(** Two heaps hold the same automaton: they differ at most in the partition
    ids of their states. *)
Definition same_graph (h h' : gmap loc State) : Prop :=
  ∀ p, (is_Some (h' !! p) ↔ is_Some (h !! p)) ∧
       name (deref h' p) = name (deref h p) ∧
       isFinal (deref h' p) = isFinal (deref h p) ∧
       (∀ sym, next (deref h' p) sym = next (deref h p) sym) ∧
       id (deref h' p) = id (deref h p).

(** The partition set is consistent with the array and the heap: the
    partitions split the array, none is empty, every state carries the index
    of its partition, a partition carries its index as id, and the members of
    a partition agree on the final flag. *)
Record part_inv (st : Machine) : Prop := mk_part_inv {
  pi_perm : mjoin (blocks st) ≡ₚ allStates st;
  pi_nonempty : ∀ b, b ∈ blocks st → b ≠ [];
  pi_pid : ∀ i b p, blocks st !! i = Some b → p ∈ b →
                    partitionId (deref (heap st) p) = Z.of_nat i;
  pi_id : ∀ i P, partitions st !! i = Some P → p_id P = Z.of_nat i;
  pi_final : ∀ b p q, b ∈ blocks st → p ∈ b → q ∈ b →
                      isFinal (deref (heap st) p) = isFinal (deref (heap st) q)
}.

(** No partition can be split: its members agree on the signature. *)
Definition stable (st : Machine) : Prop :=
  ∀ b p q, b ∈ blocks st → p ∈ b → q ∈ b →
           signature (heap st) p = signature (heap st) q.

(** States of equal behaviour are never separated. *)
Definition coarse (st : Machine) : Prop :=
  ∀ p q, p ∈ allStates st → q ∈ allStates st →
         same_behaviour (heap st) p q → same_partition st p q.

(** *** A decision procedure for well-formedness *)

Definition wf_check (st : Machine) : bool :=
  bool_decide (NoDup (allStates st))
  && forallb (λ p,
       bool_decide (is_Some (heap st !! p))
       && forallb (λ sym,
            match delta (heap st) p sym with
            | Some q => bool_decide (q ∈ allStates st)
            | None => true
            end) alphabet)
     (allStates st)
  && bool_decide (nStates st ≤ MAX_STATES)
  && bool_decide (length (reachable st) = MAX_STATES).

(** *** Example automata *)

(** The machine of a call that returned or exited. *)
Definition machine_of {A : Type} (c : outcome (A * Machine)) : Machine :=
  match c with
  | Returned (_, st) => st
  | Exited _ st => st
  end.

(** "Example DFA 2" of [main], as built with [bump_malloc]: q1, q2, q3 and
    q4 live at the addresses 1, 2, 3 and 4. *)
Definition dfa2_machine : Machine := machine_of (example_dfa2 bump_malloc).

(** A partial automaton of three non-final states: q0 goes to qA on 0 and
    to qB on 1, qA has no transition, qB loops on both symbols.  They live at
    the addresses 1, 2 and 3. *)
Definition partial_dfa : Machine :=
  machine_of
    (obind (createState bump_malloc "q0" false initial_machine) (λ '(q0, st),
     obind (createState bump_malloc "qA" false st) (λ '(qA, st),
     obind (createState bump_malloc "qB" false st) (λ '(qB, st),
     let st := assign_next q0 Sym0 qA st in
     let st := assign_next q0 Sym1 qB st in
     let st := assign_next qB Sym0 qB st in
     let st := assign_next qB Sym1 qB st in
     Returned (q0, st))))).

(** A machine whose state array is full. *)
Definition full_machine : Machine :=
  Nat.iter MAX_STATES
           (λ st, machine_of (createState bump_malloc "s" false st))
           initial_machine.

(** Scenario B of the specification, an automaton that is already minimal:
    q_a (non-final) and q_b (final), both going to q_b on 0 and to q_a on 1.
    They live at the addresses 1 and 2. *)
Definition minimal_dfa : Machine :=
  machine_of
    (obind (createState bump_malloc "q_a" false initial_machine) (λ '(qa, st),
     obind (createState bump_malloc "q_b" true st) (λ '(qb, st),
     let st := assign_next qa Sym0 qb st in
     let st := assign_next qa Sym1 qa st in
     let st := assign_next qb Sym0 qb st in
     let st := assign_next qb Sym1 qa st in
     Returned (qa, st)))).

(** The result of pruning "Example DFA 2" from q1. *)
Definition dfa2_pruned : Machine :=
  default dfa2_machine (removeUnreachable 4 (Some 1%positive) dfa2_machine).

(** *** Deciding membership in one partition *)

Definition same_partitionb (st : Machine) (p q : loc) : bool :=
  existsb (λ P, bool_decide (p ∈ states P) && bool_decide (q ∈ states P))
          (partitions st).

(** ** The end of main *)

(** The loop [for (i...) if (allStates[i] != NULL) free(allStates[i])] that
    ends [main]; the entries below [nStates] are never NULL.  [free] takes
    the cell out of the heap; that every block freed here is live and freed
    once is proved below. *)
Definition free_states (st : Machine) : Machine :=
  set_heap (foldl (λ h p, delete p h) (heap st) (allStates st)) st.

(** ** The printed table read as an automaton

    A row names its successors by partition id ("S0", "S1", ...); the table
    is read as the automaton whose states are the row ids. *)

Definition row_next (r : Row) (sym : symbol) : option Z :=
  match sym with Sym0 => row_next_a r | Sym1 => row_next_b r end.

(** The row printed for the minimised state [i]. *)
Definition table_row (rows : list Row) (i : Z) : option Row :=
  snd <$> list_find (λ r, row_id r = i) rows.

Definition table_delta (rows : list Row) (i : Z) (sym : symbol) : option Z :=
  r ← table_row rows i; row_next r sym.

Fixpoint table_run (rows : list Row) (i : Z) (w : list symbol) : option Z :=
  match w with
  | [] => Some i
  | a :: w' =>
      match table_delta rows i a with
      | Some j => table_run rows j w'
      | None => None
      end
  end.

(** What is seen of [w] from the row [i]; compare [observe]. *)
Definition table_observe (rows : list Row) (i : Z) (w : list symbol)
    : option bool :=
  j ← table_run rows i w; row_final <$> table_row rows j.

(** *** Further invariants *)

(** The id of a state is its index in the state array. *)
Definition ids_dense (st : Machine) : Prop :=
  ∀ i p, allStates st !! i = Some p → id (deref (heap st) p) = Z.of_nat i.

(** Display names have at most three characters, as [createState] stores
    them. *)
Definition names_short (st : Machine) : Prop :=
  ∀ p, p ∈ allStates st → String.length (name (deref (heap st) p)) ≤ 3.

(** The label of every partition lists the names of its members. *)
Definition labels_ok (st : Machine) : Prop :=
  ∀ P, P ∈ partitions st → label P = make_label (heap st) (states P).
(** * Properties *)

(** ** Loop invariants for [foldl] *)

Lemma foldl_invariant {A B : Type} (f : A → B → A) (I : list B → A → Prop)
    (l : list B) (a : A) :
  I [] a →
  (∀ done x rest acc, l = done ++ x :: rest → I done acc → I (done ++ [x]) (f acc x)) →
  I l (foldl f a l).
Proof.
  intros H0 Hstep.
  assert (∀ rest done acc, l = done ++ rest → I done acc → I l (foldl f acc rest)) as H.
  { induction rest as [|x rest IH]; intros done acc Hl HI; simpl.
    - rewrite app_nil_r in Hl. by subst.
    - apply (IH (done ++ [x])).
      + by rewrite <- app_assoc.
      + by eapply Hstep. }
  by apply (H l []).
Qed.

Lemma seq_split_index (n : nat) (done rest : list nat) (x : nat) :
  seq 0 n = done ++ x :: rest →
  done = seq 0 x ∧ x < n ∧ done ++ [x] = seq 0 (S x).
Proof.
  intros H.
  assert (length done = x) as Hx.
  { assert (seq 0 n !! length done = Some x) as Hl.
    { rewrite H. rewrite lookup_app_r by lia. by rewrite Nat.sub_diag. }
    apply lookup_seq in Hl. lia. }
  assert (x < n) as Hlt.
  { apply (f_equal length) in H. rewrite length_seq, length_app in H. simpl in H. lia. }
  assert (done = seq 0 x) as Hd.
  { apply (f_equal (take x)) in H. rewrite take_app_length' in H by done.
    rewrite take_seq in H. rewrite Nat.min_l in H by lia. done. }
  split_and!; [done|done|].
  rewrite Hd. by rewrite seq_S.
Qed.

(** ** getStateIndexByPtr *)

Lemma getStateIndexByPtr_Some (st : Machine) (p : loc) (i : nat) :
  getStateIndexByPtr (Some p) st = Some i →
  allStates st !! i = Some p ∧ ∀ j, j < i → allStates st !! j ≠ Some p.
Proof.
  unfold getStateIndexByPtr. intros H.
  destruct (list_find (λ q, q = p) (allStates st)) as [[k y]|] eqn:E; simplify_eq/=.
  apply list_find_Some in E as (Hk & -> & Hmin).
  split; [done|]. intros j Hj Hjp. by eapply Hmin.
Qed.

Lemma getStateIndexByPtr_None (st : Machine) (p : loc) :
  getStateIndexByPtr (Some p) st = None ↔ p ∉ allStates st.
Proof.
  unfold getStateIndexByPtr. split.
  - intros H Hin.
    destruct (list_find (λ q, q = p) (allStates st)) as [[k y]|] eqn:E; simplify_eq/=.
    apply list_find_None in E. rewrite Forall_forall in E. by eapply E.
  - intros Hnin.
    destruct (list_find (λ q, q = p) (allStates st)) as [[k y]|] eqn:E; [|done].
    apply list_find_Some in E as (Hk & -> & _).
    exfalso. apply Hnin. by eapply list_elem_of_lookup_2.
Qed.

Lemma getStateIndexByPtr_elem (st : Machine) (p : loc) :
  p ∈ allStates st → ∃ i, getStateIndexByPtr (Some p) st = Some i.
Proof.
  intros Hin. destruct (getStateIndexByPtr (Some p) st) as [i|] eqn:E; [eauto|].
  by apply getStateIndexByPtr_None in E.
Qed.

Lemma getStateIndexByPtr_lookup (st : Machine) (p : loc) (i : nat) :
  NoDup (allStates st) → allStates st !! i = Some p →
  getStateIndexByPtr (Some p) st = Some i.
Proof.
  intros Hnd Hi.
  destruct (getStateIndexByPtr_elem st p) as [j Hj]; [by eapply list_elem_of_lookup_2|].
  rewrite Hj. f_equal.
  apply getStateIndexByPtr_Some in Hj as [Hj _].
  by eapply NoDup_lookup.
Qed.

Lemma getStateIndexByPtr_lt (st : Machine) (p : loc) (i : nat) :
  getStateIndexByPtr (Some p) st = Some i → i < nStates st.
Proof.
  intros H. apply getStateIndexByPtr_Some in H as [H _].
  by apply lookup_lt_Some in H.
Qed.

(** ** Reading through pointers after a store *)

Lemma deref_alter_eq (f : State → State) (p : loc) (h : gmap loc State) :
  is_Some (h !! p) → deref (alter f p h) p = f (deref h p).
Proof.
  intros [s Hs]. unfold deref. rewrite !lookup_total_alt, lookup_alter_eq, Hs.
  done.
Qed.

Lemma deref_alter_ne (f : State → State) (p q : loc) (h : gmap loc State) :
  p ≠ q → deref (alter f p h) q = deref h q.
Proof.
  intros Hne. unfold deref. by rewrite !lookup_total_alt, lookup_alter_ne.
Qed.

(** A store to one field is not seen through the other fields, wherever it
    goes. *)
Lemma deref_alter_field {A : Type} (proj : State → A) (f : State → State)
    (p q : loc) (h : gmap loc State) :
  (∀ s, proj (f s) = proj s) →
  proj (deref (alter f p h) q) = proj (deref h q).
Proof.
  intros Hf. destruct (decide (p = q)) as [->|Hne].
  - unfold deref. rewrite !lookup_total_alt, lookup_alter_eq.
    destruct (h !! q); simpl; [apply Hf|done].
  - by rewrite deref_alter_ne.
Qed.

Lemma is_Some_alter (f : State → State) (p q : loc) (h : gmap loc State) :
  is_Some (alter f p h !! q) ↔ is_Some (h !! q).
Proof.
  destruct (decide (p = q)) as [->|Hne].
  - rewrite lookup_alter_eq. by rewrite fmap_is_Some.
  - by rewrite lookup_alter_ne.
Qed.

(** ** createState *)

Lemma snprintf_s_length (size : nat) (src : string) :
  String.length (snprintf_s size src) ≤ size - 1.
Proof.
  unfold snprintf_s. generalize (size - 1). intros n. revert n.
  induction src as [|c src IH]; intros [|n]; simpl; try lia.
  specialize (IH n). lia.
Qed.

Lemma snprintf_s_prefix (size : nat) (src : string) :
  ∃ rest, src = snprintf_s size src +:+ rest.
Proof.
  unfold snprintf_s. generalize (size - 1). intros n. revert n.
  induction src as [|c src IH]; intros [|n]; simpl.
  - by exists "".
  - by exists "".
  - by exists (String c src).
  - destruct (IH n) as [rest Hrest]. exists rest.
    change (String c src = String c (substring 0 n src +:+ rest)). by f_equal.
Qed.

Lemma snprintf_s_short (size : nat) (src : string) :
  String.length src ≤ size - 1 → snprintf_s size src = src.
Proof.
  unfold snprintf_s. generalize (size - 1). intros n. revert n.
  induction src as [|c src IH]; intros [|n]; simpl; intros H; try done; try lia.
  rewrite IH; [done|lia].
Qed.

Lemma createState_returned (malloc : gmap loc State → option loc)
    (nm : string) (fin : bool) (st st' : Machine) (s : loc) :
  createState malloc nm fin st = Returned (s, st') →
  nStates st < MAX_STATES ∧ malloc (heap st) = Some s ∧
  heap st' = <[s := mkState (snprintf_s 4 nm) fin None None
                             (Z.of_nat (nStates st)) (-1)%Z]> (heap st) ∧
  allStates st' = allStates st ++ [s] ∧
  reachable st' = reachable st ∧ partitions st' = partitions st ∧
  stderr st' = stderr st.
Proof.
  unfold createState. case_decide as Hcap; [done|].
  destruct (malloc (heap st)) as [s0|]; [|done].
  intros [= <- <-]. simpl. split_and!; try done. lia.
Qed.

(** The graph stays well formed when the allocator hands out a block that is
    not live. *)
Lemma createState_wf (malloc : gmap loc State → option loc)
    (nm : string) (fin : bool) (st st' : Machine) (s : loc) :
  (∀ h p, malloc h = Some p → h !! p = None) →
  wf_graph st →
  createState malloc nm fin st = Returned (s, st') →
  wf_graph st'.
Proof.
  intros Hfresh [Hnd Hal Hcl Hcap Hmk] Hc.
  apply createState_returned in Hc as (Hlt & Hm & Hh & Hall & Hr & _ & _).
  apply Hfresh in Hm.
  assert (s ∉ allStates st) as Hnew.
  { intros Hin. apply Hal in Hin as [x Hx]. congruence. }
  constructor.
  - rewrite Hall. apply NoDup_app. split_and!; [done| |apply NoDup_singleton].
    intros x Hx Hx'. apply list_elem_of_singleton in Hx'. by subst.
  - intros p Hp. rewrite Hh, Hall in *. apply elem_of_app in Hp as [Hp|Hp].
    + rewrite lookup_insert_ne; [by apply Hal|]. intros ->. done.
    + apply list_elem_of_singleton in Hp as ->. rewrite lookup_insert_eq. eauto.
  - intros p sym q Hp Hd. rewrite Hh, Hall in *. unfold delta, deref in Hd.
    apply elem_of_app in Hp as [Hp|Hp].
    + rewrite lookup_total_insert_ne in Hd by (intros ->; done).
      apply elem_of_app. left. by eapply Hcl.
    + apply list_elem_of_singleton in Hp as ->.
      rewrite lookup_total_insert_eq in Hd. by destruct sym.
  - unfold nStates in *. rewrite Hall, length_app. simpl. lia.
  - by rewrite Hr.
Qed.

Lemma initial_machine_wf : wf_graph initial_machine.
Proof.
  constructor; simpl.
  - apply NoDup_nil_2.
  - intros p Hp. by apply elem_of_nil in Hp.
  - intros p sym q Hp. by apply elem_of_nil in Hp.
  - unfold nStates, MAX_STATES. simpl. lia.
  - reflexivity.
Qed.

(** Wiring a transition between two states of the array keeps the graph well
    formed. *)
Lemma assign_next_wf (p t : loc) (sym : symbol) (st : Machine) :
  wf_graph st → t ∈ allStates st → wf_graph (assign_next p sym t st).
Proof.
  intros [Hnd Hal Hcl Hcap Hmk] Ht. constructor; simpl; try done.
  - intros q Hq. apply is_Some_alter. by apply Hal.
  - intros q a q' Hq Hd. unfold delta in Hd.
    destruct (decide (p = q)) as [->|Hne].
    + rewrite deref_alter_eq in Hd by (by apply Hal).
      destruct sym, a; simpl in Hd; simplify_eq; try done.
      * by apply (Hcl q Sym1).
      * by apply (Hcl q Sym0).
    + rewrite deref_alter_ne in Hd by done. by eapply Hcl.
Qed.

(** ** Labels

    The program builds a label in a buffer of [MAX_LABEL_LEN] characters with
    [strcpy] and [strcat]; with names of at most three characters and at most
    [MAX_STATES] members the label fits, so that appending strings is all
    there is to it. *)

Lemma string_length_app (s1 s2 : string) :
  String.length (s1 +:+ s2) = String.length s1 + String.length s2.
Proof.
  induction s1 as [|c s1 IH]; [done|].
  change (String c s1 +:+ s2) with (String c (s1 +:+ s2)). simpl. by rewrite IH.
Qed.

Lemma label_body_length (h : gmap loc State) (l : list loc) :
  (∀ p, p ∈ l → String.length (name (deref h p)) ≤ 3) →
  String.length (label_body h l) ≤ 4 * length l.
Proof.
  induction l as [|p l IH]; intros Hnames; [simpl; lia|].
  assert (String.length (name (deref h p)) ≤ 3) as Hp
    by (apply Hnames; apply list_elem_of_here).
  assert (String.length (label_body h l) ≤ 4 * length l) as Hl.
  { apply IH. intros q Hq. apply Hnames. by apply list_elem_of_further. }
  destruct l as [|q l]; [simpl; lia|].
  change (label_body h (p :: q :: l))
    with (name (deref h p) +:+ "," +:+ label_body h (q :: l)).
  rewrite !string_length_app. simpl String.length at 2.
  change (length (p :: q :: l)) with (S (length (q :: l))). lia.
Qed.

Lemma label_fits (h : gmap loc State) (l : list loc) :
  (∀ p, p ∈ l → String.length (name (deref h p)) ≤ 3) →
  length l ≤ MAX_STATES →
  String.length (make_label h l) < MAX_LABEL_LEN.
Proof.
  intros Hnames Hlen. unfold make_label. rewrite !string_length_app.
  pose proof (label_body_length h l Hnames). unfold MAX_STATES, MAX_LABEL_LEN in *.
  simpl String.length. lia.
Qed.

Lemma alphabet_size : length alphabet = ALPHABET_SIZE.
Proof. reflexivity. Qed.
(** ** markReachable: the marks *)

Lemma is_marked_insert_eq (r : list bool) (i : nat) (b : bool) :
  i < length r → is_marked (<[i := b]> r) i = b.
Proof. intros H. unfold is_marked. by rewrite list_lookup_insert_eq. Qed.

Lemma is_marked_insert_ne (r : list bool) (i j : nat) (b : bool) :
  i ≠ j → is_marked (<[i := b]> r) j = is_marked r j.
Proof. intros H. unfold is_marked. by rewrite list_lookup_insert_ne. Qed.

Lemma is_marked_lt (r : list bool) (i : nat) :
  is_marked r i = true → i < length r.
Proof.
  unfold is_marked. intros H. destruct (r !! i) eqn:E; [|done].
  by apply lookup_lt_Some in E.
Qed.

Lemma is_marked_insert_true (r : list bool) (i j : nat) :
  is_marked r j = true → is_marked (<[i := true]> r) j = true.
Proof.
  intros H. destruct (decide (i = j)) as [->|Hne].
  - apply is_marked_insert_eq. by apply is_marked_lt.
  - by rewrite is_marked_insert_ne.
Qed.

Lemma clear_marks_length (n : nat) (r : list bool) :
  length (clear_marks n r) = length r.
Proof.
  unfold clear_marks. apply (foldl_invariant _ (λ _ acc, length acc = length r)).
  - done.
  - intros done x rest acc _ Hacc. by rewrite length_insert.
Qed.

Lemma clear_marks_lt (n : nat) (r : list bool) (i : nat) :
  i < n → is_marked (clear_marks n r) i = false.
Proof.
  intros Hi. unfold clear_marks.
  cut (∀ j, j ∈ seq 0 n → is_marked (foldl (λ r i, <[i:=false]> r) r (seq 0 n)) j = false).
  { intros H. apply H. apply elem_of_seq. lia. }
  apply (foldl_invariant _ (λ done acc, ∀ j, j ∈ done → is_marked acc j = false)).
  - intros j Hj. by apply elem_of_nil in Hj.
  - intros done x rest acc _ Hacc j Hj.
    apply elem_of_app in Hj as [Hj|Hj].
    + destruct (decide (x = j)) as [->|Hne].
      * destruct (decide (j < length acc)).
        -- by apply is_marked_insert_eq.
        -- rewrite list_insert_ge by lia. by apply Hacc.
      * rewrite is_marked_insert_ne by done. by apply Hacc.
    + apply list_elem_of_singleton in Hj as ->.
      destruct (decide (x < length acc)).
      * by apply is_marked_insert_eq.
      * rewrite list_insert_ge by lia. unfold is_marked.
        by rewrite lookup_ge_None_2 by lia.
Qed.

Lemma unmarked_le (n : nat) (r : list bool) : unmarked n r ≤ n.
Proof. induction n as [|n IH]; simpl; [done|]. destruct (is_marked r n); lia. Qed.

Lemma unmarked_insert_ge (n j : nat) (b : bool) (r : list bool) :
  n ≤ j → unmarked n (<[j := b]> r) = unmarked n r.
Proof.
  induction n as [|n IH]; simpl; intros H; [done|].
  rewrite IH by lia. by rewrite is_marked_insert_ne by lia.
Qed.

Lemma unmarked_mark (n j : nat) (r : list bool) :
  j < n → j < length r → is_marked r j = false →
  S (unmarked n (<[j := true]> r)) = unmarked n r.
Proof.
  induction n as [|n IH]; simpl; intros Hj Hlen Hm; [lia|].
  destruct (decide (j = n)) as [->|Hne].
  - rewrite unmarked_insert_ge by lia.
    rewrite is_marked_insert_eq by done. rewrite Hm. lia.
  - rewrite is_marked_insert_ne by done.
    specialize (IH ltac:(lia) Hlen Hm). lia.
Qed.

(** The two ways one transition is handled: nothing happens, or its target
    is found unmarked and gets marked. *)
Lemma mark_target_cases (st : Machine) (acc : list bool * bool) (t : option loc) :
  (mark_target st acc t = acc ∧
   ∀ q ti, t = Some q → getStateIndexByPtr (Some q) st = Some ti →
           is_marked acc.1 ti = true)
  ∨ (∃ q ti, t = Some q ∧ getStateIndexByPtr (Some q) st = Some ti ∧
             is_marked acc.1 ti = false ∧
             mark_target st acc t = (<[ti := true]> acc.1, true)).
Proof.
  unfold mark_target. destruct t as [q|]; [|left; split; [done|congruence]].
  destruct (getStateIndexByPtr (Some q) st) as [ti|] eqn:E;
    [|left; split; [done|congruence]].
  destruct (is_marked acc.1 ti) eqn:M; simpl.
  - left. split; [done|]. intros q' ti' [= <-] Hti. rewrite E in Hti. by simplify_eq.
  - right. exists q, ti. done.
Qed.

Lemma sweep_step_ok_refl (n : nat) (acc : list bool * bool) :
  sweep_step_ok n acc acc.
Proof. unfold sweep_step_ok. split_and!; auto. Qed.

Lemma sweep_step_ok_trans (n : nat) (a b c : list bool * bool) :
  sweep_step_ok n a b → sweep_step_ok n b c → sweep_step_ok n a c.
Proof.
  intros (L1 & M1 & U1 & F1) (L2 & M2 & U2 & F2). unfold sweep_step_ok.
  split_and!.
  - congruence.
  - auto.
  - lia.
  - intros H. destruct (F2 H) as [E2 H']. destruct (F1 H') as [E1 H''].
    split; congruence.
Qed.

Lemma sweep_step_ok_length (n : nat) (a b : list bool * bool) :
  sweep_step_ok n a b → n ≤ length a.1 → n ≤ length b.1.
Proof. intros [H _] Hle. by rewrite H. Qed.

Lemma mark_target_ok (st : Machine) (acc : list bool * bool) (t : option loc) :
  nStates st ≤ length acc.1 →
  sweep_step_ok (nStates st) acc (mark_target st acc t).
Proof.
  intros Hlen.
  destruct (mark_target_cases st acc t) as [[-> _]|(q & ti & -> & Hi & Hm & ->)].
  - apply sweep_step_ok_refl.
  - pose proof (getStateIndexByPtr_lt _ _ _ Hi) as Hlt.
    unfold sweep_step_ok. simpl. split_and!.
    + by rewrite length_insert.
    + intros i. apply is_marked_insert_true.
    + pose proof (unmarked_mark (nStates st) ti acc.1 Hlt ltac:(lia) Hm).
      destruct acc.2; simpl; lia.
    + done.
Qed.

Lemma mark_from_ok (st : Machine) (acc : list bool * bool) (i : nat) :
  nStates st ≤ length acc.1 →
  sweep_step_ok (nStates st) acc (mark_from st acc i).
Proof.
  intros Hlen. unfold mark_from.
  destruct (is_marked acc.1 i); simpl; [|apply sweep_step_ok_refl].
  destruct (allStates st !! i) as [p|]; [|apply sweep_step_ok_refl].
  set (a1 := mark_target st acc (next (deref (heap st) p) Sym0)).
  assert (sweep_step_ok (nStates st) acc a1) as H1 by by apply mark_target_ok.
  eapply sweep_step_ok_trans; [exact H1|].
  apply mark_target_ok. by eapply sweep_step_ok_length.
Qed.

Lemma sweep_ok (st : Machine) (r : list bool) :
  nStates st ≤ length r →
  sweep_step_ok (nStates st) (r, false) (sweep st r).
Proof.
  intros Hlen. unfold sweep.
  apply (foldl_invariant _ (λ _ acc, sweep_step_ok (nStates st) (r, false) acc)).
  - apply sweep_step_ok_refl.
  - intros done x rest acc _ Hacc.
    eapply sweep_step_ok_trans; [exact Hacc|].
    apply mark_from_ok. by eapply sweep_step_ok_length.
Qed.

(** A sweep that reports no change found the marks closed under the
    transitions. *)
Lemma sweep_unchanged (st : Machine) (r r' : list bool) :
  nStates st ≤ length r →
  sweep st r = (r', false) →
  r' = r ∧
  ∀ i p sym q ti,
    is_marked r i = true → allStates st !! i = Some p →
    next (deref (heap st) p) sym = Some q →
    getStateIndexByPtr (Some q) st = Some ti → is_marked r ti = true.
Proof.
  intros Hlen Hsw.
  pose proof (sweep_ok st r Hlen) as Hok. rewrite Hsw in Hok.
  destruct Hok as (_ & _ & _ & Hf). simpl in Hf.
  destruct (Hf eq_refl) as [-> _].
  split; [done|].
  cut (∀ i, i ∈ seq 0 (nStates st) → ∀ p sym q ti,
         is_marked r i = true → allStates st !! i = Some p →
         next (deref (heap st) p) sym = Some q →
         getStateIndexByPtr (Some q) st = Some ti → is_marked r ti = true).
  { intros H i p sym q ti Hm Hp. eapply H; [|done..].
    apply elem_of_seq. apply lookup_lt_Some in Hp. unfold nStates. lia. }
  revert Hsw. unfold sweep.
  set (I := λ (done : list nat) (acc : list bool * bool),
         sweep_step_ok (nStates st) (r, false) acc ∧
         (acc.2 = false →
          ∀ i, i ∈ done → ∀ p sym q ti,
            is_marked r i = true → allStates st !! i = Some p →
            next (deref (heap st) p) sym = Some q →
            getStateIndexByPtr (Some q) st = Some ti → is_marked r ti = true)).
  assert (I (seq 0 (nStates st))
            (foldl (mark_from st) (r, false) (seq 0 (nStates st)))) as HI.
  { apply foldl_invariant.
    - split; [apply sweep_step_ok_refl|]. intros _ i Hi. by apply elem_of_nil in Hi.
    - intros done x rest acc _ [Hok Hcl].
      assert (nStates st ≤ length acc.1) as Hlen'
        by (by eapply sweep_step_ok_length).
      pose proof (mark_from_ok st acc x Hlen') as Hstep.
      split; [by eapply sweep_step_ok_trans|].
      intros Hf' i Hi p sym q ti Hm Hp Hn Hti.
      destruct Hstep as (_ & _ & _ & Hback). destruct (Hback Hf') as [Heq Hf0].
      destruct Hok as (_ & _ & _ & Hback0). destruct (Hback0 Hf0) as [Hr _].
      simpl in Hr.
      apply elem_of_app in Hi as [Hi|Hi]; [by eapply Hcl|].
      apply list_elem_of_singleton in Hi as ->.
      revert Heq Hf'. unfold mark_from. rewrite Hr, Hm, Hp.
      unfold alphabet. cbn [foldl negb].
      set (a1 := mark_target st acc (next (deref (heap st) p) Sym0)).
      intros Heq Hf'.
      pose proof (mark_target_ok st a1 (next (deref (heap st) p) Sym1)) as H2.
      pose proof (mark_target_ok st acc (next (deref (heap st) p) Sym0) Hlen') as H1.
      fold a1 in H1.
      assert (nStates st ≤ length a1.1) as Hlen1
        by (by eapply sweep_step_ok_length).
      specialize (H2 Hlen1). destruct H2 as (_ & _ & _ & Hb2).
      destruct (Hb2 Hf') as [E2 Hf1].
      destruct H1 as (_ & _ & _ & Hb1). destruct (Hb1 Hf1) as [E1 _].
      destruct sym.
      * destruct (mark_target_cases st acc (next (deref (heap st) p) Sym0))
          as [[_ Hc]|(q' & ti' & _ & _ & _ & Hc)].
        -- rewrite <- Hr. by eapply Hc.
        -- fold a1 in Hc. rewrite Hc in Hf1. done.
      * destruct (mark_target_cases st a1 (next (deref (heap st) p) Sym1))
          as [[_ Hc]|(q' & ti' & _ & _ & _ & Hc)].
        -- rewrite <- Hr, <- E1. by eapply Hc.
        -- rewrite Hc in Hf'. done. }
  intros Hsw. rewrite Hsw in HI. destruct HI as [_ HI]. by apply HI.
Qed.

(** ** Runs of the automaton *)

Lemma run_app (h : gmap loc State) (p : loc) (w1 w2 : list symbol) :
  run h p (w1 ++ w2) =
  match run h p w1 with Some q => run h q w2 | None => None end.
Proof.
  revert p. induction w1 as [|a w1 IH]; intros p; simpl; [done|].
  destruct (delta h p a); [apply IH|done].
Qed.

Lemma reachable_from_refl (h : gmap loc State) (p : loc) : reachable_from h p p.
Proof. by exists []. Qed.

Lemma reachable_from_step (h : gmap loc State) (p q q' : loc) (sym : symbol) :
  reachable_from h p q → delta h q sym = Some q' → reachable_from h p q'.
Proof.
  intros [w Hw] Hd. exists (w ++ [sym]). rewrite run_app, Hw. simpl. by rewrite Hd.
Qed.

Lemma reachable_from_trans (h : gmap loc State) (p q r : loc) :
  reachable_from h p q → reachable_from h q r → reachable_from h p r.
Proof.
  intros [w1 H1] [w2 H2]. exists (w1 ++ w2). by rewrite run_app, H1.
Qed.

Lemma run_in_graph (st : Machine) (p q : loc) (w : list symbol) :
  wf_graph st → p ∈ allStates st → run (heap st) p w = Some q →
  q ∈ allStates st.
Proof.
  intros Hwf. revert p. induction w as [|a w IH]; intros p Hp; simpl.
  - by intros [= <-].
  - destruct (delta (heap st) p a) as [p'|] eqn:E; [|done].
    apply IH. by eapply wf_closed.
Qed.

(** ** markReachable: the sweeps mark reachable states only *)

Section Marking.

Variable st : Machine.
Variable start : loc.

Lemma mark_target_sound (acc : list bool * bool) (p : loc) (sym : symbol) :
  sound_marks st start acc.1 → reachable_from (heap st) start p →
  sound_marks st start (mark_target st acc (next (deref (heap st) p) sym)).1.
Proof.
  intros Hs Hp.
  destruct (mark_target_cases st acc (next (deref (heap st) p) sym))
    as [[-> _]|(q & ti & Hq & Hi & Hm & ->)]; [done|].
  simpl. intros i Hlt Hi'.
  destruct (decide (ti = i)) as [<-|Hne].
  - exists q. split; [by apply getStateIndexByPtr_Some in Hi as [? _]|].
    by eapply reachable_from_step.
  - rewrite is_marked_insert_ne in Hi' by done. by apply Hs.
Qed.

Lemma mark_from_sound (acc : list bool * bool) (i : nat) :
  sound_marks st start acc.1 → sound_marks st start (mark_from st acc i).1.
Proof.
  intros Hs. unfold mark_from.
  destruct (is_marked acc.1 i) eqn:Hm; simpl; [|done].
  destruct (allStates st !! i) as [p|] eqn:Hp; [|done].
  destruct (Hs i) as (p' & Hp' & Hreach); [by eapply lookup_lt_Some|done|].
  assert (p' = p) as -> by congruence.
  apply (mark_target_sound _ p Sym1); [|done].
  by apply (mark_target_sound _ p Sym0).
Qed.

Lemma sweep_sound (r : list bool) :
  sound_marks st start r → sound_marks st start (sweep st r).1.
Proof.
  intros Hs. unfold sweep.
  apply (foldl_invariant _ (λ _ acc, sound_marks st start acc.1)); [done|].
  intros done x rest acc _ Hacc. by apply mark_from_sound.
Qed.

(** The loop ends within as many sweeps as there are unmarked states, plus
    one, with sound and closed marks. *)
Lemma propagate_spec (fuel : nat) (r : list bool) :
  nStates st ≤ length r →
  unmarked (nStates st) r < fuel →
  sound_marks st start r →
  ∃ r', propagate fuel st r = Some r' ∧
        length r' = length r ∧
        (∀ i, is_marked r i = true → is_marked r' i = true) ∧
        sound_marks st start r' ∧ closed_marks st r'.
Proof.
  revert r. induction fuel as [|fuel IH]; intros r Hlen Hfuel Hs; [lia|].
  simpl. destruct (sweep st r) as [r1 changed] eqn:Hsw.
  pose proof (sweep_ok st r Hlen) as Hok. rewrite Hsw in Hok.
  destruct Hok as (HL & HM & HU & HF). simpl in *.
  pose proof (sweep_sound r Hs) as Hs1. rewrite Hsw in Hs1. simpl in Hs1.
  destruct changed.
  - destruct (IH r1) as (r' & Hp & HL' & HM' & Hs' & Hc'); [lia|simpl in HU; lia|done|].
    exists r'. split_and!; [done|congruence|auto|done|done].
  - destruct (sweep_unchanged st r r1 Hlen Hsw) as [-> Hcl].
    exists r. split_and!; done.
Qed.

(** Closed marks that contain a state contain whatever is reachable from
    it. *)
Lemma closed_marks_complete (r : list bool) (w : list symbol) :
  wf_graph st → closed_marks st r →
  ∀ i p j q,
    allStates st !! i = Some p → is_marked r i = true →
    run (heap st) p w = Some q → allStates st !! j = Some q →
    is_marked r j = true.
Proof.
  intros Hwf Hcl. induction w as [|a w IH]; intros i p j q Hi Hm Hrun Hj.
  - simpl in Hrun. simplify_eq.
    by rewrite <- (NoDup_lookup _ _ _ _ (wf_nodup _ Hwf) Hi Hj).
  - simpl in Hrun. destruct (delta (heap st) p a) as [p'|] eqn:Hd; [|done].
    assert (p' ∈ allStates st) as Hp'.
    { eapply wf_closed; [done| |done]. by eapply list_elem_of_lookup_2. }
    destruct (getStateIndexByPtr_elem _ _ Hp') as [i' Hi'].
    apply (IH i' p' j q); [|by eapply Hcl|done|done].
    by apply getStateIndexByPtr_Some in Hi' as [? _].
Qed.

End Marking.

(** ** markReachable *)

(** With the start state in the array, [markReachable] returns within
    [nStates] sweeps, touches only the marks, and marks exactly the states
    reachable from the start state. *)
Lemma markReachable_spec (fuel : nat) (start : loc) (st : Machine) :
  wf_graph st → start ∈ allStates st → nStates st ≤ fuel →
  ∃ r, markReachable fuel (Some start) st = Some (set_reachable r st) ∧
       length r = MAX_STATES ∧
       ∀ i p, allStates st !! i = Some p →
              (is_marked r i = true ↔ reachable_from (heap st) start p).
Proof.
  intros Hwf Hstart Hfuel.
  destruct (getStateIndexByPtr_elem _ _ Hstart) as [si Hsi].
  unfold markReachable.
  set (st1 := set_reachable (clear_marks (nStates st) (reachable st)) st).
  change (getStateIndexByPtr (Some start) st1) with (getStateIndexByPtr (Some start) st).
  rewrite Hsi.
  set (r0 := <[si := true]> (reachable st1)).
  pose proof (getStateIndexByPtr_lt _ _ _ Hsi) as Hsilt.
  pose proof (wf_capacity _ Hwf) as Hcap. pose proof (wf_marks _ Hwf) as Hmk.
  assert (length (reachable st1) = MAX_STATES) as Hl1.
  { simpl. by rewrite clear_marks_length. }
  assert (length r0 = MAX_STATES) as Hl0.
  { unfold r0. by rewrite length_insert. }
  assert (nStates st1 = nStates st) as Hn by done.
  assert (unmarked (nStates st1) r0 < fuel) as Hun.
  { pose proof (unmarked_mark (nStates st) si (reachable st1) Hsilt ltac:(lia)
                  (clear_marks_lt _ _ _ Hsilt)) as Hdec.
    pose proof (unmarked_le (nStates st) (reachable st1)). fold r0 in Hdec.
    rewrite Hn. lia. }
  assert (sound_marks st1 start r0) as Hs0.
  { intros i Hlt Hi. destruct (decide (si = i)) as [<-|Hne].
    - exists start. split; [|apply reachable_from_refl].
      by apply getStateIndexByPtr_Some in Hsi as [? _].
    - unfold r0 in Hi. rewrite is_marked_insert_ne in Hi by done.
      simpl in Hi. by rewrite clear_marks_lt in Hi. }
  destruct (propagate_spec st1 start fuel r0) as (r' & Hp & HL & HM & Hs & Hc);
    [lia|done|done|].
  rewrite Hp. simpl. exists r'. split_and!; [done|congruence|].
  intros i p Hi. split.
  - intros Hm. destruct (Hs i) as (p' & Hp' & Hr); [by eapply lookup_lt_Some|done|].
    simpl in Hp'. by simplify_eq.
  - intros [w Hw].
    assert (wf_graph st1) as Hwf1.
    { destruct Hwf. constructor; try done. }
    apply (closed_marks_complete st1 r' w Hwf1 Hc si start i p); try done.
    + by apply getStateIndexByPtr_Some in Hsi as [? _].
    + apply HM. unfold r0. apply is_marked_insert_eq. lia.
Qed.
(** ** markReachable when the start state is missing *)

Lemma markReachable_absent (fuel : nat) (start : loc) (st : Machine) :
  start ∉ allStates st →
  markReachable fuel (Some start) st =
  Some (fprintf_stderr
          "Error: Start node not found in allStates during markReachable."
          (set_reachable (clear_marks (nStates st) (reachable st)) st)).
Proof.
  intros Hnin. unfold markReachable.
  set (st1 := set_reachable _ st).
  assert (getStateIndexByPtr (Some start) st1 = None) as ->.
  { apply getStateIndexByPtr_None. done. }
  assert (bool_decide (allStates st1 !! 0 = Some start) = false) as ->.
  { apply bool_decide_eq_false. intros H. apply Hnin.
    by eapply list_elem_of_lookup_2. }
  by rewrite andb_false_r.
Qed.

(** ** removeUnreachable: the compaction loop *)

Lemma compact_step_inv (orig : list loc) (r : list bool) (h0 : gmap loc State)
    (k : nat) (acc : list loc * nat * gmap loc State) :
  NoDup orig → k < length orig →
  compact_inv orig r h0 k acc →
  compact_inv orig r h0 (S k) (compact_step r acc k).
Proof.
  intros Hnd Hk. destruct acc as [[arr w] h].
  intros (Hlen & Hw & Hdrop & Hsub & Hmem & Hid & Hfree & Hout).
  destruct (lookup_lt_is_Some_2 orig k Hk) as [p Hp].
  assert (arr !! k = Some p) as Hak.
  { rewrite <- (Nat.add_0_r k), <- lookup_drop, Hdrop, lookup_drop.
    by rewrite Nat.add_0_r. }
  assert (take (S k) orig = take k orig ++ [p]) as Htk by by apply take_S_r.
  assert (p ∉ take k orig) as Hfresh.
  { intros Hin. apply list_elem_of_lookup in Hin as [i Hi].
    apply lookup_take_Some in Hi as [Hi Hik].
    pose proof (NoDup_lookup _ _ _ _ Hnd Hi Hp). lia. }
  assert (drop (S k) arr = drop (S k) orig) as Hdrop'.
  { replace (S k) with (k + 1) by lia. rewrite <- !drop_drop. by rewrite Hdrop. }
  unfold compact_step. rewrite Hak.
  destruct (is_marked r k) eqn:Hm.
  - (* the state is kept and moves to slot w *)
    set (arr' := if decide (k ≠ w) then <[w := p]> arr else arr).
    assert (arr' = <[w := p]> arr) as Harr'.
    { unfold arr'. case_decide as Hkw; [done|].
      assert (k = w) as -> by lia. by rewrite list_insert_id. }
    assert (arr' !! w = Some p) as Hw'.
    { rewrite Harr'. apply list_lookup_insert_eq. lia. }
    rewrite Hw'.
    assert (take (S w) arr' = take w arr ++ [p]) as Htw.
    { rewrite (take_S_r _ _ _ Hw'). rewrite Harr'.
      by rewrite take_insert_ge by lia. }
    unfold compact_inv. rewrite Htw, Htk. split_and!.
    + rewrite Harr'. by rewrite length_insert.
    + lia.
    + rewrite Harr'. by rewrite drop_insert_lt by lia.
    + by apply sublist_app.
    + intros q. rewrite elem_of_app, list_elem_of_singleton, Hmem. split.
      * intros [(i & Hi & Hq & Hmi)| ->].
        -- exists i. split_and!; [lia|done|done].
        -- exists k. split_and!; [lia|done|done].
      * intros (i & Hi & Hq & Hmi). destruct (decide (i = k)) as [->|Hne].
        -- right. congruence.
        -- left. exists i. split_and!; [lia|done|done].
    + intros j q Hj. apply lookup_app_Some in Hj as [Hj|[Hj1 Hj2]].
      * assert (q ≠ p) as Hqp.
        { intros ->. apply Hfresh. eapply elem_of_sublist; [|done].
          by eapply list_elem_of_lookup_2. }
        rewrite lookup_alter_ne by done. by apply Hid.
      * apply list_lookup_singleton_Some in Hj2 as [Hj2 ->].
        rewrite lookup_alter_eq. rewrite (Hout _ Hfresh).
        rewrite length_take_le in Hj1, Hj2 by lia.
        by replace j with w by lia.
    + intros i q Hi Hq Hmi.
      assert (i ≠ k) as Hne by (intros ->; congruence).
      assert (q ≠ p) as Hqp.
      { intros ->. pose proof (NoDup_lookup _ _ _ _ Hnd Hq Hp). done. }
      rewrite lookup_alter_ne by done. apply (Hfree i); [lia|done|done].
    + intros q Hq. rewrite not_elem_of_app, list_elem_of_singleton in Hq.
      destruct Hq as [Hq1 Hq2]. rewrite lookup_alter_ne by done. by apply Hout.
  - (* the state is freed *)
    unfold compact_inv. rewrite Htk. split_and!.
    + done.
    + lia.
    + done.
    + by apply sublist_inserts_r.
    + intros q. rewrite Hmem. split.
      * intros (i & Hi & Hq & Hmi). exists i. split_and!; [lia|done|done].
      * intros (i & Hi & Hq & Hmi).
        assert (i ≠ k) as Hne by (intros ->; congruence).
        exists i. split_and!; [lia|done|done].
    + intros j q Hj.
      assert (q ≠ p) as Hqp.
      { intros ->. apply Hfresh. eapply elem_of_sublist; [|done].
        by eapply list_elem_of_lookup_2. }
      rewrite lookup_delete_ne by done. by apply Hid.
    + intros i q Hi Hq Hmi. destruct (decide (i = k)) as [->|Hne].
      * assert (q = p) as -> by congruence. by rewrite lookup_delete_eq.
      * assert (q ≠ p) as Hqp.
        { intros ->. pose proof (NoDup_lookup _ _ _ _ Hnd Hq Hp). done. }
        rewrite lookup_delete_ne by done. apply (Hfree i); [lia|done|done].
    + intros q Hq. rewrite not_elem_of_app, list_elem_of_singleton in Hq.
      destruct Hq as [Hq1 Hq2]. rewrite lookup_delete_ne by done. by apply Hout.
Qed.

Lemma compact_loop_inv (orig : list loc) (r : list bool) (h0 : gmap loc State) :
  NoDup orig →
  compact_inv orig r h0 (length orig)
    (foldl (compact_step r) (orig, 0, h0) (seq 0 (length orig))).
Proof.
  intros Hnd.
  pose proof (foldl_invariant (compact_step r)
                (λ done acc, compact_inv orig r h0 (length done) acc)
                (seq 0 (length orig)) (orig, 0, h0)) as H.
  cbv beta in H. rewrite length_seq in H. apply H; clear H.
  - simpl. split_and!; try done.
    + intros p. split; [intros Hp; by apply elem_of_nil in Hp|].
      intros (i & Hi & _). lia.
    + intros i p Hi. lia.
  - intros done x rest acc Hsplit Hacc.
    apply seq_split_index in Hsplit as (-> & Hx & _).
    rewrite length_seq in Hacc.
    rewrite length_app, length_seq. simpl. rewrite Nat.add_1_r.
    by apply compact_step_inv.
Qed.

(** ** removeUnreachable: the loop that clears transitions *)

(** When the marks are closed under the transitions, no transition of a
    marked state leads to an unmarked state, and the loop changes nothing. *)
Lemma clear_transitions_closed (st : Machine) :
  closed_marks st (reachable st) →
  foldl (clear_transitions st) (heap st) (seq 0 (nStates st)) = heap st.
Proof.
  intros Hcl.
  apply (foldl_invariant _ (λ _ acc, acc = heap st)); [done|].
  intros done x rest acc _ ->.
  unfold clear_transitions.
  destruct (is_marked (reachable st) x) eqn:Hm; [|done].
  destruct (allStates st !! x) as [p|] eqn:Hp; [|done].
  assert (∀ sym, clear_transition st p (heap st) sym = heap st) as Hone.
  { intros sym. unfold clear_transition.
    destruct (next (deref (heap st) p) sym) as [t|] eqn:Hn; [|done].
    destruct (getStateIndexByPtr (Some t) st) as [ti|] eqn:Hti; [|done].
    by rewrite (Hcl x p sym t ti). }
  unfold alphabet. cbn [foldl]. by rewrite !Hone.
Qed.

Lemma deref_lookup_fmap (f : State → State) (h h' : gmap loc State) (p : loc) :
  h' !! p = f <$> h !! p → is_Some (h !! p) → deref h' p = f (deref h p).
Proof.
  intros H [s Hs]. unfold deref. rewrite !lookup_total_alt, H, Hs. done.
Qed.

(** ** removeUnreachable *)

Lemma removeUnreachable_unfold (fuel : nat) (startNode : option loc)
    (st st1 : Machine) :
  markReachable fuel startNode st = Some st1 →
  removeUnreachable fuel startNode st =
  let h1 := foldl (clear_transitions st1) (heap st1) (seq 0 (nStates st1)) in
  let '(arr, writeIndex, h2) :=
    foldl (compact_step (reachable st1)) (allStates st1, 0, h1)
          (seq 0 (nStates st1)) in
  Some (set_allStates (take writeIndex arr) (set_heap h2 st1)).
Proof. intros H. unfold removeUnreachable. by rewrite H. Qed.

(** What [removeUnreachable] does to a well-formed graph whose start state
    is in the array, cell by cell. *)
Lemma removeUnreachable_result (fuel : nat) (start : loc) (st : Machine) :
  wf_graph st → start ∈ allStates st → nStates st ≤ fuel →
  ∃ st',
    removeUnreachable fuel (Some start) st = Some st' ∧
    allStates st' `sublist_of` allStates st ∧
    (∀ p, p ∈ allStates st' ↔
          p ∈ allStates st ∧ reachable_from (heap st) start p) ∧
    (∀ j p, allStates st' !! j = Some p →
            heap st' !! p = set_id (Z.of_nat j) <$> heap st !! p) ∧
    (∀ p, p ∈ allStates st → ¬ reachable_from (heap st) start p →
          heap st' !! p = None) ∧
    (∀ p, p ∉ allStates st → heap st' !! p = heap st !! p) ∧
    length (reachable st') = MAX_STATES ∧
    partitions st' = partitions st ∧ stderr st' = stderr st.
Proof.
  intros Hwf Hstart Hfuel.
  destruct (markReachable_spec fuel start st Hwf Hstart Hfuel) as (r & Hmark & Hlen & Hiff).
  rewrite (removeUnreachable_unfold _ _ _ _ Hmark). cbv zeta.
  set (st1 := set_reachable r st).
  assert (closed_marks st1 (reachable st1)) as Hcl.
  { intros i p sym q ti Hm Hp Hn Hti. simpl in *.
    apply getStateIndexByPtr_Some in Hti as [Hti _].
    apply (Hiff ti q Hti). eapply reachable_from_step; [|exact Hn].
    by apply (Hiff i p Hp). }
  change (nStates st1) with (nStates st).
  pose proof (clear_transitions_closed st1 Hcl) as Hclear.
  change (nStates st1) with (nStates st) in Hclear. rewrite Hclear.
  pose proof (compact_loop_inv (allStates st) r (heap st) (wf_nodup _ Hwf)) as Hinv.
  change (heap st1) with (heap st). change (allStates st1) with (allStates st).
  change (reachable st1) with r. unfold nStates.
  destruct (foldl (compact_step r) (allStates st, 0, heap st)
              (seq 0 (length (allStates st)))) as [[arr w] h2].
  destruct Hinv as (Hl & Hw & _ & Hsub & Hmem & Hid & Hfree & Hout).
  rewrite (take_ge (allStates st) (length (allStates st))) in Hsub, Hout by lia.
  eexists. split; [done|]. simpl. split_and!; try done.
  - intros p. rewrite Hmem. split.
    + intros (i & Hi & Hp & Hm). split; [by eapply list_elem_of_lookup_2|].
      by apply (Hiff i p Hp).
    + intros [Hp Hr]. apply list_elem_of_lookup in Hp as [i Hp].
      exists i. split_and!; [by eapply lookup_lt_Some|done|by apply (Hiff i p Hp)].
  - intros p Hp Hr. apply list_elem_of_lookup in Hp as [i Hp].
    apply (Hfree i); [by eapply lookup_lt_Some|done|].
    destruct (is_marked r i) eqn:Hm; [|done].
    exfalso. apply Hr. by apply (Hiff i p Hp).
Qed.

(** The pruned graph is well formed. *)
Lemma removeUnreachable_wf (fuel : nat) (start : loc) (st st' : Machine) :
  wf_graph st → start ∈ allStates st → nStates st ≤ fuel →
  removeUnreachable fuel (Some start) st = Some st' →
  wf_graph st'.
Proof.
  intros Hwf Hstart Hfuel Hrun.
  destruct (removeUnreachable_result fuel start st Hwf Hstart Hfuel)
    as (st2 & Hrun2 & Hsub & Hmem & Hid & Hfree & Hout & Hlen & _).
  rewrite Hrun in Hrun2. injection Hrun2 as <-.
  constructor.
  - eapply sublist_NoDup; [|exact Hsub]. by apply wf_nodup.
  - intros p Hp. apply list_elem_of_lookup in Hp as [j Hj].
    rewrite (Hid j p Hj). apply fmap_is_Some. apply wf_alloc; [done|].
    eapply elem_of_sublist; [|done]. by eapply list_elem_of_lookup_2.
  - intros p sym q Hp Hd.
    pose proof Hp as Hp0. apply Hmem in Hp0 as [Hp0 Hreach].
    apply list_elem_of_lookup in Hp as [j Hj].
    unfold delta in Hd.
    rewrite (deref_lookup_fmap _ _ _ _ (Hid j p Hj) (wf_alloc _ Hwf _ Hp0)) in Hd.
    assert (delta (heap st) p sym = Some q) as Hd0 by by destruct sym.
    apply Hmem. split; [by eapply wf_closed|by eapply reachable_from_step].
  - pose proof (sublist_length _ _ Hsub). pose proof (wf_capacity _ Hwf).
    unfold nStates in *. lia.
  - done.
Qed.

(** The transitions and final flags of the surviving states are those of
    the original graph. *)
Lemma removeUnreachable_graph (fuel : nat) (start : loc) (st st' : Machine) :
  wf_graph st → start ∈ allStates st → nStates st ≤ fuel →
  removeUnreachable fuel (Some start) st = Some st' →
  ∀ p, p ∈ allStates st' →
       (∀ sym, delta (heap st') p sym = delta (heap st) p sym) ∧
       isFinal (deref (heap st') p) = isFinal (deref (heap st) p) ∧
       name (deref (heap st') p) = name (deref (heap st) p).
Proof.
  intros Hwf Hstart Hfuel Hrun p Hp.
  destruct (removeUnreachable_result fuel start st Hwf Hstart Hfuel)
    as (st2 & Hrun2 & Hsub & Hmem & Hid & _).
  rewrite Hrun in Hrun2. injection Hrun2 as <-.
  pose proof Hp as Hp0. apply Hmem in Hp0 as [Hp0 _].
  apply list_elem_of_lookup in Hp as [j Hj].
  unfold delta.
  rewrite (deref_lookup_fmap _ _ _ _ (Hid j p Hj) (wf_alloc _ Hwf _ Hp0)).
  split_and!; [by intros []|done|done].
Qed.
(** ** Refinement: comparing two states *)

Lemma distinguishable_signature (h : gmap loc State) (p q : loc) :
  distinguishable h p q = false ↔ signature h p = signature h q.
Proof.
  unfold distinguishable, signature, alphabet. cbn [existsb].
  rewrite orb_false_r, orb_false_iff, !negb_false_iff, !Z.eqb_eq.
  split; [intros [H1 H2]; by f_equal|intros [= H1 H2]; done].
Qed.

Lemma distinguishable_true (h : gmap loc State) (p q : loc) :
  distinguishable h p q = true ↔ signature h p ≠ signature h q.
Proof.
  rewrite <- distinguishable_signature. by destruct (distinguishable h p q).
Qed.

(** ** Refinement: placing a state into the sub-partitions *)

Lemma place_Some (h : gmap loc State) (x : loc) (subs subs' : list (list loc)) :
  place h x subs = Some subs' →
  ∃ k sub rep,
    subs !! k = Some sub ∧ head sub = Some rep ∧
    distinguishable h x rep = false ∧ subs' = <[k := sub ++ [x]]> subs.
Proof.
  revert subs'. induction subs as [|sub subs IH]; intros subs' H; [done|].
  simpl in H. destruct sub as [|rep sub].
  - destruct (place h x subs) as [subs2|] eqn:E; simplify_eq/=.
    destruct (IH _ eq_refl) as (k & sub' & rep' & Hk & Hrep & Hd & ->).
    exists (S k), sub', rep'. done.
  - destruct (distinguishable h x rep) eqn:Hd.
    + destruct (place h x subs) as [subs2|] eqn:E; simplify_eq/=.
      destruct (IH _ eq_refl) as (k & sub' & rep' & Hk & Hrep & Hd' & ->).
      exists (S k), sub', rep'. done.
    + simplify_eq/=. exists 0, (rep :: sub), rep. done.
Qed.

Lemma place_None (h : gmap loc State) (x : loc) (subs : list (list loc)) :
  place h x subs = None →
  ∀ k sub rep, subs !! k = Some sub → head sub = Some rep →
               distinguishable h x rep = true.
Proof.
  induction subs as [|sub subs IH]; intros H k sub' rep' Hk Hrep; [done|].
  simpl in H. destruct sub as [|rep sub].
  - destruct (place h x subs) eqn:E; simplify_eq/=.
    destruct k as [|k]; simplify_eq/=. by eapply IH.
  - destruct (distinguishable h x rep) eqn:Hd; [|done].
    destruct (place h x subs) eqn:E; simplify_eq/=.
    destruct k as [|k]; simplify_eq/=; [done|]. by eapply IH.
Qed.

Lemma join_insert_app (subs : list (list loc)) (k : nat) (sub : list loc)
    (x : loc) :
  subs !! k = Some sub →
  mjoin (<[k := sub ++ [x]]> subs) ≡ₚ x :: mjoin subs.
Proof.
  revert k. induction subs as [|s subs IH]; intros k Hk; [done|].
  destruct k as [|k]; simplify_eq/=.
  - rewrite <- app_assoc. simpl. by rewrite <- Permutation_middle.
  - rewrite (IH _ Hk). by rewrite Permutation_middle.
Qed.

Lemma head_elem_of (s : list loc) (rep : loc) : head s = Some rep → rep ∈ s.
Proof. destruct s; intros; simplify_eq/=. apply list_elem_of_here. Qed.

Lemma grouped_place (h : gmap loc State) (x : loc) (subs : list (list loc))
    (k : nat) (sub : list loc) (rep : loc) :
  grouped h subs →
  subs !! k = Some sub → head sub = Some rep →
  distinguishable h x rep = false →
  grouped h (<[k := sub ++ [x]]> subs).
Proof.
  intros (Hne & Hsame & Hdiff) Hk Hrep Hd.
  apply distinguishable_signature in Hd.
  pose proof (head_elem_of _ _ Hrep) as Hrin.
  assert (sub ∈ subs) as Hsub by by eapply list_elem_of_lookup_2.
  assert (k < length subs) as Hlt by by eapply lookup_lt_Some.
  assert (∀ p, p ∈ sub ++ [x] → signature h p = signature h rep) as Hnew.
  { intros p Hp. apply elem_of_app in Hp as [Hp|Hp].
    - by eapply Hsame.
    - by apply list_elem_of_singleton in Hp as ->. }
  split_and!.
  - intros s Hs. apply list_elem_of_lookup in Hs as [i Hi].
    apply list_lookup_insert_Some in Hi as [(-> & <- & _)|[_ Hi]].
    + by destruct sub.
    + apply Hne. by eapply list_elem_of_lookup_2.
  - intros s p q Hs Hp Hq. apply list_elem_of_lookup in Hs as [i Hi].
    apply list_lookup_insert_Some in Hi as [(-> & <- & _)|[_ Hi]].
    + by rewrite (Hnew p), (Hnew q).
    + eapply Hsame; [|done..]. by eapply list_elem_of_lookup_2.
  - intros i j s t p q Hi Hj Hp Hq Hsig.
    apply list_lookup_insert_Some in Hi as [(-> & <- & _)|[Hik Hi]];
      apply list_lookup_insert_Some in Hj as [(Hjk & <- & _)|[Hjk Hj]].
    + done.
    + apply (Hdiff i j sub t rep q); try done.
      by rewrite <- (Hnew p).
    + subst j. apply (Hdiff i k s sub p rep); try done.
      by rewrite <- (Hnew q).
    + by apply (Hdiff i j s t p q).
Qed.

Lemma grouped_new (h : gmap loc State) (x : loc) (subs : list (list loc)) :
  grouped h subs →
  (∀ k sub rep, subs !! k = Some sub → head sub = Some rep →
                distinguishable h x rep = true) →
  grouped h (subs ++ [[x]]).
Proof.
  intros (Hne & Hsame & Hdiff) Hall.
  assert (∀ i s p, subs !! i = Some s → p ∈ s → signature h x ≠ signature h p)
    as Hx.
  { intros i s p Hi Hp. assert (s ∈ subs) as Hs by by eapply list_elem_of_lookup_2.
    destruct s as [|rep s]; [by apply Hne in Hs|].
    specialize (Hall i (rep :: s) rep Hi eq_refl).
    apply distinguishable_true in Hall.
    rewrite <- (Hsame (rep :: s) rep p Hs); [done|apply list_elem_of_here|done]. }
  split_and!.
  - intros s Hs. apply elem_of_app in Hs as [Hs|Hs]; [by apply Hne|].
    by apply list_elem_of_singleton in Hs as ->.
  - intros s p q Hs Hp Hq. apply elem_of_app in Hs as [Hs|Hs]; [by eapply Hsame|].
    apply list_elem_of_singleton in Hs as ->.
    apply list_elem_of_singleton in Hp as ->.
    by apply list_elem_of_singleton in Hq as ->.
  - intros i j s t p q Hi Hj Hp Hq Hsig.
    apply lookup_app_Some in Hi as [Hi|[Hil Hi]];
      apply lookup_app_Some in Hj as [Hj|[Hjl Hj]].
    + by apply (Hdiff i j s t p q).
    + apply list_lookup_singleton_Some in Hj as [_ <-].
      apply list_elem_of_singleton in Hq as ->.
      exfalso. by apply (Hx i s p Hi Hp).
    + apply list_lookup_singleton_Some in Hi as [_ <-].
      apply list_elem_of_singleton in Hp as ->.
      exfalso. by apply (Hx j t q Hj Hq).
    + apply list_lookup_singleton_Some in Hi as [Hi _].
      apply list_lookup_singleton_Some in Hj as [Hj _]. lia.
Qed.

(** ** Refinement: splitting one partition *)

Lemma split_partition_spec (h : gmap loc State) (b : list loc) :
  mjoin (split_partition h b) ≡ₚ b ∧ grouped h (split_partition h b) ∧
  (b ≠ [] → split_partition h b ≠ []).
Proof.
  destruct b as [|s0 others]; simpl.
  - split_and!; [done| |done].
    split_and!; [intros s Hs; by apply elem_of_nil in Hs
                |intros s p q Hs; by apply elem_of_nil in Hs|done].
  - set (step := λ subs s_j, match place h s_j subs with
                             | Some subs' => subs'
                             | None => subs ++ [[s_j]]
                             end).
    cut (mjoin (foldl step [[s0]] others) ≡ₚ s0 :: others ∧
         grouped h (foldl step [[s0]] others) ∧
         foldl step [[s0]] others ≠ []).
    { intros (? & ? & ?). done. }
    apply (foldl_invariant step
             (λ done subs, mjoin subs ≡ₚ s0 :: done ∧ grouped h subs ∧ subs ≠ [])).
    + split_and!; [done| |done]. split_and!.
      * intros s Hs. by apply list_elem_of_singleton in Hs as ->.
      * intros s p q Hs Hp Hq. apply list_elem_of_singleton in Hs as ->.
        apply list_elem_of_singleton in Hp as ->.
        by apply list_elem_of_singleton in Hq as ->.
      * intros i j s t p q Hi Hj _ _ _.
        apply list_lookup_singleton_Some in Hi as [-> _].
        by apply list_lookup_singleton_Some in Hj as [-> _].
    + intros done x rest subs _ (Hperm & Hgr & Hne). unfold step.
      destruct (place h x subs) as [subs'|] eqn:Hpl.
      * apply place_Some in Hpl as (k & sub & rep & Hk & Hrep & Hd & ->).
        split_and!.
        -- rewrite (join_insert_app _ _ _ _ Hk), Hperm.
           by rewrite (Permutation_cons_append (s0 :: done) x).
        -- by eapply grouped_place.
        -- intros Hnil. apply (f_equal length) in Hnil.
           rewrite length_insert in Hnil. by destruct subs.
      * split_and!.
        -- rewrite join_app, Hperm. done.
        -- apply grouped_new; [done|]. by apply place_None.
        -- by destruct subs.
Qed.

Lemma grouped_singleton (h : gmap loc State) (x : loc) : grouped h [[x]].
Proof.
  split_and!.
  - intros s Hs. by apply list_elem_of_singleton in Hs as ->.
  - intros s p q Hs Hp Hq. apply list_elem_of_singleton in Hs as ->.
    apply list_elem_of_singleton in Hp as ->.
    by apply list_elem_of_singleton in Hq as ->.
  - intros i j s t p q Hi Hj _ _ _.
    apply list_lookup_singleton_Some in Hi as [-> _].
    by apply list_lookup_singleton_Some in Hj as [-> _].
Qed.

Lemma refined_spec (h : gmap loc State) (b : list loc) :
  mjoin (refined h b) ≡ₚ b ∧ grouped h (refined h b) ∧
  (b ≠ [] → 1 ≤ length (refined h b)).
Proof.
  unfold refined. case_bool_decide as Hlen.
  - destruct b as [|x [|y b]]; simpl in *; [| |lia].
    + split_and!; [done| |done].
      split_and!; [intros s Hs; by apply elem_of_nil in Hs
                  |intros s p q Hs; by apply elem_of_nil in Hs|done].
    + split_and!; [done|apply grouped_singleton|lia].
  - destruct (split_partition_spec h b) as (Hp & Hg & Hne).
    split_and!; [done|done|].
    intros Hb. specialize (Hne Hb). destruct (split_partition h b); [done|simpl; lia].
Qed.

(** Two members of a partition end in the same sub-partition exactly when
    their signatures agree. *)
Lemma refined_same_block (h : gmap loc State) (b : list loc) (p q : loc) :
  p ∈ b → q ∈ b →
  (signature h p = signature h q ↔ ∃ s, s ∈ refined h b ∧ p ∈ s ∧ q ∈ s).
Proof.
  intros Hp Hq. destruct (refined_spec h b) as (Hperm & (Hne & Hsame & Hdiff) & _).
  assert (∀ x, x ∈ b → ∃ i s, refined h b !! i = Some s ∧ x ∈ s) as Hfind.
  { intros x Hx. rewrite <- Hperm in Hx. apply list_elem_of_join in Hx as (s & Hxs & Hs).
    apply list_elem_of_lookup in Hs as [i Hi]. eauto. }
  split.
  - intros Hsig. destruct (Hfind p Hp) as (i & s & Hi & Hps).
    destruct (Hfind q Hq) as (j & t & Hj & Hqt).
    assert (i = j) as <- by by eapply Hdiff.
    assert (t = s) as -> by congruence.
    exists s. split; [by eapply list_elem_of_lookup_2|done].
  - intros (s & Hs & Hps & Hqs). by eapply Hsame.
Qed.

(** ** Heaps that hold the same automaton *)

Lemma same_graph_refl (h : gmap loc State) : same_graph h h.
Proof. intros p. done. Qed.

Lemma same_graph_trans (h1 h2 h3 : gmap loc State) :
  same_graph h1 h2 → same_graph h2 h3 → same_graph h1 h3.
Proof.
  intros H12 H23 p.
  destruct (H12 p) as (A1 & B1 & C1 & D1 & E1).
  destruct (H23 p) as (A2 & B2 & C2 & D2 & E2).
  split_and!; [by rewrite A2|congruence|congruence| |congruence].
  intros sym. by rewrite D2.
Qed.

Lemma same_graph_sym (h1 h2 : gmap loc State) :
  same_graph h1 h2 → same_graph h2 h1.
Proof.
  intros H p. destruct (H p) as (A & B & C & D & E).
  split_and!; [done|done|done| |done]. intros sym. by rewrite D.
Qed.

Lemma same_graph_alter (i : Z) (p : loc) (h : gmap loc State) :
  same_graph h (alter (set_partitionId i) p h).
Proof.
  intros q. split_and!.
  - apply is_Some_alter.
  - by apply (deref_alter_field name).
  - by apply (deref_alter_field isFinal).
  - intros sym. by apply (deref_alter_field (λ s, next s sym)).
  - by apply (deref_alter_field id).
Qed.

Lemma same_graph_delta (h h' : gmap loc State) (p : loc) (sym : symbol) :
  same_graph h h' → delta h' p sym = delta h p sym.
Proof. intros H. destruct (H p) as (_ & _ & _ & D & _). apply D. Qed.

Lemma same_graph_isFinal (h h' : gmap loc State) (p : loc) :
  same_graph h h' → isFinal (deref h' p) = isFinal (deref h p).
Proof. intros H. by destruct (H p) as (_ & _ & C & _ & _). Qed.

Lemma same_graph_run (h h' : gmap loc State) (p : loc) (w : list symbol) :
  same_graph h h' → run h' p w = run h p w.
Proof.
  intros H. revert p. induction w as [|a w IH]; intros p; simpl; [done|].
  rewrite (same_graph_delta h h') by done.
  destruct (delta h p a); [apply IH|done].
Qed.

Lemma same_graph_observe (h h' : gmap loc State) (p : loc) (w : list symbol) :
  same_graph h h' → observe h' p w = observe h p w.
Proof.
  intros H. unfold observe. rewrite (same_graph_run h h') by done.
  destruct (run h p w); simpl; [|done].
  by rewrite (same_graph_isFinal h h').
Qed.

Lemma same_graph_accepts (h h' : gmap loc State) (p : loc) (w : list symbol) :
  same_graph h h' → accepts h' p w = accepts h p w.
Proof.
  intros H. unfold accepts. rewrite (same_graph_run h h') by done.
  destruct (run h p w); [|done]. by rewrite (same_graph_isFinal h h').
Qed.

(** ** Storing partition ids *)

Lemma assign_partition_same_graph (i : Z) (h : gmap loc State) (l : list loc) :
  same_graph h (assign_partition i h l).
Proof.
  unfold assign_partition.
  apply (foldl_invariant _ (λ _ acc, same_graph h acc)); [apply same_graph_refl|].
  intros done x rest acc _ Hacc.
  eapply same_graph_trans; [exact Hacc|]. apply same_graph_alter.
Qed.

Lemma assign_partition_notin (i : Z) (h : gmap loc State) (l : list loc) (p : loc) :
  p ∉ l → deref (assign_partition i h l) p = deref h p.
Proof.
  intros Hp. unfold assign_partition.
  cut (∀ acc, deref (foldl (λ h p, alter (set_partitionId i) p h) acc l) p = deref acc p).
  { intros H. apply H. }
  induction l as [|x l IH]; intros acc; simpl; [done|].
  apply not_elem_of_cons in Hp as [Hne Hp].
  rewrite IH by done. by rewrite deref_alter_ne.
Qed.

Lemma assign_partition_in (i : Z) (h : gmap loc State) (l : list loc) (p : loc) :
  p ∈ l → is_Some (h !! p) →
  partitionId (deref (assign_partition i h l) p) = i.
Proof.
  intros Hp Hal. unfold assign_partition.
  cut (∀ q, q ∈ l → is_Some (h !! q) →
            partitionId (deref (foldl (λ h p, alter (set_partitionId i) p h) h l) q) = i).
  { intros H. by apply H. }
  apply (foldl_invariant _
           (λ done acc, same_graph h acc ∧
                        ∀ q, q ∈ done → is_Some (h !! q) →
                             partitionId (deref acc q) = i)).
  - split; [apply same_graph_refl|]. intros q Hq. by apply elem_of_nil in Hq.
  - intros done x rest acc _ [Hsg Hacc]. split.
    + eapply same_graph_trans; [exact Hsg|]. apply same_graph_alter.
    + intros q Hq Hq'. destruct (decide (x = q)) as [->|Hne].
      * rewrite deref_alter_eq; [done|]. by apply (Hsg q).
      * rewrite deref_alter_ne by done. apply Hacc; [|done].
        apply elem_of_app in Hq as [Hq|Hq]; [done|].
        apply list_elem_of_singleton in Hq. congruence.
Qed.

(** ** Installing a list of member lists as the partition set *)

Lemma install_fold_spec (h0 : gmap loc State) (newList : list (list loc)) :
  NoDup (mjoin newList) →
  (∀ p, p ∈ mjoin newList → is_Some (h0 !! p)) →
  ∃ h ps,
    foldl install_step (h0, []) newList = (h, ps) ∧
    same_graph h0 h ∧
    states <$> ps = newList ∧
    (∀ i P, ps !! i = Some P → p_id P = Z.of_nat i) ∧
    (∀ i b p, newList !! i = Some b → p ∈ b →
              partitionId (deref h p) = Z.of_nat i) ∧
    (∀ p, p ∉ mjoin newList → deref h p = deref h0 p).
Proof.
  intros Hnd Hal.
  cut (let acc := foldl install_step (h0, []) newList in
       same_graph h0 acc.1 ∧ states <$> acc.2 = newList ∧
       (∀ i P, acc.2 !! i = Some P → p_id P = Z.of_nat i) ∧
       (∀ i b p, newList !! i = Some b → p ∈ b →
                 partitionId (deref acc.1 p) = Z.of_nat i) ∧
       (∀ p, p ∉ mjoin newList → deref acc.1 p = deref h0 p)).
  { destruct (foldl install_step (h0, []) newList) as [h ps]. simpl.
    intros H. exists h, ps. done. }
  apply (foldl_invariant install_step
           (λ done acc,
              same_graph h0 acc.1 ∧ states <$> acc.2 = done ∧
              (∀ i P, acc.2 !! i = Some P → p_id P = Z.of_nat i) ∧
              (∀ i b p, done !! i = Some b → p ∈ b →
                        partitionId (deref acc.1 p) = Z.of_nat i) ∧
              (∀ p, p ∉ mjoin done → deref acc.1 p = deref h0 p))).
  - simpl. split_and!; [apply same_graph_refl|done|done|done|done].
  - intros done x rest [h ps] Hsplit (Hsg & Hst & Hids & Hpid & Hout). simpl in *.
    assert (length ps = length done) as Hlen.
    { rewrite <- Hst. by rewrite length_fmap. }
    rewrite Hsplit, join_app in Hnd. simpl in Hnd.
    apply NoDup_app in Hnd as (_ & Hdisj & Hnd2).
    apply NoDup_app in Hnd2 as (_ & _ & _).
    split_and!.
    + eapply same_graph_trans; [exact Hsg|]. apply assign_partition_same_graph.
    + rewrite fmap_app. simpl. by rewrite Hst.
    + intros i P Hi. apply lookup_app_Some in Hi as [Hi|[Hi1 Hi2]]; [by apply Hids|].
      apply list_lookup_singleton_Some in Hi2 as [Hi2 <-]. simpl.
      f_equal. lia.
    + intros i b p Hi Hp. apply lookup_app_Some in Hi as [Hi|[Hi1 Hi2]].
      * rewrite assign_partition_notin; [by eapply Hpid|].
        intros Hpx. apply (Hdisj p).
        -- apply list_elem_of_join. exists b. split; [done|].
           by eapply list_elem_of_lookup_2.
        -- apply elem_of_app. by left.
      * apply list_lookup_singleton_Some in Hi2 as [Hi2 <-].
        rewrite assign_partition_in; [f_equal; lia|done|].
        apply (Hsg p). apply Hal. rewrite Hsplit, join_app. simpl.
        apply elem_of_app. right. apply elem_of_app. by left.
    + intros p Hp. rewrite join_app in Hp. simpl in Hp.
      rewrite app_nil_r in Hp. apply not_elem_of_app in Hp as [Hp1 Hp2].
      rewrite assign_partition_notin by done. by apply Hout.
Qed.

(** ** One pass computes the refinement of every partition *)

Lemma push_partition_fold (l xs : list (list loc)) :
  length (l ++ xs) ≤ MAX_STATES → foldl push_partition l xs = l ++ xs.
Proof.
  revert l. induction xs as [|x xs IH]; intros l Hlen; simpl.
  - by rewrite app_nil_r.
  - rewrite length_app in Hlen. simpl in Hlen.
    unfold push_partition at 2. rewrite bool_decide_eq_true_2 by lia.
    rewrite IH; [by rewrite <- app_assoc|].
    rewrite !length_app. simpl. lia.
Qed.

Lemma refine_step_fold (h : gmap loc State) (ps : list Partition)
    (acc : list (list loc)) (c : bool) :
  length (acc ++ ((states <$> ps) ≫= refined h)) ≤ MAX_STATES →
  foldl (refine_step h) (acc, c) ps =
  (acc ++ ((states <$> ps) ≫= refined h),
   c || existsb (λ P, bool_decide (1 < length (refined h (states P)))) ps).
Proof.
  revert acc c. induction ps as [|P ps IH]; intros acc c Hlen.
  - simpl. by rewrite app_nil_r, orb_false_r.
  - rewrite fmap_cons, bind_cons in *. rewrite app_assoc in Hlen.
    cbn [foldl existsb].
    assert (refine_step h (acc, c) P =
            (acc ++ refined h (states P),
             c || bool_decide (1 < length (refined h (states P))))) as ->.
    { unfold refine_step. unfold refined in *. rewrite length_app in Hlen.
      destruct (bool_decide (length (states P) ≤ 1)) eqn:H1.
      - destruct (bool_decide (0 < length (states P))) eqn:H0.
        + unfold push_partition. rewrite bool_decide_eq_true_2.
          * simpl. by rewrite orb_false_r.
          * rewrite length_app in Hlen. simpl in Hlen. lia.
        + by rewrite app_nil_r, orb_false_r.
      - rewrite push_partition_fold; [done|]. lia. }
    rewrite IH by done. by rewrite <- app_assoc, orb_assoc.
Qed.

(** ** Counting partitions *)

Lemma length_le_join (l : list (list loc)) :
  (∀ s, s ∈ l → s ≠ []) → length l ≤ length (mjoin l).
Proof.
  induction l as [|s l IH]; intros Hne; simpl; [done|].
  rewrite length_app.
  assert (s ≠ []) as Hs by (apply Hne; apply list_elem_of_here).
  assert (length l ≤ length (mjoin l)) as Hl.
  { apply IH. intros t Ht. apply Hne. by apply list_elem_of_further. }
  destruct s; [done|]. simpl. lia.
Qed.

Lemma join_bind_refined (h : gmap loc State) (bs : list (list loc)) :
  mjoin (bs ≫= refined h) ≡ₚ mjoin bs.
Proof.
  induction bs as [|b bs IH]; [done|].
  rewrite bind_cons, join_app. simpl. rewrite IH.
  by destruct (refined_spec h b) as [-> _].
Qed.

Lemma refined_nonempty (h : gmap loc State) (bs : list (list loc)) (s : list loc) :
  s ∈ bs ≫= refined h → s ≠ [].
Proof.
  intros Hs. apply list_elem_of_bind in Hs as (b & Hs & _).
  destruct (refined_spec h b) as (_ & (Hne & _) & _). by apply Hne.
Qed.

Lemma refined_subset (h : gmap loc State) (b s : list loc) (p : loc) :
  s ∈ refined h b → p ∈ s → p ∈ b.
Proof.
  intros Hs Hp. destruct (refined_spec h b) as (Hperm & _ & _).
  rewrite <- Hperm. apply list_elem_of_join. eauto.
Qed.

Lemma length_bind_refined (h : gmap loc State) (bs : list (list loc)) :
  (∀ b, b ∈ bs → b ≠ []) →
  length bs ≤ length (bs ≫= refined h) ∧
  (existsb (λ b, bool_decide (1 < length (refined h b))) bs = true →
   length bs < length (bs ≫= refined h)) ∧
  (existsb (λ b, bool_decide (1 < length (refined h b))) bs = false →
   length bs = length (bs ≫= refined h) ∧
   ∀ b, b ∈ bs → length (refined h b) = 1).
Proof.
  induction bs as [|b bs IH]; intros Hne.
  - simpl. split_and!; [done|done|]. intros _. split; [done|].
    intros b Hb. by apply elem_of_nil in Hb.
  - rewrite bind_cons, length_app. cbn [existsb length].
    destruct IH as (IH1 & IH2 & IH3).
    { intros b' Hb'. apply Hne. by apply list_elem_of_further. }
    destruct (refined_spec h b) as (_ & _ & Hb).
    specialize (Hb (Hne b (list_elem_of_here _ _))).
    split_and!.
    + lia.
    + intros Hex. apply orb_true_iff in Hex as [Hex|Hex].
      * apply bool_decide_eq_true in Hex. lia.
      * specialize (IH2 Hex). lia.
    + intros Hex. apply orb_false_iff in Hex as [Hex1 Hex2].
      apply bool_decide_eq_false in Hex1. destruct (IH3 Hex2) as [IHa IHb].
      split; [lia|]. intros b' Hb'. apply elem_of_cons in Hb' as [->|Hb'].
      * lia.
      * by apply IHb.
Qed.

Lemma existsb_fmap_states (f : list loc → bool) (ps : list Partition) :
  existsb (λ P, f (states P)) ps = existsb f (states <$> ps).
Proof. induction ps as [|P ps IH]; simpl; [done|]. by rewrite IH. Qed.

(** ** The loop body of refineAllPartitions *)

(** A block that refines into one piece has members of equal signature. *)
Lemma refined_one_stable (h : gmap loc State) (b : list loc) (p q : loc) :
  length (refined h b) = 1 → p ∈ b → q ∈ b → signature h p = signature h q.
Proof.
  intros Hlen Hp Hq.
  destruct (refined_spec h b) as (Hperm & (_ & Hsame & _) & _).
  destruct (refined h b) as [|s [|t l]] eqn:E; simpl in Hlen; try lia.
  simpl in Hperm. rewrite app_nil_r in Hperm.
  apply (Hsame s); [apply list_elem_of_here|by rewrite Hperm..].
Qed.

Lemma part_inv_block_count (st : Machine) :
  wf_graph st → part_inv st → nPartitions st ≤ nStates st.
Proof.
  intros Hwf Hpi. unfold nPartitions, nStates.
  rewrite <- (pi_perm _ Hpi).
  replace (length (partitions st)) with (length (blocks st))
    by (unfold blocks; by rewrite length_fmap).
  apply length_le_join. by apply pi_nonempty.
Qed.

Lemma refine_pass_unfold (st : Machine) :
  wf_graph st → part_inv st →
  refine_pass st =
  let newList := blocks st ≫= refined (heap st) in
  let changedInPass :=
    existsb (λ b, bool_decide (1 < length (refined (heap st) b))) (blocks st) in
  if changedInPass then (install newList st, true) else (st, false).
Proof.
  intros Hwf Hpi. unfold refine_pass.
  assert (length (blocks st ≫= refined (heap st)) ≤ MAX_STATES) as Hcap.
  { pose proof (length_le_join (blocks st ≫= refined (heap st))
                  (refined_nonempty _ _)) as Hle.
    rewrite join_bind_refined, (pi_perm _ Hpi) in Hle.
    pose proof (wf_capacity _ Hwf). unfold nStates in *. lia. }
  rewrite refine_step_fold by done.
  pose proof (existsb_fmap_states
                (λ b, bool_decide (1 < length (refined (heap st) b)))
                (partitions st)) as Hfm.
  cbv beta in Hfm. rewrite Hfm. clear Hfm.
  fold (blocks st). cbn [app orb].
  destruct (length_bind_refined (heap st) (blocks st) (pi_nonempty _ Hpi))
    as (_ & _ & Heq).
  destruct (existsb _ (blocks st)) eqn:Hex; simpl; [done|].
  destruct (Heq eq_refl) as [Hlen _].
  rewrite bool_decide_eq_true_2; [done|].
  rewrite <- Hlen. unfold nPartitions, blocks. by rewrite length_fmap.
Qed.

Lemma install_spec (newList : list (list loc)) (st : Machine) :
  NoDup (mjoin newList) →
  (∀ p, p ∈ mjoin newList → is_Some (heap st !! p)) →
  let st' := install newList st in
  same_graph (heap st) (heap st') ∧
  blocks st' = newList ∧
  allStates st' = allStates st ∧ reachable st' = reachable st ∧
  stderr st' = stderr st ∧
  (∀ i P, partitions st' !! i = Some P → p_id P = Z.of_nat i) ∧
  (∀ i b p, newList !! i = Some b → p ∈ b →
            partitionId (deref (heap st') p) = Z.of_nat i) ∧
  (∀ p, p ∉ mjoin newList → deref (heap st') p = deref (heap st) p).
Proof.
  intros Hnd Hal.
  destruct (install_fold_spec (heap st) newList Hnd Hal)
    as (h & ps & Hfold & Hsg & Hst & Hids & Hpid & Hout).
  unfold install. rewrite Hfold. simpl. unfold blocks. simpl. done.
Qed.

Lemma wf_graph_same_graph (st st' : Machine) :
  wf_graph st → same_graph (heap st) (heap st') →
  allStates st' = allStates st → reachable st' = reachable st →
  wf_graph st'.
Proof.
  intros [Hnd Hal Hcl Hcap Hmk] Hsg Hall Hr.
  constructor; unfold nStates; rewrite ?Hall, ?Hr; try done.
  - intros p Hp. apply (Hsg p). by apply Hal.
  - intros p sym q Hp Hd. rewrite (same_graph_delta _ _ _ _ Hsg) in Hd.
    by eapply Hcl.
Qed.

(** Installing the refinement of a consistent partition set gives a
    consistent partition set. *)
Lemma install_refined_inv (st : Machine) :
  wf_graph st → part_inv st →
  let st' := install (blocks st ≫= refined (heap st)) st in
  wf_graph st' ∧ part_inv st' ∧ same_graph (heap st) (heap st') ∧
  allStates st' = allStates st ∧
  blocks st' = blocks st ≫= refined (heap st).
Proof.
  intros Hwf Hpi.
  set (newList := blocks st ≫= refined (heap st)).
  assert (mjoin newList ≡ₚ allStates st) as Hperm.
  { unfold newList. by rewrite join_bind_refined, (pi_perm _ Hpi). }
  assert (NoDup (mjoin newList)) as Hnd.
  { rewrite Hperm. by apply wf_nodup. }
  assert (∀ p, p ∈ mjoin newList → is_Some (heap st !! p)) as Hal.
  { intros p Hp. rewrite Hperm in Hp. by apply wf_alloc. }
  destruct (install_spec newList st Hnd Hal)
    as (Hsg & Hbl & Hall & Hr & _ & Hids & Hpid & _).
  cbv zeta. split_and!; try done.
  - by apply (wf_graph_same_graph st).
  - constructor.
    + by rewrite Hbl, Hall.
    + rewrite Hbl. apply refined_nonempty.
    + rewrite Hbl. done.
    + done.
    + rewrite Hbl. intros b p q Hb Hp Hq.
      apply list_elem_of_bind in Hb as (b0 & Hb & Hb0).
      rewrite !(same_graph_isFinal _ _ _ Hsg).
      apply (pi_final _ Hpi b0); [done|by eapply refined_subset..].
Qed.

Lemma refine_pass_spec (st : Machine) :
  wf_graph st → part_inv st →
  wf_graph (refine_pass st).1 ∧ part_inv (refine_pass st).1 ∧
  same_graph (heap st) (heap (refine_pass st).1) ∧
  allStates (refine_pass st).1 = allStates st ∧
  nPartitions st ≤ nPartitions (refine_pass st).1 ∧
  ((refine_pass st).2 = true →
   nPartitions st < nPartitions (refine_pass st).1 ∧
   blocks (refine_pass st).1 = blocks st ≫= refined (heap st)) ∧
  ((refine_pass st).2 = false → (refine_pass st).1 = st ∧ stable st).
Proof.
  intros Hwf Hpi. rewrite (refine_pass_unfold st Hwf Hpi). cbv zeta.
  destruct (length_bind_refined (heap st) (blocks st) (pi_nonempty _ Hpi))
    as (_ & Hlt & Heq).
  destruct (existsb _ (blocks st)) eqn:Hex; simpl.
  - destruct (install_refined_inv st Hwf Hpi) as (Hwf' & Hpi' & Hsg & Hall & Hbl).
    assert (nPartitions st < nPartitions (install (blocks st ≫= refined (heap st)) st))
      as Hcount.
    { specialize (Hlt eq_refl). unfold nPartitions.
      replace (length (partitions st)) with (length (blocks st))
        by (unfold blocks; by rewrite length_fmap).
      replace (length (partitions (install _ st)))
        with (length (blocks (install (blocks st ≫= refined (heap st)) st)))
        by (unfold blocks; by rewrite length_fmap).
      by rewrite Hbl. }
    split_and!; try done. lia.
  - split_and!; try done. intros _. split; [done|].
    destruct (Heq eq_refl) as [_ Hone].
    intros b p q Hb Hp Hq. apply (refined_one_stable _ b); [by apply Hone|done..].
Qed.
(** ** initialPartition *)

Lemma separate_fold_spec (h0 : gmap loc State) (l : list loc) :
  ∃ h finalP nonFinalP,
    foldl separate_step (h0, [], []) l = (h, finalP, nonFinalP) ∧
    same_graph h0 h ∧ finalP ++ nonFinalP ≡ₚ l ∧
    (∀ p, p ∈ finalP → isFinal (deref h0 p) = true) ∧
    (∀ p, p ∈ nonFinalP → isFinal (deref h0 p) = false).
Proof.
  cut (let acc := foldl separate_step (h0, [], []) l in
       same_graph h0 acc.1.1 ∧ acc.1.2 ++ acc.2 ≡ₚ l ∧
       (∀ p, p ∈ acc.1.2 → isFinal (deref h0 p) = true) ∧
       (∀ p, p ∈ acc.2 → isFinal (deref h0 p) = false)).
  { destruct (foldl separate_step (h0, [], []) l) as [[h f] nf]. simpl.
    intros H. exists h, f, nf. done. }
  apply (foldl_invariant separate_step
           (λ done acc,
              same_graph h0 acc.1.1 ∧ acc.1.2 ++ acc.2 ≡ₚ done ∧
              (∀ p, p ∈ acc.1.2 → isFinal (deref h0 p) = true) ∧
              (∀ p, p ∈ acc.2 → isFinal (deref h0 p) = false))).
  - simpl. split_and!; [apply same_graph_refl|done| |].
    + intros p Hp. by apply elem_of_nil in Hp.
    + intros p Hp. by apply elem_of_nil in Hp.
  - intros done x rest [[h f] nf] _ (Hsg & Hperm & Hf & Hnf). simpl in *.
    assert (same_graph h0 (alter (set_partitionId (-1)) x h)) as Hsg'.
    { eapply same_graph_trans; [exact Hsg|]. apply same_graph_alter. }
    unfold separate_step.
    rewrite (same_graph_isFinal _ _ x Hsg').
    destruct (isFinal (deref h0 x)) eqn:Hfin; simpl.
    + split_and!; [done| |  |done].
      * rewrite <- Hperm. rewrite <- !app_assoc.
        apply Permutation_app_head. apply Permutation_app_comm.
      * intros p Hp. apply elem_of_app in Hp as [Hp|Hp]; [by apply Hf|].
        by apply list_elem_of_singleton in Hp as ->.
    + split_and!; [done| |done|].
      * by rewrite <- Hperm, app_assoc.
      * intros p Hp. apply elem_of_app in Hp as [Hp|Hp]; [by apply Hnf|].
        by apply list_elem_of_singleton in Hp as ->.
Qed.

Lemma add_group_install (h : gmap loc State) (finalP nonFinalP : list loc) :
  add_group (add_group (h, []) finalP) nonFinalP =
  foldl install_step (h, [])
        ((if bool_decide (0 < length finalP) then [finalP] else []) ++
         (if bool_decide (0 < length nonFinalP) then [nonFinalP] else [])).
Proof.
  unfold add_group at 2.
  destruct (bool_decide (0 < length finalP)); simpl;
    unfold add_group; destruct (bool_decide (0 < length nonFinalP)); done.
Qed.

(** The initial partitions of a well-formed graph: a consistent partition
    set of at most two partitions that separates exactly the final from the
    non-final states. *)
Lemma initialPartition_spec (st : Machine) :
  wf_graph st →
  wf_graph (initialPartition st) ∧ part_inv (initialPartition st) ∧
  same_graph (heap st) (heap (initialPartition st)) ∧
  allStates (initialPartition st) = allStates st ∧
  nPartitions (initialPartition st) ≤ 2 ∧
  (∀ p q, p ∈ allStates st → q ∈ allStates st →
          isFinal (deref (heap st) p) = isFinal (deref (heap st) q) →
          same_partition (initialPartition st) p q).
Proof.
  intros Hwf. unfold initialPartition.
  destruct (separate_fold_spec (heap st) (allStates st))
    as (h & f & nf & -> & Hsg & Hperm & Hf & Hnf).
  rewrite add_group_install.
  set (groups := (if bool_decide (0 < length f) then [f] else []) ++
                 (if bool_decide (0 < length nf) then [nf] else [])).
  assert (mjoin groups = f ++ nf) as Hjoin.
  { unfold groups. destruct f, nf; simpl; by rewrite ?app_nil_r. }
  assert (∀ b, b ∈ groups → b ≠ [] ∧ (b = f ∨ b = nf)) as Hgroups.
  { unfold groups. intros b Hb. apply elem_of_app in Hb as [Hb|Hb].
    - case_bool_decide as Hl; [|by apply elem_of_nil in Hb].
      apply list_elem_of_singleton in Hb as ->. split; [|by left].
      intros ->. simpl in Hl. lia.
    - case_bool_decide as Hl; [|by apply elem_of_nil in Hb].
      apply list_elem_of_singleton in Hb as ->. split; [|by right].
      intros ->. simpl in Hl. lia. }
  assert (NoDup (mjoin groups)) as Hnd.
  { rewrite Hjoin, Hperm. by apply wf_nodup. }
  assert (∀ p, p ∈ mjoin groups → is_Some (h !! p)) as Hal.
  { intros p Hp. rewrite Hjoin, Hperm in Hp. apply (Hsg p). by apply wf_alloc. }
  destruct (install_fold_spec h groups Hnd Hal)
    as (h' & ps & -> & Hsg' & Hst & Hids & Hpid & _).
  assert (same_graph (heap st) h') as Hsg2 by by eapply same_graph_trans.
  simpl. split_and!.
  - by apply (wf_graph_same_graph st).
  - constructor; unfold blocks; simpl; rewrite ?Hst.
    + by rewrite Hjoin.
    + intros b Hb. by apply Hgroups.
    + done.
    + done.
    + intros b p q Hb Hp Hq. rewrite !(same_graph_isFinal _ _ _ Hsg2).
      destruct (Hgroups b Hb) as [_ [->| ->]].
      * by rewrite (Hf p), (Hf q).
      * by rewrite (Hnf p), (Hnf q).
  - done.
  - done.
  - unfold nPartitions. simpl.
    replace (length ps) with (length groups) by (by rewrite <- Hst, length_fmap).
    unfold groups. rewrite length_app.
    destruct (bool_decide (0 < length f)), (bool_decide (0 < length nf)); simpl; lia.
  - intros p q Hp Hq Hfin.
    assert (∀ b x y, b ∈ groups → x ∈ b → y ∈ b →
                     same_partition
                       (set_partitions ps (set_heap h' st)) x y) as Hsame.
    { intros b x y Hb Hx Hy. rewrite <- Hst in Hb.
      apply list_elem_of_fmap in Hb as (P & -> & HP).
      exists P. done. }
    rewrite <- Hperm in Hp, Hq.
    destruct (isFinal (deref (heap st) q)) eqn:Hfq.
    + assert (p ∈ f) as Hpf.
      { apply elem_of_app in Hp as [Hp|Hp]; [done|]. rewrite (Hnf p Hp) in Hfin. done. }
      assert (q ∈ f) as Hqf.
      { apply elem_of_app in Hq as [Hq|Hq]; [done|]. rewrite (Hnf q Hq) in Hfq. done. }
      apply (Hsame f); [|done..]. unfold groups. apply elem_of_app. left.
      rewrite bool_decide_eq_true_2; [apply list_elem_of_here|].
      destruct f; [by apply elem_of_nil in Hpf|simpl; lia].
    + assert (p ∈ nf) as Hpf.
      { apply elem_of_app in Hp as [Hp|Hp]; [|done]. rewrite (Hf p Hp) in Hfin. done. }
      assert (q ∈ nf) as Hqf.
      { apply elem_of_app in Hq as [Hq|Hq]; [|done]. rewrite (Hf q Hq) in Hfq. done. }
      apply (Hsame nf); [|done..]. unfold groups. apply elem_of_app. right.
      rewrite bool_decide_eq_true_2; [apply list_elem_of_here|].
      destruct nf; [by apply elem_of_nil in Hpf|simpl; lia].
Qed.

(** ** Partitions and partition ids *)

Lemma same_partition_blocks (st : Machine) (p q : loc) :
  same_partition st p q ↔ ∃ i b, blocks st !! i = Some b ∧ p ∈ b ∧ q ∈ b.
Proof.
  unfold same_partition, blocks. split.
  - intros (P & HP & Hp & Hq). apply list_elem_of_lookup in HP as [i Hi].
    exists i, (states P). rewrite list_lookup_fmap, Hi. done.
  - intros (i & b & Hi & Hp & Hq). rewrite list_lookup_fmap in Hi.
    destruct (partitions st !! i) as [P|] eqn:E; simplify_eq/=.
    exists P. split; [by eapply list_elem_of_lookup_2|done].
Qed.

Lemma part_inv_block_of (st : Machine) (p : loc) :
  part_inv st → p ∈ allStates st →
  ∃ i b, blocks st !! i = Some b ∧ p ∈ b.
Proof.
  intros Hpi Hp. rewrite <- (pi_perm _ Hpi) in Hp.
  apply list_elem_of_join in Hp as (b & Hp & Hb).
  apply list_elem_of_lookup in Hb as [i Hi]. eauto.
Qed.

Lemma part_inv_block_elem (st : Machine) (b : list loc) (p : loc) :
  part_inv st → b ∈ blocks st → p ∈ b → p ∈ allStates st.
Proof.
  intros Hpi Hb Hp. rewrite <- (pi_perm _ Hpi).
  apply list_elem_of_join. eauto.
Qed.

(** Among the states of the array, equal partition ids mean membership in
    one partition. *)
Lemma same_partition_pid (st : Machine) (p q : loc) :
  part_inv st → p ∈ allStates st → q ∈ allStates st →
  (same_partition st p q ↔
   partitionId (deref (heap st) p) = partitionId (deref (heap st) q)).
Proof.
  intros Hpi Hp Hq. rewrite same_partition_blocks. split.
  - intros (i & b & Hi & Hpb & Hqb).
    by rewrite (pi_pid _ Hpi i b p), (pi_pid _ Hpi i b q).
  - intros Heq.
    destruct (part_inv_block_of st p Hpi Hp) as (i & b & Hi & Hpb).
    destruct (part_inv_block_of st q Hpi Hq) as (j & c & Hj & Hqc).
    rewrite (pi_pid _ Hpi i b p), (pi_pid _ Hpi j c q) in Heq by done.
    assert (i = j) as <- by lia. assert (c = b) as -> by congruence.
    eauto.
Qed.

Lemma target_pid_eq (st : Machine) (p q : loc) (sym : symbol) :
  wf_graph st → part_inv st → p ∈ allStates st → q ∈ allStates st →
  (target_pid (heap st) (next (deref (heap st) p) sym) =
   target_pid (heap st) (next (deref (heap st) q) sym)
   ↔ (delta (heap st) p sym = None ∧ delta (heap st) q sym = None)
     ∨ ∃ p' q', delta (heap st) p sym = Some p' ∧
                delta (heap st) q sym = Some q' ∧ same_partition st p' q').
Proof.
  intros Hwf Hpi Hp Hq. unfold delta.
  assert (∀ x x', x ∈ allStates st → next (deref (heap st) x) sym = Some x' →
                  x' ∈ allStates st ∧
                  (0 ≤ partitionId (deref (heap st) x'))%Z) as Hnn.
  { intros x x' Hx Hn. assert (x' ∈ allStates st) as Hx' by by eapply wf_closed.
    split; [done|].
    destruct (part_inv_block_of st x' Hpi Hx') as (i & b & Hi & Hb).
    rewrite (pi_pid _ Hpi i b x') by done. lia. }
  destruct (next (deref (heap st) p) sym) as [p'|] eqn:Ep;
    destruct (next (deref (heap st) q) sym) as [q'|] eqn:Eq; simpl.
  - destruct (Hnn p p' Hp Ep) as [Hp' _]. destruct (Hnn q q' Hq Eq) as [Hq' _].
    rewrite <- (same_partition_pid st p' q') by done. split.
    + intros H. right. exists p', q'. done.
    + intros [[? _]|(x & y & [= <-] & [= <-] & H)]; done.
  - destruct (Hnn p p' Hp Ep) as [_ Hpos]. split; [lia|].
    intros [[? _]|(x & y & _ & ? & _)]; done.
  - destruct (Hnn q q' Hq Eq) as [_ Hpos]. split; [lia|].
    intros [[_ ?]|(x & y & ? & _ & _)]; done.
  - split; [by left|done].
Qed.

Lemma signature_eq (st : Machine) (p q : loc) :
  wf_graph st → part_inv st → p ∈ allStates st → q ∈ allStates st →
  (signature (heap st) p = signature (heap st) q
   ↔ ∀ sym,
       (delta (heap st) p sym = None ∧ delta (heap st) q sym = None)
       ∨ ∃ p' q', delta (heap st) p sym = Some p' ∧
                  delta (heap st) q sym = Some q' ∧ same_partition st p' q').
Proof.
  intros Hwf Hpi Hp Hq. unfold signature. split.
  - intros [= H0 H1] sym. apply target_pid_eq; [done..|]. by destruct sym.
  - intros H. f_equal; apply target_pid_eq; done.
Qed.

(** ** Behaviour of states *)

Lemma observe_nil (h : gmap loc State) (p : loc) :
  observe h p [] = Some (isFinal (deref h p)).
Proof. done. Qed.

Lemma observe_cons (h : gmap loc State) (p : loc) (a : symbol) (w : list symbol) :
  observe h p (a :: w) =
  match delta h p a with Some q => observe h q w | None => None end.
Proof. unfold observe. simpl. by destruct (delta h p a). Qed.

Lemma same_behaviour_final (h : gmap loc State) (p q : loc) :
  same_behaviour h p q → isFinal (deref h p) = isFinal (deref h q).
Proof. intros H. specialize (H []). rewrite !observe_nil in H. congruence. Qed.

Lemma same_behaviour_step (h : gmap loc State) (p q : loc) (sym : symbol) :
  same_behaviour h p q →
  (delta h p sym = None ∧ delta h q sym = None)
  ∨ ∃ p' q', delta h p sym = Some p' ∧ delta h q sym = Some q' ∧
             same_behaviour h p' q'.
Proof.
  intros H.
  pose proof (H [sym]) as H1. rewrite !observe_cons in H1.
  destruct (delta h p sym) as [p'|] eqn:Ep; destruct (delta h q sym) as [q'|] eqn:Eq;
    try done.
  - right. exists p', q'. split_and!; [done|done|].
    intros w. specialize (H (sym :: w)). by rewrite !observe_cons, Ep, Eq in H.
  - by left.
Qed.

Lemma same_behaviour_same_graph (h h' : gmap loc State) (p q : loc) :
  same_graph h h' → same_behaviour h' p q ↔ same_behaviour h p q.
Proof.
  intros Hsg. unfold same_behaviour.
  split; intros H w; specialize (H w);
    by rewrite !(same_graph_observe _ _ _ _ Hsg) in *.
Qed.

Lemma same_behaviour_language (h : gmap loc State) (p q : loc) :
  same_behaviour h p q → same_language h p q.
Proof.
  intros H w. specialize (H w). unfold observe, accepts in *.
  destruct (run h p w), (run h q w); simplify_eq/=; done.
Qed.

(** States that a stable partition set keeps together have the same
    behaviour. *)
Lemma stable_same_behaviour (st : Machine) (p q : loc) :
  wf_graph st → part_inv st → stable st →
  same_partition st p q → same_behaviour (heap st) p q.
Proof.
  intros Hwf Hpi Hst Hsame w. revert p q Hsame.
  induction w as [|a w IH]; intros p q (P & HP & Hp & Hq).
  - rewrite !observe_nil. f_equal.
    apply (pi_final _ Hpi (states P)); [|done..].
    unfold blocks. apply list_elem_of_fmap. eauto.
  - assert (states P ∈ blocks st) as Hb.
    { unfold blocks. apply list_elem_of_fmap. eauto. }
    pose proof (Hst _ p q Hb Hp Hq) as Hsig.
    assert (p ∈ allStates st) as Hpa by by eapply part_inv_block_elem.
    assert (q ∈ allStates st) as Hqa by by eapply part_inv_block_elem.
    pose proof (proj1 (signature_eq st p q Hwf Hpi Hpa Hqa) Hsig) as Hsig'.
    clear Hsig. rename Hsig' into Hsig.
    rewrite !observe_cons.
    destruct (Hsig a) as [[-> ->]|(p' & q' & -> & -> & Hs)]; [done|].
    by apply IH.
Qed.

(** ** Equal behaviour is never separated *)

Lemma coarse_initialPartition (st : Machine) :
  wf_graph st → coarse (initialPartition st).
Proof.
  intros Hwf p q Hp Hq Hb.
  destruct (initialPartition_spec st Hwf) as (_ & _ & Hsg & Hall & _ & Hfin).
  rewrite Hall in Hp, Hq. apply Hfin; [done..|].
  apply same_behaviour_final. by apply (same_behaviour_same_graph _ _ _ _ Hsg).
Qed.

Lemma coarse_refine_pass (st : Machine) :
  wf_graph st → part_inv st → coarse st → coarse (refine_pass st).1.
Proof.
  intros Hwf Hpi Hco.
  destruct (refine_pass_spec st Hwf Hpi) as (Hwf' & Hpi' & Hsg & Hall & _ & Ht & Hf).
  destruct (refine_pass st).2 eqn:Hc.
  - destruct (Ht eq_refl) as [_ Hbl]. clear Ht Hf.
    intros p q Hp Hq Hb. rewrite Hall in Hp, Hq.
    apply (same_behaviour_same_graph _ _ _ _ Hsg) in Hb.
    destruct (Hco p q Hp Hq Hb) as (P & HP & Hpb & Hqb).
    assert (signature (heap st) p = signature (heap st) q) as Hsig.
    { apply signature_eq; [done..|]. intros sym.
      destruct (same_behaviour_step _ _ _ sym Hb)
        as [?|(p' & q' & Hp' & Hq' & Hb')]; [by left|].
      right. exists p', q'. split_and!; [done..|].
      apply Hco; [by apply (wf_closed _ Hwf p sym p')
                 |by apply (wf_closed _ Hwf q sym q')|done]. }
    apply (refined_same_block (heap st) (states P) p q Hpb Hqb) in Hsig
      as (s & Hs & Hps & Hqs).
    apply same_partition_blocks.
    assert (s ∈ blocks (refine_pass st).1) as Hin.
    { rewrite Hbl. apply list_elem_of_bind. exists (states P). split; [done|].
      unfold blocks. apply list_elem_of_fmap. eauto. }
    apply list_elem_of_lookup in Hin as [i Hi]. eauto.
  - destruct (Hf eq_refl) as [-> _]. done.
Qed.

(** ** refineAllPartitions *)

(** Whatever [refineAllPartitions] returns is a consistent, stable partition
    set of the same automaton. *)
Lemma refineAllPartitions_result (fuel : nat) (st st' : Machine) :
  wf_graph st → part_inv st →
  refineAllPartitions fuel st = Some st' →
  wf_graph st' ∧ part_inv st' ∧ stable st' ∧
  same_graph (heap st) (heap st') ∧ allStates st' = allStates st ∧
  nPartitions st ≤ nPartitions st' ∧
  (coarse st → coarse st').
Proof.
  revert st. induction fuel as [|fuel IH]; intros st Hwf Hpi Hrun; [done|].
  simpl in Hrun.
  destruct (refine_pass_spec st Hwf Hpi) as (Hwf1 & Hpi1 & Hsg1 & Hall1 & Hle & Ht & Hf).
  pose proof (coarse_refine_pass st Hwf Hpi) as Hco1.
  destruct (refine_pass st) as [st1 c]. simpl in *.
  destruct c.
  - destruct (IH st1 Hwf1 Hpi1 Hrun) as (Hwf' & Hpi' & Hst & Hsg & Hall & Hle' & Hco).
    split_and!; try done.
    + by eapply same_graph_trans.
    + congruence.
    + lia.
    + auto.
  - injection Hrun as <-. destruct (Hf eq_refl) as [-> Hst].
    split_and!; done.
Qed.

(** The loop ends: every pass but the last adds a partition, and there are
    never more partitions than states. *)
Lemma refineAllPartitions_terminates (fuel : nat) (st : Machine) :
  wf_graph st → part_inv st →
  nStates st - nPartitions st < fuel →
  is_Some (refineAllPartitions fuel st).
Proof.
  revert st. induction fuel as [|fuel IH]; intros st Hwf Hpi Hfuel; [lia|].
  simpl.
  destruct (refine_pass_spec st Hwf Hpi) as (Hwf1 & Hpi1 & Hsg1 & Hall1 & Hle & Ht & Hf).
  destruct (refine_pass st) as [st1 c]. simpl in *.
  destruct c; [|done].
  apply IH; [done..|].
  destruct (Ht eq_refl) as [Hlt _].
  pose proof (part_inv_block_count st1 Hwf1 Hpi1) as Hcnt.
  unfold nStates in *. rewrite Hall1 in *. lia.
Qed.

(** The partition set that [refineAllPartitions] returns is a fixpoint of
    the pass: one more pass reports no change and leaves it as it is. *)
Lemma refineAllPartitions_fixpoint (fuel : nat) (st st' : Machine) :
  wf_graph st → part_inv st →
  refineAllPartitions fuel st = Some st' →
  refine_pass st' = (st', false).
Proof.
  revert st. induction fuel as [|fuel IH]; intros st Hwf Hpi Hrun; [done|].
  simpl in Hrun.
  destruct (refine_pass_spec st Hwf Hpi) as (Hwf1 & Hpi1 & _ & _ & _ & _ & Hf).
  destruct (refine_pass st) as [st1 c] eqn:Epass. simpl in *.
  destruct c.
  - by apply (IH st1).
  - injection Hrun as <-. destruct (Hf eq_refl) as [-> _]. done.
Qed.

(** On every well-formed graph, empty or not, the loop ends within
    [nStates + 1] passes. *)
Lemma refineAllPartitions_total (st : Machine) :
  wf_graph st →
  is_Some (refineAllPartitions (S (nStates st)) (initialPartition st)).
Proof.
  intros Hwf.
  destruct (initialPartition_spec st Hwf) as (Hwf1 & Hpi1 & _ & Hall & _).
  apply refineAllPartitions_terminates; [done..|].
  unfold nStates. rewrite Hall. lia.
Qed.

(** A graph with a state has an initial partition. *)
Lemma initialPartition_nonempty (st : Machine) (p : loc) :
  wf_graph st → p ∈ allStates st → 0 < nPartitions (initialPartition st).
Proof.
  intros Hwf Hp.
  destruct (initialPartition_spec st Hwf) as (_ & Hpi & _ & Hall & _).
  unfold nPartitions.
  destruct (partitions (initialPartition st)) as [|P ps] eqn:E; [|simpl; lia].
  exfalso. pose proof (pi_perm _ Hpi) as Hperm. unfold blocks in Hperm.
  rewrite E, Hall in Hperm. simpl in Hperm.
  apply Permutation_nil_l in Hperm. rewrite <- Hperm in Hp.
  by apply elem_of_nil in Hp.
Qed.

Lemma elem_of_nStates_pos (st : Machine) (p : loc) :
  p ∈ allStates st → 0 < nStates st.
Proof.
  unfold nStates. destruct (allStates st); [intros H; by apply elem_of_nil in H|].
  simpl. lia.
Qed.
(** ** More fuel does not change a result *)

Lemma propagate_mono (fuel fuel' : nat) (st : Machine) (r r' : list bool) :
  propagate fuel st r = Some r' → fuel ≤ fuel' → propagate fuel' st r = Some r'.
Proof.
  revert fuel' r. induction fuel as [|fuel IH]; intros fuel' r H Hle; [done|].
  destruct fuel' as [|fuel']; [lia|]. simpl in *.
  destruct (sweep st r) as [r1 c]. destruct c; [|done].
  apply IH; [done|lia].
Qed.

Lemma markReachable_mono (fuel fuel' : nat) (startNode : option loc)
    (st st' : Machine) :
  markReachable fuel startNode st = Some st' → fuel ≤ fuel' →
  markReachable fuel' startNode st = Some st'.
Proof.
  unfold markReachable. intros H Hle. destruct startNode as [start|]; [|done].
  destruct (match getStateIndexByPtr (Some start) _ with
            | Some i => Some i | None => _ end) as [si|]; [|done].
  destruct (propagate fuel _ _) as [r|] eqn:E; [|done].
  by rewrite (propagate_mono _ _ _ _ _ E Hle).
Qed.

Lemma removeUnreachable_mono (fuel fuel' : nat) (startNode : option loc)
    (st st' : Machine) :
  removeUnreachable fuel startNode st = Some st' → fuel ≤ fuel' →
  removeUnreachable fuel' startNode st = Some st'.
Proof.
  intros H Hle.
  destruct (markReachable fuel startNode st) as [st1|] eqn:E.
  - rewrite (removeUnreachable_unfold _ _ _ _ E) in H.
    by rewrite (removeUnreachable_unfold _ _ _ _ (markReachable_mono _ _ _ _ _ E Hle)).
  - unfold removeUnreachable in H. by rewrite E in H.
Qed.

Lemma refineAllPartitions_mono (fuel fuel' : nat) (st st' : Machine) :
  refineAllPartitions fuel st = Some st' → fuel ≤ fuel' →
  refineAllPartitions fuel' st = Some st'.
Proof.
  revert fuel' st. induction fuel as [|fuel IH]; intros fuel' st H Hle; [done|].
  destruct fuel' as [|fuel']; [lia|]. simpl in *.
  destruct (refine_pass st) as [st1 c]. destruct c; [|done].
  apply IH; [done|lia].
Qed.

(** ** The pruned graph *)

(** Whatever fuel made [removeUnreachable] return, the result is the one
    described by [removeUnreachable_result]. *)
Lemma removeUnreachable_any_fuel (fuel : nat) (start : loc) (st st' : Machine) :
  wf_graph st → start ∈ allStates st →
  removeUnreachable fuel (Some start) st = Some st' →
  removeUnreachable (Nat.max fuel (nStates st)) (Some start) st = Some st' ∧
  wf_graph st' ∧ start ∈ allStates st' ∧
  allStates st' `sublist_of` allStates st ∧
  (∀ p, p ∈ allStates st' ↔
        p ∈ allStates st ∧ reachable_from (heap st) start p) ∧
  (∀ p, p ∈ allStates st' →
        (∀ sym, delta (heap st') p sym = delta (heap st) p sym) ∧
        isFinal (deref (heap st') p) = isFinal (deref (heap st) p) ∧
        name (deref (heap st') p) = name (deref (heap st) p)).
Proof.
  intros Hwf Hstart Hrun.
  assert (nStates st ≤ Nat.max fuel (nStates st)) as Hfuel by lia.
  assert (removeUnreachable (Nat.max fuel (nStates st)) (Some start) st = Some st')
    as Hrun' by (eapply removeUnreachable_mono; [done|lia]).
  destruct (removeUnreachable_result _ start st Hwf Hstart Hfuel)
    as (st2 & Hrun2 & Hsub & Hmem & _).
  rewrite Hrun' in Hrun2. injection Hrun2 as <-.
  split_and!; try done.
  - by eapply removeUnreachable_wf.
  - apply Hmem. split; [done|apply reachable_from_refl].
  - by eapply removeUnreachable_graph.
Qed.

(** Runs from surviving states are the runs of the original graph. *)
Lemma pruned_run (st st' : Machine) (p : loc) (w : list symbol) :
  wf_graph st' →
  (∀ p, p ∈ allStates st' → ∀ sym, delta (heap st') p sym = delta (heap st) p sym) →
  p ∈ allStates st' → run (heap st') p w = run (heap st) p w.
Proof.
  intros Hwf Hd. revert p. induction w as [|a w IH]; intros p Hp; simpl; [done|].
  rewrite <- (Hd p Hp a).
  destruct (delta (heap st') p a) as [q|] eqn:E; [|done].
  apply IH. by eapply wf_closed.
Qed.

Lemma pruned_observe (st st' : Machine) (p : loc) (w : list symbol) :
  wf_graph st' →
  (∀ p, p ∈ allStates st' →
        (∀ sym, delta (heap st') p sym = delta (heap st) p sym) ∧
        isFinal (deref (heap st') p) = isFinal (deref (heap st) p) ∧
        name (deref (heap st') p) = name (deref (heap st) p)) →
  p ∈ allStates st' → observe (heap st') p w = observe (heap st) p w.
Proof.
  intros Hwf Hg Hp. unfold observe.
  rewrite <- (pruned_run st st' p w Hwf (λ q Hq, proj1 (Hg q Hq)) Hp).
  destruct (run (heap st') p w) as [q|] eqn:E; simpl; [|done].
  f_equal. apply Hg. by eapply run_in_graph.
Qed.

(** ** The pipeline *)

Lemma pipeline_unfold (fuel : nat) (start : option loc) (st st' : Machine)
    (rows : list Row) :
  pipeline fuel start st = Some (st', rows) ↔
  ∃ st1, removeUnreachable fuel start st = Some st1 ∧
         refineAllPartitions fuel (initialPartition st1) = Some st' ∧
         rows = printMinimizedDFA st'.
Proof.
  unfold pipeline. split.
  - intros H. destruct (removeUnreachable fuel start st) as [st1|]; [|done].
    simpl in H.
    destruct (refineAllPartitions fuel (initialPartition st1)) as [st2|] eqn:E;
      [|done].
    simpl in H. injection H as <- <-. eauto.
  - intros (st1 & -> & H & ->). simpl. by rewrite H.
Qed.

(** With enough fuel the pipeline returns. *)
Lemma pipeline_terminates (fuel : nat) (start : loc) (st : Machine) :
  wf_graph st → start ∈ allStates st → nStates st ≤ fuel →
  is_Some (pipeline fuel (Some start) st).
Proof.
  intros Hwf Hstart Hfuel.
  destruct (removeUnreachable_result fuel start st Hwf Hstart Hfuel)
    as (st1 & Hrun & Hsub & _).
  destruct (removeUnreachable_any_fuel fuel start st st1 Hwf Hstart Hrun)
    as (_ & Hwf1 & Hstart1 & _).
  destruct (initialPartition_spec st1 Hwf1) as (Hwf2 & Hpi2 & _ & Hall2 & _).
  pose proof (initialPartition_nonempty st1 start Hwf1 Hstart1) as Hpos.
  destruct (refineAllPartitions_terminates fuel (initialPartition st1) Hwf2 Hpi2)
    as [st2 Hst2].
  { pose proof (sublist_length _ _ Hsub).
    pose proof (elem_of_nStates_pos st start Hstart) as Hn.
    unfold nStates in *. rewrite Hall2. lia. }
  exists (st2, printMinimizedDFA st2). apply pipeline_unfold. eauto.
Qed.

(** What the pipeline returns. *)
Lemma pipeline_result (fuel : nat) (start : loc) (st st' : Machine)
    (rows : list Row) :
  wf_graph st → start ∈ allStates st →
  pipeline fuel (Some start) st = Some (st', rows) →
  wf_graph st' ∧ part_inv st' ∧ stable st' ∧ coarse st' ∧
  (∀ p, p ∈ allStates st' ↔
        p ∈ allStates st ∧ reachable_from (heap st) start p) ∧
  allStates st' `sublist_of` allStates st ∧
  (∀ p w, p ∈ allStates st' → observe (heap st') p w = observe (heap st) p w) ∧
  rows = printMinimizedDFA st'.
Proof.
  intros Hwf Hstart Hrun.
  apply pipeline_unfold in Hrun as (st1 & Hrun1 & Hrun2 & ->).
  destruct (removeUnreachable_any_fuel fuel start st st1 Hwf Hstart Hrun1)
    as (_ & Hwf1 & Hstart1 & Hsub & Hmem & Hg).
  destruct (initialPartition_spec st1 Hwf1) as (Hwf2 & Hpi2 & Hsg2 & Hall2 & _).
  destruct (refineAllPartitions_result fuel _ st' Hwf2 Hpi2 Hrun2)
    as (Hwf' & Hpi' & Hst & Hsg & Hall & _ & Hco).
  split_and!; try done.
  - apply Hco. by apply coarse_initialPartition.
  - intros p. by rewrite Hall, Hall2.
  - by rewrite Hall, Hall2.
  - intros p w Hp. rewrite Hall, Hall2 in Hp.
    rewrite (same_graph_observe _ _ _ _ Hsg), (same_graph_observe _ _ _ _ Hsg2).
    by apply pruned_observe.
Qed.
(** ** Checking well-formedness by computation *)

Lemma wf_check_sound (st : Machine) : wf_check st = true → wf_graph st.
Proof.
  unfold wf_check. rewrite !andb_true_iff.
  intros [[[Hnd Hall] Hcap] Hmk].
  apply bool_decide_eq_true in Hnd, Hcap, Hmk.
  rewrite forallb_forall in Hall.
  constructor; try done.
  - intros p Hp. apply list_elem_of_In in Hp. apply Hall in Hp.
    apply andb_true_iff in Hp as [Hp _]. by apply bool_decide_eq_true in Hp.
  - intros p sym q Hp Hd. apply list_elem_of_In in Hp. apply Hall in Hp.
    apply andb_true_iff in Hp as [_ Hp]. rewrite forallb_forall in Hp.
    assert (In sym alphabet) as Hsym by (destruct sym; simpl; auto).
    apply Hp in Hsym. rewrite Hd in Hsym. by apply bool_decide_eq_true in Hsym.
Qed.

Lemma dfa2_machine_wf : wf_graph dfa2_machine.
Proof. apply wf_check_sound. vm_compute. reflexivity. Qed.

Lemma partial_dfa_wf : wf_graph partial_dfa.
Proof. apply wf_check_sound. vm_compute. reflexivity. Qed.

Lemma minimal_dfa_wf : wf_graph minimal_dfa.
Proof. apply wf_check_sound. vm_compute. reflexivity. Qed.

Lemma full_machine_wf : wf_graph full_machine.
Proof. apply wf_check_sound. vm_compute. reflexivity. Qed.

(** Case analysis on the membership of [x] in an explicit list. *)
Ltac elem_of_cases H :=
  repeat (apply elem_of_cons in H as [H|H]; [try discriminate H|]);
  try (by apply elem_of_nil in H).

(** * The claims *)

(** ** createState *)

(** C10. The display name stored by [createState] is the supplied name cut
    after its first three characters: it is a prefix of the supplied name of
    length at most three, and equal to it when the supplied name is that
    short.  Longer names are truncated silently, so that the distinct names
    "q100" and "q101" give two states with the same display name "q10". *)
Theorem createState_name_truncated :
  (∀ (malloc : gmap loc State → option loc) (nm : string) (fin : bool)
     (st st' : Machine) (s : loc),
     createState malloc nm fin st = Returned (s, st') →
     name (deref (heap st') s) = substring 0 3 nm ∧
     String.length (name (deref (heap st') s)) ≤ 3 ∧
     (∃ rest, nm = name (deref (heap st') s) +:+ rest) ∧
     (String.length nm ≤ 3 → name (deref (heap st') s) = nm)) ∧
  (∃ (nm1 nm2 : string) (s1 s2 : loc) (st1 st2 : Machine),
     nm1 ≠ nm2 ∧ 3 < String.length nm1 ∧ 3 < String.length nm2 ∧
     createState bump_malloc nm1 false initial_machine = Returned (s1, st1) ∧
     createState bump_malloc nm2 false st1 = Returned (s2, st2) ∧
     s1 ≠ s2 ∧
     name (deref (heap st2) s1) = name (deref (heap st2) s2)).
Proof.
  split.
  - intros malloc nm fin st st' s Hc.
    apply createState_returned in Hc as (_ & _ & Hh & _).
    unfold deref. rewrite Hh, lookup_total_insert_eq. simpl.
    change (substring 0 3 nm) with (snprintf_s 4 nm).
    split_and!.
    + done.
    + apply (snprintf_s_length 4).
    + apply snprintf_s_prefix.
    + intros Hlen. by apply snprintf_s_short.
  - exists "q100", "q101", 1%positive, 2%positive.
    eexists. eexists. split_and!; [done|simpl; lia|simpl; lia| | |done|].
    + vm_compute. reflexivity.
    + vm_compute. reflexivity.
    + vm_compute. reflexivity.
Qed.

Lemma createState_name_truncated_witness :
  name (deref (heap (machine_of (createState bump_malloc "q100" false initial_machine)))
              1%positive) = "q10".
Proof.
  apply (proj1 createState_name_truncated bump_malloc "q100" false
               initial_machine _ 1%positive).
  vm_compute. reflexivity.
Defined.

(** C5, as the program has it.  When the state array is full, [createState]
    writes "Error: MAX_STATES exceeded" to the error stream and ends the
    process with [exit(EXIT_FAILURE)]; the graph it leaves behind is the graph
    it found. *)
Theorem createState_capacity_exit (malloc : gmap loc State → option loc)
    (nm : string) (fin : bool) (st : Machine) :
  MAX_STATES ≤ nStates st →
  ∃ final,
    createState malloc nm fin st = Exited EXIT_FAILURE final ∧
    stderr final = stderr st ++ ["Error: MAX_STATES exceeded"] ∧
    heap final = heap st ∧ allStates final = allStates st ∧
    partitions final = partitions st.
Proof.
  intros Hfull. unfold createState. rewrite decide_True by done.
  eexists. split; [done|]. done.
Qed.

Lemma createState_capacity_exit_witness :
  ∃ final,
    createState bump_malloc "q" false full_machine = Exited EXIT_FAILURE final ∧
    stderr final = stderr full_machine ++ ["Error: MAX_STATES exceeded"] ∧
    heap final = heap full_machine ∧ allStates final = allStates full_machine ∧
    partitions final = partitions full_machine.
Proof.
  apply (createState_capacity_exit bump_malloc "q" false full_machine).
  apply Nat.leb_le. vm_compute. reflexivity.
Defined.

(** C5, counterexample to the claim as stated: on a full state array the call
    does not return at all, with an error result or otherwise; it ends the
    process. *)
Lemma createState_full_aborts :
  nStates full_machine = MAX_STATES ∧
  (∀ r, createState bump_malloc "q" false full_machine ≠ Returned r) ∧
  createState bump_malloc "q" false full_machine =
  Exited EXIT_FAILURE (fprintf_stderr "Error: MAX_STATES exceeded" full_machine).
Proof.
  assert (createState bump_malloc "q" false full_machine =
          Exited EXIT_FAILURE
                 (fprintf_stderr "Error: MAX_STATES exceeded" full_machine)) as H.
  { unfold createState. rewrite decide_True; [done|].
    apply Nat.leb_le. vm_compute. reflexivity. }
  split_and!; [vm_compute; reflexivity| |done].
  intros r. rewrite H. discriminate.
Qed.

(** ** Pruning *)

(** C4, as the program has it.  When the start state is not in the state
    array, [markReachable] writes its not-found message to the error stream,
    marks no state reachable, leaves the states and the state array as they
    are, and returns. *)
Theorem markReachable_missing_start (fuel : nat) (start : loc) (st : Machine) :
  start ∉ allStates st →
  ∃ st1,
    markReachable fuel (Some start) st = Some st1 ∧
    stderr st1 =
      stderr st ++
      ["Error: Start node not found in allStates during markReachable."] ∧
    heap st1 = heap st ∧ allStates st1 = allStates st ∧
    partitions st1 = partitions st ∧
    ∀ i, i < nStates st → is_marked (reachable st1) i = false.
Proof.
  intros Hnin. rewrite (markReachable_absent fuel start st Hnin).
  eexists. split; [done|]. simpl. split_and!; try done.
  intros i Hi. by apply clear_marks_lt.
Qed.

Lemma markReachable_missing_start_witness :
  ∃ st1,
    markReachable 0 (Some 9%positive) dfa2_machine = Some st1 ∧
    stderr st1 =
      stderr dfa2_machine ++
      ["Error: Start node not found in allStates during markReachable."] ∧
    heap st1 = heap dfa2_machine ∧ allStates st1 = allStates dfa2_machine ∧
    partitions st1 = partitions dfa2_machine ∧
    ∀ i, i < nStates dfa2_machine → is_marked (reachable st1) i = false.
Proof.
  apply (markReachable_missing_start 0 9%positive dfa2_machine).
  vm_compute. intros H. elem_of_cases H.
Defined.

(** C4, counterexample to the claim as stated: with a start state that is
    not in the graph, pruning returns normally, without an error result, and
    the graph is not left intact: all four states of the example are gone.
    The pipeline then goes on and prints an empty table. *)
Lemma removeUnreachable_missing_start_empties :
  (9%positive ∉ allStates dfa2_machine) ∧
  allStates dfa2_machine = ([1; 2; 3; 4]%positive : list loc) ∧
  (∃ st', removeUnreachable 0 (Some 9%positive) dfa2_machine = Some st' ∧
          allStates st' = [] ∧ heap st' = ∅) ∧
  (∃ st'', pipeline 1 (Some 9%positive) dfa2_machine = Some (st'', []) ∧
           partitions st'' = []).
Proof.
  split_and!.
  - vm_compute. intros H. elem_of_cases H.
  - vm_compute. reflexivity.
  - eexists. split_and!; [vm_compute; reflexivity|reflexivity|reflexivity].
  - eexists. split; [vm_compute; reflexivity|reflexivity].
Qed.

(** C3.  On a well-formed graph whose start state is in the state array,
    [removeUnreachable] returns (within [nStates] sweeps) and
    - keeps exactly the states reachable from the start state, in their
      original relative order;
    - frees every other state;
    - gives the survivors the ids 0, 1, 2, ... in array order;
    - leaves a transition of a survivor in place when its target survives
      and sets it to NULL when its target was removed;
    - does not touch names and final flags. *)
Theorem removeUnreachable_keeps_reachable (fuel : nat) (start : loc)
    (st : Machine) :
  wf_graph st → start ∈ allStates st → nStates st ≤ fuel →
  ∃ st',
    removeUnreachable fuel (Some start) st = Some st' ∧
    (∀ p, p ∈ allStates st' ↔
          p ∈ allStates st ∧ reachable_from (heap st) start p) ∧
    allStates st' `sublist_of` allStates st ∧
    (∀ p, p ∈ allStates st → ¬ reachable_from (heap st) start p →
          heap st' !! p = None) ∧
    (∀ i p, allStates st' !! i = Some p →
            id (deref (heap st') p) = Z.of_nat i) ∧
    (∀ p sym, p ∈ allStates st' →
              delta (heap st') p sym =
              match delta (heap st) p sym with
              | Some q => if decide (q ∈ allStates st') then Some q else None
              | None => None
              end) ∧
    (∀ p, p ∈ allStates st' →
          name (deref (heap st') p) = name (deref (heap st) p) ∧
          isFinal (deref (heap st') p) = isFinal (deref (heap st) p)).
Proof.
  intros Hwf Hstart Hfuel.
  destruct (removeUnreachable_result fuel start st Hwf Hstart Hfuel)
    as (st' & Hrun & Hsub & Hmem & Hid & Hfree & _).
  pose proof (removeUnreachable_graph fuel start st st' Hwf Hstart Hfuel Hrun) as Hg.
  exists st'. split_and!; try done.
  - intros i p Hi.
    assert (p ∈ allStates st) as Hp.
    { eapply elem_of_sublist; [|done]. by eapply list_elem_of_lookup_2. }
    by rewrite (deref_lookup_fmap _ _ _ _ (Hid i p Hi) (wf_alloc _ Hwf _ Hp)).
  - intros p sym Hp. destruct (Hg p Hp) as (Hd & _ & _). rewrite Hd.
    destruct (delta (heap st) p sym) as [q|] eqn:E; [|done].
    rewrite decide_True; [done|].
    apply Hmem. apply Hmem in Hp as [Hp Hr].
    split; [by eapply wf_closed|by eapply reachable_from_step].
  - intros p Hp. destruct (Hg p Hp) as (_ & Hf & Hn). done.
Qed.

Lemma removeUnreachable_keeps_reachable_witness :
  ∃ st',
    removeUnreachable 4 (Some 1%positive) dfa2_machine = Some st' ∧
    (∀ p, p ∈ allStates st' ↔
          p ∈ allStates dfa2_machine ∧
          reachable_from (heap dfa2_machine) 1%positive p) ∧
    allStates st' `sublist_of` allStates dfa2_machine ∧
    (∀ p, p ∈ allStates dfa2_machine →
          ¬ reachable_from (heap dfa2_machine) 1%positive p →
          heap st' !! p = None) ∧
    (∀ i p, allStates st' !! i = Some p →
            id (deref (heap st') p) = Z.of_nat i) ∧
    (∀ p sym, p ∈ allStates st' →
              delta (heap st') p sym =
              match delta (heap dfa2_machine) p sym with
              | Some q => if decide (q ∈ allStates st') then Some q else None
              | None => None
              end) ∧
    (∀ p, p ∈ allStates st' →
          name (deref (heap st') p) = name (deref (heap dfa2_machine) p) ∧
          isFinal (deref (heap st') p) = isFinal (deref (heap dfa2_machine) p)).
Proof.
  apply (removeUnreachable_keeps_reachable 4 1%positive dfa2_machine).
  - apply wf_check_sound. vm_compute. reflexivity.
  - vm_compute. apply list_elem_of_here.
  - apply Nat.leb_le. vm_compute. reflexivity.
Defined.

(** ** Refinement *)

Lemma after_passes_inv (k : nat) (st : Machine) :
  wf_graph st → part_inv st →
  wf_graph (after_passes k st) ∧ part_inv (after_passes k st) ∧
  same_graph (heap st) (heap (after_passes k st)) ∧
  allStates (after_passes k st) = allStates st.
Proof.
  intros Hwf Hpi. induction k as [|k (Hwf' & Hpi' & Hsg & Hall)].
  - split_and!; done.
  - unfold after_passes in *. simpl.
    destruct (refine_pass_spec _ Hwf' Hpi') as (Hwf1 & Hpi1 & Hsg1 & Hall1 & _).
    split_and!; [done|done|by eapply same_graph_trans|congruence].
Qed.

(** C6.  When [refineAllPartitions] returns, the partition set is a fixpoint
    of the pass, and any two states of one partition agree on every symbol:
    either both lack the transition, or both have it and the two targets lie
    in one partition. *)
Theorem refine_fixpoint_stable (fuel : nat) (st0 st' : Machine) :
  wf_graph st0 →
  refineAllPartitions fuel (initialPartition st0) = Some st' →
  refine_pass st' = (st', false) ∧
  ∀ P p q sym,
    P ∈ partitions st' → p ∈ states P → q ∈ states P →
    (delta (heap st') p sym = None ∧ delta (heap st') q sym = None)
    ∨ ∃ p' q', delta (heap st') p sym = Some p' ∧
               delta (heap st') q sym = Some q' ∧
               same_partition st' p' q'.
Proof.
  intros Hwf Hrun.
  destruct (initialPartition_spec st0 Hwf) as (Hwf1 & Hpi1 & _).
  split; [by apply (refineAllPartitions_fixpoint fuel (initialPartition st0))|].
  intros P p q sym HP Hp Hq.
  destruct (refineAllPartitions_result fuel _ st' Hwf1 Hpi1 Hrun)
    as (Hwf' & Hpi' & Hst & _).
  assert (states P ∈ blocks st') as Hb.
  { unfold blocks. apply list_elem_of_fmap. eauto. }
  apply (signature_eq st' p q Hwf' Hpi');
    [by eapply part_inv_block_elem..|].
  by apply (Hst (states P)).
Qed.

Lemma refine_fixpoint_stable_witness :
  refine_pass (initialPartition dfa2_pruned) = (initialPartition dfa2_pruned, false) ∧
  ((delta (heap (initialPartition dfa2_pruned)) 2%positive Sym0 = None ∧
    delta (heap (initialPartition dfa2_pruned)) 3%positive Sym0 = None)
   ∨ ∃ p' q',
       delta (heap (initialPartition dfa2_pruned)) 2%positive Sym0 = Some p' ∧
       delta (heap (initialPartition dfa2_pruned)) 3%positive Sym0 = Some q' ∧
       same_partition (initialPartition dfa2_pruned) p' q').
Proof.
  destruct (refine_fixpoint_stable 1 dfa2_pruned (initialPartition dfa2_pruned)
              (wf_check_sound dfa2_pruned eq_refl) eq_refl) as [Hfix Hstable].
  split; [exact Hfix|].
  apply (Hstable (mkPartition [2%positive; 3%positive] 0 "{q2,q3}")).
  - vm_compute. apply list_elem_of_here.
  - simpl. apply list_elem_of_here.
  - simpl. apply list_elem_of_further, list_elem_of_here.
Defined.

(** C7.  On the graph left by pruning from a start state of the array, the
    number of partitions never decreases from one pass to the next and never
    exceeds the number of states, which are the reachable states; and
    [refineAllPartitions] returns within [nStates] passes. *)
Theorem refinement_passes_bounded (fuel : nat) (start : loc) (st st1 : Machine) :
  wf_graph st → start ∈ allStates st →
  removeUnreachable fuel (Some start) st = Some st1 →
  (∀ k, nPartitions (after_passes k (initialPartition st1))
        ≤ nPartitions (after_passes (S k) (initialPartition st1)) ∧
        nPartitions (after_passes (S k) (initialPartition st1)) ≤ nStates st1) ∧
  nPartitions (initialPartition st1) ≤ nStates st1 ∧
  (∀ p, p ∈ allStates st1 ↔
        p ∈ allStates st ∧ reachable_from (heap st) start p) ∧
  is_Some (refineAllPartitions (nStates st1) (initialPartition st1)).
Proof.
  intros Hwf Hstart Hrun.
  destruct (removeUnreachable_any_fuel fuel start st st1 Hwf Hstart Hrun)
    as (_ & Hwf1 & Hstart1 & _ & Hmem & _).
  destruct (initialPartition_spec st1 Hwf1) as (Hwf2 & Hpi2 & _ & Hall2 & _).
  assert (∀ k, nPartitions (after_passes k (initialPartition st1)) ≤ nStates st1)
    as Hbound.
  { intros k.
    destruct (after_passes_inv k _ Hwf2 Hpi2) as (Hwfk & Hpik & _ & Hallk).
    pose proof (part_inv_block_count _ Hwfk Hpik) as Hc.
    unfold nStates in *. by rewrite Hallk, Hall2 in Hc. }
  split_and!.
  - intros k. split; [|apply Hbound].
    destruct (after_passes_inv k _ Hwf2 Hpi2) as (Hwfk & Hpik & _).
    destruct (refine_pass_spec _ Hwfk Hpik) as (_ & _ & _ & _ & Hle & _).
    exact Hle.
  - apply (Hbound 0).
  - done.
  - apply refineAllPartitions_terminates; [done..|].
    pose proof (initialPartition_nonempty st1 start Hwf1 Hstart1) as Hpos.
    pose proof (elem_of_nStates_pos st1 start Hstart1) as Hn.
    unfold nStates in *. rewrite Hall2. lia.
Qed.

Lemma refinement_passes_bounded_witness :
  (∀ k, nPartitions (after_passes k (initialPartition dfa2_pruned))
        ≤ nPartitions (after_passes (S k) (initialPartition dfa2_pruned)) ∧
        nPartitions (after_passes (S k) (initialPartition dfa2_pruned))
        ≤ nStates dfa2_pruned) ∧
  nPartitions (initialPartition dfa2_pruned) ≤ nStates dfa2_pruned ∧
  (∀ p, p ∈ allStates dfa2_pruned ↔
        p ∈ allStates dfa2_machine ∧
        reachable_from (heap dfa2_machine) 1%positive p) ∧
  is_Some (refineAllPartitions (nStates dfa2_pruned) (initialPartition dfa2_pruned)).
Proof.
  apply (refinement_passes_bounded 4 1%positive dfa2_machine).
  - apply wf_check_sound. vm_compute. reflexivity.
  - vm_compute. apply list_elem_of_here.
  - vm_compute. reflexivity.
Defined.

(** C8.  After the initial partitioning and after any number of refinement
    passes, the members of a partition agree on the final flag; the table row
    of the partition, whose flag is read from the first member, is therefore
    marked final exactly when every member is final. *)
Theorem partition_members_agree_on_final (st0 : Machine) (k : nat) :
  wf_graph st0 →
  (∀ P p q,
     P ∈ partitions (after_passes k (initialPartition st0)) →
     p ∈ states P → q ∈ states P →
     isFinal (deref (heap (after_passes k (initialPartition st0))) p) =
     isFinal (deref (heap (after_passes k (initialPartition st0))) q)) ∧
  (∀ P,
     P ∈ partitions (after_passes k (initialPartition st0)) →
     ∃ row,
       row ∈ printMinimizedDFA (after_passes k (initialPartition st0)) ∧
       row_id row = p_id P ∧ row_label row = label P ∧
       (row_final row = true ↔
        ∀ p, p ∈ states P →
             isFinal (deref (heap (after_passes k (initialPartition st0))) p)
             = true)) ∧
  (∀ p, isFinal (deref (heap (after_passes k (initialPartition st0))) p) =
        isFinal (deref (heap st0) p)).
Proof.
  intros Hwf.
  destruct (initialPartition_spec st0 Hwf) as (Hwf1 & Hpi1 & Hsg1 & _).
  destruct (after_passes_inv k _ Hwf1 Hpi1) as (Hwfk & Hpik & Hsgk & _).
  set (st := after_passes k (initialPartition st0)) in *.
  assert (∀ P p q, P ∈ partitions st → p ∈ states P → q ∈ states P →
                   isFinal (deref (heap st) p) = isFinal (deref (heap st) q))
    as Hagree.
  { intros P p q HP Hp Hq. apply (pi_final _ Hpik (states P)); [|done..].
    unfold blocks. apply list_elem_of_fmap. eauto. }
  split_and!.
  - done.
  - intros P HP.
    assert (states P ≠ []) as Hne.
    { apply (pi_nonempty _ Hpik). unfold blocks. apply list_elem_of_fmap. eauto. }
    destruct (states P) as [|rep rest] eqn:E; [done|].
    exists (mkRow (p_id P) (label P) (isFinal (deref (heap st) rep))
                  (row_target (heap st) (next0 (deref (heap st) rep)))
                  (row_target (heap st) (next1 (deref (heap st) rep)))).
    split_and!; [|done|done|].
    + unfold printMinimizedDFA. apply list_elem_of_omap.
      exists P. split; [done|]. by rewrite E.
    + simpl. split.
      * intros Hrep p Hp. rewrite <- Hrep. apply (Hagree P); rewrite ?E; [done..|].
        apply list_elem_of_here.
      * intros Hall. apply Hall. apply list_elem_of_here.
  - intros p. rewrite (same_graph_isFinal _ _ _ Hsgk).
    by rewrite (same_graph_isFinal _ _ _ Hsg1).
Qed.

Lemma partition_members_agree_on_final_witness :
  (∀ P p q,
     P ∈ partitions (after_passes 1 (initialPartition dfa2_machine)) →
     p ∈ states P → q ∈ states P →
     isFinal (deref (heap (after_passes 1 (initialPartition dfa2_machine))) p) =
     isFinal (deref (heap (after_passes 1 (initialPartition dfa2_machine))) q)) ∧
  (∀ P,
     P ∈ partitions (after_passes 1 (initialPartition dfa2_machine)) →
     ∃ row,
       row ∈ printMinimizedDFA (after_passes 1 (initialPartition dfa2_machine)) ∧
       row_id row = p_id P ∧ row_label row = label P ∧
       (row_final row = true ↔
        ∀ p, p ∈ states P →
             isFinal (deref (heap (after_passes 1 (initialPartition dfa2_machine))) p)
             = true)) ∧
  (∀ p, isFinal (deref (heap (after_passes 1 (initialPartition dfa2_machine))) p) =
        isFinal (deref (heap dfa2_machine) p)).
Proof.
  apply (partition_members_agree_on_final dfa2_machine 1).
  apply wf_check_sound. vm_compute. reflexivity.
Defined.

(** ** The whole pipeline *)

Lemma pipeline_mono (fuel fuel' : nat) (start : option loc) (st : Machine)
    (res : Machine * list Row) :
  pipeline fuel start st = Some res → fuel ≤ fuel' →
  pipeline fuel' start st = Some res.
Proof.
  destruct res as [st' rows]. intros H Hle.
  apply pipeline_unfold in H as (st1 & H1 & H2 & ->).
  apply pipeline_unfold. exists st1. split_and!; [|  |done].
  - by eapply removeUnreachable_mono.
  - by eapply refineAllPartitions_mono.
Qed.

Lemma sublist_same_length (l1 l2 : list loc) :
  l1 `sublist_of` l2 → length l2 ≤ length l1 → l1 = l2.
Proof.
  induction 1 as [|x l1 l2 Hsub IH|x l1 l2 Hsub IH]; simpl; intros Hlen.
  - done.
  - f_equal. apply IH. lia.
  - apply sublist_length in Hsub. lia.
Qed.

Lemma join_singletons (bs : list (list loc)) :
  (∀ b, b ∈ bs → ∃ p, b = [p]) → length (mjoin bs) = length bs.
Proof.
  induction bs as [|b bs IH]; intros H; simpl; [done|].
  destruct (H b (list_elem_of_here _ _)) as [p ->]. simpl. f_equal.
  apply IH. intros b' Hb'. apply H. by apply list_elem_of_further.
Qed.

Lemma printMinimizedDFA_length (st : Machine) :
  part_inv st → length (printMinimizedDFA st) = nPartitions st.
Proof.
  intros Hpi. unfold printMinimizedDFA, nPartitions.
  assert (∀ P, P ∈ partitions st → states P ≠ []) as Hne.
  { intros P HP. apply (pi_nonempty _ Hpi). unfold blocks.
    apply list_elem_of_fmap. eauto. }
  induction (partitions st) as [|P ps IH]; simpl; [done|].
  assert (states P ≠ []) as HP by (apply Hne; apply list_elem_of_here).
  destruct (states P); [done|]. simpl. f_equal.
  apply IH. intros P' HP'. apply Hne. by apply list_elem_of_further.
Qed.

(** When no two states have the same behaviour, every final partition is a
    single state. *)
Lemma pipeline_distinct_behaviour (fuel : nat) (start : loc)
    (st st' : Machine) (rows : list Row) :
  wf_graph st → start ∈ allStates st →
  pipeline fuel (Some start) st = Some (st', rows) →
  (∀ p, p ∈ allStates st → reachable_from (heap st) start p) →
  (∀ p q, p ∈ allStates st → q ∈ allStates st → p ≠ q →
          ¬ same_behaviour (heap st) p q) →
  allStates st' = allStates st ∧
  nPartitions st' = nStates st ∧ length rows = nStates st ∧
  (∀ P, P ∈ partitions st' → ∃ p, states P = [p]).
Proof.
  intros Hwf Hstart Hrun Hreach Hdist.
  destruct (pipeline_result fuel start st st' rows Hwf Hstart Hrun)
    as (Hwf' & Hpi' & Hst & _ & Hmem & Hsub & Hobs & ->).
  assert (allStates st' = allStates st) as Hall.
  { apply sublist_same_length; [done|].
    assert (allStates st ≡ₚ allStates st') as ->; [|done].
    apply NoDup_Permutation; [by apply wf_nodup..|].
    intros p. rewrite Hmem. split; [auto|by intros [? _]]. }
  assert (∀ b, b ∈ blocks st' → ∃ p, b = [p]) as Hsingle.
  { intros b Hb.
    assert (NoDup b) as Hnd.
    { pose proof (wf_nodup _ Hwf') as Hnd. rewrite <- (pi_perm _ Hpi') in Hnd.
      apply list_elem_of_lookup in Hb as [i Hi].
      rewrite <- (take_drop_middle _ _ _ Hi), join_app in Hnd. simpl in Hnd.
      apply NoDup_app in Hnd as (_ & _ & Hnd).
      by apply NoDup_app in Hnd as (Hnd & _ & _). }
    assert (∀ p q, p ∈ b → q ∈ b → p = q) as Heq.
    { intros p q Hp Hq. destruct (decide (p = q)) as [|Hne]; [done|].
      exfalso.
      assert (p ∈ allStates st') as Hpa by by eapply part_inv_block_elem.
      assert (q ∈ allStates st') as Hqa by by eapply part_inv_block_elem.
      apply (Hdist p q); [by rewrite <- Hall..|done|].
      assert (same_partition st' p q) as Hsp.
      { apply same_partition_blocks. apply list_elem_of_lookup in Hb as [i Hi]. eauto. }
      pose proof (stable_same_behaviour st' p q Hwf' Hpi' Hst Hsp) as Hbeh.
      intros w. rewrite <- !Hobs by done. apply Hbeh. }
    destruct b as [|p [|q b]].
    - by apply (pi_nonempty _ Hpi') in Hb.
    - eauto.
    - exfalso. assert (p = q) as ->.
      { apply Heq; [apply list_elem_of_here|].
        apply list_elem_of_further, list_elem_of_here. }
      apply NoDup_cons in Hnd as [Hnd _]. apply Hnd. apply list_elem_of_here. }
  assert (nPartitions st' = nStates st) as Hcount.
  { unfold nPartitions, nStates. rewrite <- Hall, <- (pi_perm _ Hpi').
    rewrite (join_singletons _ Hsingle). unfold blocks. by rewrite length_fmap. }
  split_and!; [done|done| |].
  - by rewrite printMinimizedDFA_length.
  - intros P HP. apply Hsingle. unfold blocks. apply list_elem_of_fmap. eauto.
Qed.

(** C9.  On a well-formed automaton that is already minimal (every state is
    reachable from the start state and no two states accept the same
    language) the pipeline returns, removes no state, and ends with one
    partition per state: the minimised automaton has as many states as the
    input. *)
Theorem pipeline_minimal_same_count (fuel : nat) (start : loc) (st : Machine) :
  wf_graph st → start ∈ allStates st → nStates st ≤ fuel →
  (∀ p, p ∈ allStates st → reachable_from (heap st) start p) →
  (∀ p q, p ∈ allStates st → q ∈ allStates st → p ≠ q →
          ¬ same_language (heap st) p q) →
  ∃ st' rows,
    pipeline fuel (Some start) st = Some (st', rows) ∧
    allStates st' = allStates st ∧
    nPartitions st' = nStates st ∧ length rows = nStates st ∧
    (∀ P, P ∈ partitions st' → ∃ p, states P = [p]).
Proof.
  intros Hwf Hstart Hfuel Hreach Hdist.
  destruct (pipeline_terminates fuel start st Hwf Hstart Hfuel) as [[st' rows] Hrun].
  exists st', rows. split; [done|].
  apply (pipeline_distinct_behaviour fuel start st st' rows); try done.
  intros p q Hp Hq Hne Hbeh. apply (Hdist p q Hp Hq Hne).
  by apply same_behaviour_language.
Qed.

Lemma pipeline_minimal_same_count_witness :
  ∃ st' rows,
    pipeline 2 (Some 1%positive) minimal_dfa = Some (st', rows) ∧
    allStates st' = allStates minimal_dfa ∧
    nPartitions st' = nStates minimal_dfa ∧ length rows = nStates minimal_dfa ∧
    (∀ P, P ∈ partitions st' → ∃ p, states P = [p]).
Proof.
  apply (pipeline_minimal_same_count 2 1%positive minimal_dfa).
  - apply wf_check_sound. vm_compute. reflexivity.
  - vm_compute. apply list_elem_of_here.
  - apply Nat.leb_le. vm_compute. reflexivity.
  - intros p Hp. vm_compute in Hp.
    apply elem_of_cons in Hp as [->|Hp]; [by exists []|].
    apply elem_of_cons in Hp as [->|Hp]; [by exists [Sym0]|].
    by apply elem_of_nil in Hp.
  - intros p q Hp Hq Hne Hlang. specialize (Hlang []).
    vm_compute in Hp, Hq.
    apply elem_of_cons in Hp as [->|Hp];
      [|apply elem_of_cons in Hp as [->|Hp]; [|by apply elem_of_nil in Hp]];
      (apply elem_of_cons in Hq as [->|Hq];
       [|apply elem_of_cons in Hq as [->|Hq]; [|by apply elem_of_nil in Hq]]);
      try done; vm_compute in Hlang; discriminate Hlang.
Defined.

Lemma same_partitionb_spec (st : Machine) (p q : loc) :
  same_partitionb st p q = true ↔ same_partition st p q.
Proof.
  unfold same_partitionb, same_partition. rewrite existsb_exists. split.
  - intros (P & HP & H). apply andb_true_iff in H as [H1 H2].
    apply bool_decide_eq_true in H1, H2. apply list_elem_of_In in HP. eauto.
  - intros (P & HP & H1 & H2). exists P. split; [by apply list_elem_of_In|].
    apply andb_true_iff. by rewrite !bool_decide_eq_true.
Qed.

(** Where no transition is missing, the accepted language tells as much as
    the behaviour. *)
Lemma complete_run (h : gmap loc State) (start p : loc) (w : list symbol) :
  (∀ r sym, reachable_from h start r → is_Some (delta h r sym)) →
  reachable_from h start p → is_Some (run h p w).
Proof.
  intros Hc. revert p. induction w as [|a w IH]; intros p Hp; simpl; [eauto|].
  destruct (Hc p a Hp) as [p' Hp']. rewrite Hp'.
  apply IH. by eapply reachable_from_step.
Qed.

Lemma complete_same_language (h : gmap loc State) (start p q : loc) :
  (∀ r sym, reachable_from h start r → is_Some (delta h r sym)) →
  reachable_from h start p → reachable_from h start q →
  same_language h p q → same_behaviour h p q.
Proof.
  intros Hc Hp Hq Hl w. specialize (Hl w). unfold accepts, observe in *.
  destruct (complete_run h start p w Hc Hp) as [p' Ep].
  destruct (complete_run h start q w Hc Hq) as [q' Eq].
  rewrite Ep, Eq in *. simpl. by f_equal.
Qed.

(** C1, as the program has it.  On a well-formed graph whose start state is
    in the state array the pipeline returns, and two reachable states lie in
    one final partition exactly when they have the same behaviour: on every
    word, either both have no run (a transition is missing on the way), or
    both have a run and the two runs end in states of equal final flag.
    Hence two states of one final partition accept the same language; and
    when no reachable state lacks a transition, two reachable states lie in
    one final partition exactly when they accept the same language. *)
Theorem pipeline_partition_iff_behaviour (fuel : nat) (start : loc)
    (st : Machine) :
  wf_graph st → start ∈ allStates st → nStates st ≤ fuel →
  ∃ st' rows,
    pipeline fuel (Some start) st = Some (st', rows) ∧
    ∀ p q,
      p ∈ allStates st → q ∈ allStates st →
      reachable_from (heap st) start p → reachable_from (heap st) start q →
      (same_partition st' p q ↔ same_behaviour (heap st) p q) ∧
      (same_partition st' p q → same_language (heap st) p q) ∧
      ((∀ r sym, reachable_from (heap st) start r →
                 is_Some (delta (heap st) r sym)) →
       (same_partition st' p q ↔ same_language (heap st) p q)).
Proof.
  intros Hwf Hstart Hfuel.
  destruct (pipeline_terminates fuel start st Hwf Hstart Hfuel) as [[st' rows] Hrun].
  exists st', rows. split; [done|].
  destruct (pipeline_result fuel start st st' rows Hwf Hstart Hrun)
    as (Hwf' & Hpi' & Hst & Hco & Hmem & _ & Hobs & _).
  intros p q Hp Hq Hrp Hrq.
  assert (p ∈ allStates st') as Hp' by by apply Hmem.
  assert (q ∈ allStates st') as Hq' by by apply Hmem.
  assert (same_behaviour (heap st') p q ↔ same_behaviour (heap st) p q) as Hbeh.
  { unfold same_behaviour. split; intros H w; specialize (H w).
    - by rewrite <- !Hobs.
    - by rewrite !Hobs. }
  assert (same_partition st' p q ↔ same_behaviour (heap st) p q) as Hiff.
  { rewrite <- Hbeh. split.
    - by apply stable_same_behaviour.
    - by apply Hco. }
  split_and!.
  - done.
  - intros Hsp. apply same_behaviour_language. by apply Hiff.
  - intros Hc. rewrite Hiff. split.
    + apply same_behaviour_language.
    + by apply (complete_same_language _ start).
Qed.

Lemma pipeline_partition_iff_behaviour_witness :
  ∃ st' rows,
    pipeline 4 (Some 1%positive) dfa2_machine = Some (st', rows) ∧
    ∀ p q,
      p ∈ allStates dfa2_machine → q ∈ allStates dfa2_machine →
      reachable_from (heap dfa2_machine) 1%positive p →
      reachable_from (heap dfa2_machine) 1%positive q →
      (same_partition st' p q ↔ same_behaviour (heap dfa2_machine) p q) ∧
      (same_partition st' p q → same_language (heap dfa2_machine) p q) ∧
      ((∀ r sym, reachable_from (heap dfa2_machine) 1%positive r →
                 is_Some (delta (heap dfa2_machine) r sym)) →
       (same_partition st' p q ↔ same_language (heap dfa2_machine) p q)).
Proof.
  apply (pipeline_partition_iff_behaviour 4 1%positive dfa2_machine).
  - apply wf_check_sound. vm_compute. reflexivity.
  - vm_compute. apply list_elem_of_here.
  - apply Nat.leb_le. vm_compute. reflexivity.
Defined.

(** C1, counterexample to the claim as stated.  In the partial automaton
    [partial_dfa] the states qA (no transition at all) and qB (looping on both
    symbols) are reachable, non-final, and accept the same set of words, the
    empty set; yet the pipeline puts them into different final partitions. *)
Lemma partial_dfa_same_language_split :
  wf_graph partial_dfa ∧
  reachable_from (heap partial_dfa) 1%positive 2%positive ∧
  reachable_from (heap partial_dfa) 1%positive 3%positive ∧
  same_language (heap partial_dfa) 2%positive 3%positive ∧
  ∃ st' rows,
    pipeline 3 (Some 1%positive) partial_dfa = Some (st', rows) ∧
    ¬ same_partition st' 2%positive 3%positive.
Proof.
  split_and!.
  - apply partial_dfa_wf.
  - exists [Sym0]. vm_compute. reflexivity.
  - exists [Sym1]. vm_compute. reflexivity.
  - assert (∀ a, delta (heap partial_dfa) 2%positive a = None) as Hd2.
    { intros []; vm_compute; reflexivity. }
    assert (∀ a, delta (heap partial_dfa) 3%positive a = Some 3%positive) as Hd3.
    { intros []; vm_compute; reflexivity. }
    assert (∀ w, run (heap partial_dfa) 3%positive w = Some 3%positive) as Hr3.
    { induction w as [|a w IH]; [done|]. cbn [run]. by rewrite Hd3. }
    intros w. unfold accepts. rewrite Hr3.
    destruct w as [|a w]; cbn [run]; [vm_compute; reflexivity|].
    rewrite Hd2. vm_compute. reflexivity.
  - eexists. eexists. split; [vm_compute; reflexivity|].
    rewrite <- same_partitionb_spec. vm_compute. discriminate.
Qed.

(** ** main *)

(** C2.  [main] builds q1, q2, q3 and q4 (here at the addresses 1 to 4) with
    the transitions of "Example DFA 2".  Pruning from q1 removes q4 and keeps
    q1, q2, q3; the initial partitions are {q2,q3}, final, and {q1},
    non-final; refinement leaves them as they are; and the printed table has
    exactly two rows: S0 {q2,q3}, final, going to S0 on both symbols, and
    S1 {q1}, non-final, going to S0 on both symbols. *)
Theorem main_example_dfa2 :
  ∃ st0 st1 st3,
    example_dfa2 bump_malloc = Returned (1%positive, st0) ∧
    allStates st0 = ([1; 2; 3; 4]%positive : list loc) ∧
    (λ p, let s := deref (heap st0) p in
          (name s, isFinal s, next0 s, next1 s)) <$> allStates st0 =
    [("q1", false, Some 2%positive, Some 3%positive);
     ("q2", true, Some 3%positive, Some 2%positive);
     ("q3", true, Some 3%positive, Some 2%positive);
     ("q4", false, Some 2%positive, Some 3%positive)] ∧
    removeUnreachable 4 (Some 1%positive) st0 = Some st1 ∧
    allStates st1 = ([1; 2; 3]%positive : list loc) ∧
    heap st1 !! 4%positive = None ∧
    (λ P, (states P, label P, isFinal (deref (heap st1) (default 1%positive (head (states P))))))
      <$> partitions (initialPartition st1) =
    [([2; 3]%positive, "{q2,q3}", true); ([1%positive], "{q1}", false)] ∧
    refineAllPartitions 4 (initialPartition st1) = Some st3 ∧
    partitions st3 = partitions (initialPartition st1) ∧
    same_partition st3 2%positive 3%positive ∧
    printMinimizedDFA st3 =
    [mkRow 0 "{q2,q3}" true (Some 0%Z) (Some 0%Z);
     mkRow 1 "{q1}" false (Some 0%Z) (Some 0%Z)] ∧
    ∀ fuel, 4 ≤ fuel →
            main bump_malloc fuel = Returned (Some (st3, printMinimizedDFA st3)).
Proof.
  eexists. eexists. eexists.
  split; [vm_compute; reflexivity|].
  split; [vm_compute; reflexivity|].
  split; [vm_compute; reflexivity|].
  split; [vm_compute; reflexivity|].
  split; [vm_compute; reflexivity|].
  split; [vm_compute; reflexivity|].
  split; [vm_compute; reflexivity|].
  split; [vm_compute; reflexivity|].
  split; [vm_compute; reflexivity|].
  split; [apply same_partitionb_spec; vm_compute; reflexivity|].
  split; [vm_compute; reflexivity|].
  intros fuel Hfuel.
  assert (main bump_malloc fuel =
          Returned (pipeline fuel (Some 1%positive) dfa2_machine)) as ->.
  { unfold main.
    assert (example_dfa2 bump_malloc = Returned (1%positive, dfa2_machine)) as ->
      by (vm_compute; reflexivity).
    reflexivity. }
  f_equal. eapply pipeline_mono; [|exact Hfuel].
  vm_compute. reflexivity.
Qed.

(** * Further properties of the program *)

(** ** getStateIndexByPtr and createState *)

(** X1.  [getStateIndexByPtr] returns the first index at which the state
    array holds the pointer, an index below [nStates]; it returns -1 exactly
    for NULL and for pointers that are not in the array.  When the entries of
    the array are distinct, looking up the pointer stored at index [i] gives
    [i] back. *)
Theorem getStateIndexByPtr_first_index (s : option loc) (st : Machine) :
  match getStateIndexByPtr s st with
  | Some i =>
      ∃ p, s = Some p ∧ allStates st !! i = Some p ∧ i < nStates st ∧
           ∀ j, j < i → allStates st !! j ≠ Some p
  | None => s = None ∨ ∃ p, s = Some p ∧ p ∉ allStates st
  end ∧
  (NoDup (allStates st) →
   ∀ i p, allStates st !! i = Some p → getStateIndexByPtr (Some p) st = Some i).
Proof.
  split.
  - destruct s as [p|]; [|by left].
    destruct (getStateIndexByPtr (Some p) st) as [i|] eqn:E.
    + pose proof (getStateIndexByPtr_lt _ _ _ E).
      apply getStateIndexByPtr_Some in E as [Hi Hmin]. eauto 10.
    + right. exists p. split; [done|]. by apply getStateIndexByPtr_None.
  - intros Hnd i p Hi. by apply getStateIndexByPtr_lookup.
Qed.

Lemma getStateIndexByPtr_first_index_witness :
  getStateIndexByPtr (Some 3%positive) dfa2_machine = Some 2.
Proof.
  apply (proj2 (getStateIndexByPtr_first_index (Some 3%positive) dfa2_machine)).
  - apply (wf_nodup _ (wf_check_sound dfa2_machine eq_refl)).
  - vm_compute. reflexivity.
Defined.

(** X2.  When [malloc] hands out a block that is not live, [createState]
    keeps the graph well formed and appends: the new state sits at the old
    [nStates], which is also its id and what [getStateIndexByPtr] finds for
    it; it has no transition and partition id -1; the states created before
    keep their cells and their indices, so that ids stay the array indices
    and display names stay at most three characters long. *)
Theorem createState_appends (malloc : gmap loc State → option loc)
    (nm : string) (fin : bool) (st st' : Machine) (s : loc) :
  (∀ h p, malloc h = Some p → h !! p = None) →
  wf_graph st →
  createState malloc nm fin st = Returned (s, st') →
  wf_graph st' ∧
  nStates st' = S (nStates st) ∧
  allStates st' !! nStates st = Some s ∧
  getStateIndexByPtr (Some s) st' = Some (nStates st) ∧
  id (deref (heap st') s) = Z.of_nat (nStates st) ∧
  isFinal (deref (heap st') s) = fin ∧
  (∀ sym, delta (heap st') s sym = None) ∧
  partitionId (deref (heap st') s) = (-1)%Z ∧
  (∀ i p, allStates st !! i = Some p →
          allStates st' !! i = Some p ∧ heap st' !! p = heap st !! p ∧
          getStateIndexByPtr (Some p) st' = Some i) ∧
  (ids_dense st → ids_dense st') ∧
  (names_short st → names_short st').
Proof.
  intros Hfresh Hwf Hc.
  pose proof (createState_wf malloc nm fin st st' s Hfresh Hwf Hc) as Hwf'.
  apply createState_returned in Hc as (Hlt & Hm & Hh & Hall & _).
  apply Hfresh in Hm.
  assert (allStates st' !! nStates st = Some s) as Hnew.
  { rewrite Hall. unfold nStates. by rewrite lookup_app_r, Nat.sub_diag by lia. }
  assert (deref (heap st') s =
          mkState (snprintf_s 4 nm) fin None None (Z.of_nat (nStates st)) (-1)%Z)
    as Hcell.
  { unfold deref. by rewrite Hh, lookup_total_insert_eq. }
  assert (∀ i p, allStates st !! i = Some p → p ≠ s) as Hold.
  { intros i p Hi ->.
    destruct (wf_alloc _ Hwf s) as [x Hx]; [by eapply list_elem_of_lookup_2|].
    congruence. }
  split_and!; try done.
  - unfold nStates. rewrite Hall, length_app. simpl. lia.
  - by apply getStateIndexByPtr_lookup; [apply wf_nodup|].
  - by rewrite Hcell.
  - by rewrite Hcell.
  - intros sym. unfold delta. rewrite Hcell. by destruct sym.
  - by rewrite Hcell.
  - intros i p Hi.
    assert (allStates st' !! i = Some p) as Hi'.
    { rewrite Hall. by apply lookup_app_l_Some. }
    split_and!; [done| |].
    + rewrite Hh. apply lookup_insert_ne. intros ->. by eapply Hold.
    + by apply getStateIndexByPtr_lookup; [apply wf_nodup|].
  - intros Hids i p Hi. rewrite Hall in Hi.
    apply lookup_app_Some in Hi as [Hi|[Hi1 Hi2]].
    + unfold deref. rewrite Hh, lookup_total_insert_ne; [by apply Hids|].
      intros <-. by eapply Hold.
    + apply list_lookup_singleton_Some in Hi2 as [Hi2 <-].
      rewrite Hcell. simpl. unfold nStates. f_equal. lia.
  - intros Hnames p Hp. rewrite Hall in Hp.
    apply elem_of_app in Hp as [Hp|Hp].
    + apply list_elem_of_lookup in Hp as [i Hi].
      unfold deref. rewrite Hh, lookup_total_insert_ne.
      * apply Hnames. by eapply list_elem_of_lookup_2.
      * intros <-. by eapply Hold.
    + apply list_elem_of_singleton in Hp as ->. rewrite Hcell. simpl.
      apply (snprintf_s_length 4).
Qed.

Lemma createState_appends_witness :
  wf_graph (machine_of (createState bump_malloc "q5" true dfa2_machine)) ∧
  nStates (machine_of (createState bump_malloc "q5" true dfa2_machine)) = 5.
Proof.
  destruct (createState_appends bump_malloc "q5" true dfa2_machine
              (machine_of (createState bump_malloc "q5" true dfa2_machine))
              5%positive) as (Hwf & Hn & _).
  - intros h p [= <-]. apply not_elem_of_dom. apply is_fresh.
  - apply wf_check_sound. vm_compute. reflexivity.
  - vm_compute. reflexivity.
  - split; [exact Hwf|exact Hn].
Defined.

(** ** Pruning *)

Lemma foldl_delete_lookup (h : gmap loc State) (l : list loc) (p : loc) :
  foldl (λ h p, delete p h) h l !! p = if decide (p ∈ l) then None else h !! p.
Proof.
  revert h. induction l as [|x l IH]; intros h.
  - case_decide as Hin; [by apply elem_of_nil in Hin|done].
  - cbn [foldl]. rewrite IH.
    destruct (decide (p ∈ l)) as [Hl|Hl]; case_decide as Hin; try done.
    + exfalso. apply Hin. by apply list_elem_of_further.
    + apply elem_of_cons in Hin as [->|?]; [|done]. apply lookup_delete_eq.
    + rewrite lookup_delete_ne; [done|]. intros ->. apply Hin, list_elem_of_here.
Qed.

(** When no state is marked, the two loops of [removeUnreachable] free every
    state of the array and leave the array empty. *)
Lemma prune_unmarked (st : Machine) :
  (∀ i, i < nStates st → is_marked (reachable st) i = false) →
  foldl (clear_transitions st) (heap st) (seq 0 (nStates st)) = heap st ∧
  foldl (compact_step (reachable st)) (allStates st, 0, heap st)
        (seq 0 (nStates st)) =
  (allStates st, 0, foldl (λ h p, delete p h) (heap st) (allStates st)).
Proof.
  intros Hun. split.
  - apply (foldl_invariant _ (λ _ acc, acc = heap st)); [done|].
    intros done x rest acc Hsplit ->.
    apply seq_split_index in Hsplit as (_ & Hx & _).
    unfold clear_transitions. by rewrite Hun.
  - pose proof (foldl_invariant (compact_step (reachable st))
                  (λ done acc,
                     acc = (allStates st, 0,
                            foldl (λ h p, delete p h) (heap st)
                                  (take (length done) (allStates st))))
                  (seq 0 (nStates st)) (allStates st, 0, heap st)) as H.
    cbv beta in H. rewrite length_seq in H.
    rewrite (take_ge (allStates st) (nStates st)) in H by (unfold nStates; lia).
    apply H; clear H; [done|].
    intros done x rest acc Hsplit ->.
    apply seq_split_index in Hsplit as (-> & Hx & _).
    rewrite length_seq, length_app, length_seq. simpl.
    destruct (lookup_lt_is_Some_2 (allStates st) x Hx) as [p Hp].
    unfold compact_step. rewrite Hp, (Hun x Hx).
    rewrite Nat.add_1_r, (take_S_r _ _ _ Hp), foldl_app. done.
Qed.

(** X3.  When the start pointer is not in the state array (or is NULL while
    no mark is set, as at program start), [removeUnreachable] still returns
    normally, but marks nothing and therefore frees every state of the array
    and leaves the array empty; cells outside the array are not touched. *)
Theorem removeUnreachable_nothing_marked (fuel : nat) (startNode : option loc)
    (st : Machine) :
  match startNode with
  | Some start => start ∉ allStates st
  | None => ∀ i, i < nStates st → is_marked (reachable st) i = false
  end →
  ∃ st',
    removeUnreachable fuel startNode st = Some st' ∧
    allStates st' = [] ∧
    (∀ p, p ∈ allStates st → heap st' !! p = None) ∧
    (∀ p, p ∉ allStates st → heap st' !! p = heap st !! p) ∧
    partitions st' = partitions st.
Proof.
  intros Hstart.
  assert (∃ st1, markReachable fuel startNode st = Some st1 ∧
                 heap st1 = heap st ∧ allStates st1 = allStates st ∧
                 partitions st1 = partitions st ∧
                 ∀ i, i < nStates st1 → is_marked (reachable st1) i = false)
    as (st1 & Hmark & Hh & Hall & Hps & Hun).
  { destruct startNode as [start|].
    - rewrite (markReachable_absent fuel start st Hstart). eexists.
      split; [done|]. simpl. split_and!; try done.
      intros i Hi. by apply clear_marks_lt.
    - exists st. done. }
  rewrite (removeUnreachable_unfold _ _ _ _ Hmark). cbv zeta.
  destruct (prune_unmarked st1 Hun) as [-> ->].
  eexists. split; [done|]. simpl. rewrite Hh, Hall. split_and!; try done.
  - intros p Hp. rewrite foldl_delete_lookup. by rewrite decide_True.
  - intros p Hp. rewrite foldl_delete_lookup. by rewrite decide_False.
Qed.

Lemma removeUnreachable_nothing_marked_witness :
  ∃ st',
    removeUnreachable 0 (Some 9%positive) dfa2_machine = Some st' ∧
    allStates st' = [] ∧
    (∀ p, p ∈ allStates dfa2_machine → heap st' !! p = None) ∧
    (∀ p, p ∉ allStates dfa2_machine → heap st' !! p = heap dfa2_machine !! p) ∧
    partitions st' = partitions dfa2_machine.
Proof.
  apply (removeUnreachable_nothing_marked 0 (Some 9%positive) dfa2_machine).
  vm_compute. intros H. elem_of_cases H.
Defined.

Lemma removeUnreachable_pruned (fuel : nat) (start : loc) (st st' : Machine) :
  wf_graph st → start ∈ allStates st →
  removeUnreachable fuel (Some start) st = Some st' →
  wf_graph st' ∧ start ∈ allStates st' ∧ ids_dense st' ∧
  (∀ p w, p ∈ allStates st' → run (heap st') p w = run (heap st) p w) ∧
  (∀ p, p ∈ allStates st' → reachable_from (heap st') start p).
Proof.
  intros Hwf Hstart Hrun.
  destruct (removeUnreachable_any_fuel fuel start st st' Hwf Hstart Hrun)
    as (Hrun' & Hwf' & Hstart' & Hsub & Hmem & Hg).
  destruct (removeUnreachable_result _ start st Hwf Hstart
              (Nat.le_max_r fuel (nStates st)))
    as (st2 & Hrun2 & _ & _ & Hid & _).
  rewrite Hrun' in Hrun2. injection Hrun2 as <-.
  assert (∀ p w, p ∈ allStates st' → run (heap st') p w = run (heap st) p w)
    as Hruns.
  { intros p w Hp. apply pruned_run; [done| |done].
    intros q Hq. apply (Hg q Hq). }
  split_and!; try done.
  - intros i p Hi.
    assert (p ∈ allStates st) as Hp.
    { eapply elem_of_sublist; [|done]. by eapply list_elem_of_lookup_2. }
    by rewrite (deref_lookup_fmap _ _ _ _ (Hid i p Hi) (wf_alloc _ Hwf _ Hp)).
  - intros p Hp. destruct (proj1 (Hmem p) Hp) as [_ [w Hw]].
    exists w. by rewrite Hruns.
Qed.

(** X4.  The graph that [removeUnreachable] leaves is well formed and trim:
    the start state is in it, every state in it is reachable from the start
    state inside it, ids are the array indices, no cell is allocated, and
    every surviving state has the behaviour and accepts the words it had
    before. *)
Theorem removeUnreachable_trim (fuel : nat) (start : loc) (st st' : Machine) :
  wf_graph st → start ∈ allStates st →
  removeUnreachable fuel (Some start) st = Some st' →
  wf_graph st' ∧ start ∈ allStates st' ∧ ids_dense st' ∧
  (∀ p, p ∈ allStates st' → reachable_from (heap st') start p) ∧
  (∀ p, is_Some (heap st' !! p) → is_Some (heap st !! p)) ∧
  (∀ p w, p ∈ allStates st' →
          observe (heap st') p w = observe (heap st) p w ∧
          accepts (heap st') p w = accepts (heap st) p w).
Proof.
  intros Hwf Hstart Hrun.
  destruct (removeUnreachable_pruned fuel start st st' Hwf Hstart Hrun)
    as (Hwf' & Hstart' & Hids & Hruns & Hreach).
  destruct (removeUnreachable_any_fuel fuel start st st' Hwf Hstart Hrun)
    as (Hrun' & _ & _ & Hsub & Hmem & Hg).
  destruct (removeUnreachable_result _ start st Hwf Hstart
              (Nat.le_max_r fuel (nStates st)))
    as (st2 & Hrun2 & _ & _ & Hid & Hfree & Hout & _).
  rewrite Hrun' in Hrun2. injection Hrun2 as <-.
  split_and!; try done.
  - intros p Hsome. destruct (decide (p ∈ allStates st)) as [Hin|Hnin].
    + by apply wf_alloc.
    + by rewrite <- (Hout p Hnin).
  - intros p w Hp.
    assert (observe (heap st') p w = observe (heap st) p w) as Hobs
      by by apply pruned_observe.
    split; [done|]. unfold accepts. rewrite Hruns by done.
    destruct (run (heap st) p w) as [q|] eqn:E; [|done].
    apply Hg. apply (run_in_graph st' p q w Hwf' Hp). by rewrite Hruns.
Qed.

Lemma removeUnreachable_trim_witness :
  wf_graph dfa2_pruned ∧ 1%positive ∈ allStates dfa2_pruned ∧
  ids_dense dfa2_pruned ∧
  (∀ p, p ∈ allStates dfa2_pruned →
        reachable_from (heap dfa2_pruned) 1%positive p) ∧
  (∀ p, is_Some (heap dfa2_pruned !! p) → is_Some (heap dfa2_machine !! p)) ∧
  (∀ p w, p ∈ allStates dfa2_pruned →
          observe (heap dfa2_pruned) p w = observe (heap dfa2_machine) p w ∧
          accepts (heap dfa2_pruned) p w = accepts (heap dfa2_machine) p w).
Proof.
  apply (removeUnreachable_trim 4 1%positive dfa2_machine dfa2_pruned).
  - apply wf_check_sound. vm_compute. reflexivity.
  - vm_compute. apply list_elem_of_here.
  - vm_compute. reflexivity.
Defined.

(** X5.  Pruning is idempotent: pruning the pruned graph again from the same
    start state returns, and changes neither the state array nor any cell. *)
Theorem removeUnreachable_idempotent (fuel fuel' : nat) (start : loc)
    (st st' : Machine) :
  wf_graph st → start ∈ allStates st →
  removeUnreachable fuel (Some start) st = Some st' →
  nStates st' ≤ fuel' →
  ∃ st'',
    removeUnreachable fuel' (Some start) st' = Some st'' ∧
    allStates st'' = allStates st' ∧ heap st'' = heap st' ∧
    partitions st'' = partitions st'.
Proof.
  intros Hwf Hstart Hrun Hfuel'.
  destruct (removeUnreachable_pruned fuel start st st' Hwf Hstart Hrun)
    as (Hwf' & Hstart' & Hids & _ & Hreach).
  destruct (removeUnreachable_result fuel' start st' Hwf' Hstart' Hfuel')
    as (st'' & Hrun'' & Hsub & Hmem & Hid & _ & Hout & _ & Hps & _).
  exists st''. split; [done|].
  assert (allStates st'' = allStates st') as Hall.
  { apply sublist_same_length; [done|].
    assert (allStates st' ≡ₚ allStates st'') as ->; [|done].
    apply NoDup_Permutation; [by apply wf_nodup| |].
    - eapply sublist_NoDup; [|done]. by apply wf_nodup.
    - intros p. rewrite Hmem. split; [auto|by intros [? _]]. }
  split_and!; [done| |done].
  apply map_eq. intros p. destruct (decide (p ∈ allStates st')) as [Hin|Hnin].
  - apply list_elem_of_lookup in Hin as [i Hi].
    assert (allStates st'' !! i = Some p) as Hi' by by rewrite Hall.
    rewrite (Hid i p Hi').
    destruct (wf_alloc _ Hwf' p) as [s Hs]; [by eapply list_elem_of_lookup_2|].
    rewrite Hs. simpl. f_equal.
    pose proof (Hids i p Hi) as Hidp. unfold deref in Hidp.
    rewrite (lookup_total_correct _ _ _ Hs) in Hidp.
    destruct s. simpl in *. by subst.
  - by apply Hout.
Qed.

Lemma removeUnreachable_idempotent_witness :
  ∃ st'',
    removeUnreachable 3 (Some 1%positive) dfa2_pruned = Some st'' ∧
    allStates st'' = allStates dfa2_pruned ∧ heap st'' = heap dfa2_pruned ∧
    partitions st'' = partitions dfa2_pruned.
Proof.
  apply (removeUnreachable_idempotent 4 3 1%positive dfa2_machine dfa2_pruned).
  - apply wf_check_sound. vm_compute. reflexivity.
  - vm_compute. apply list_elem_of_here.
  - vm_compute. reflexivity.
  - apply Nat.leb_le. vm_compute. reflexivity.
Defined.

(** ** Partitioning *)

Lemma separate_fold_filter (h0 : gmap loc State) (l : list loc) :
  (foldl separate_step (h0, [], []) l).1.2 =
    filter (λ p, isFinal (deref h0 p) = true) l ∧
  (foldl separate_step (h0, [], []) l).2 =
    filter (λ p, isFinal (deref h0 p) = false) l.
Proof.
  apply (foldl_invariant separate_step
           (λ done acc,
              same_graph h0 acc.1.1 ∧
              acc.1.2 = filter (λ p, isFinal (deref h0 p) = true) done ∧
              acc.2 = filter (λ p, isFinal (deref h0 p) = false) done)).
  - split_and!; [apply same_graph_refl|done|done].
  - intros done x rest [[h f] nf] _ (Hsg & Hf & Hnf). simpl in *.
    assert (same_graph h0 (alter (set_partitionId (-1)) x h)) as Hsg'.
    { eapply same_graph_trans; [exact Hsg|]. apply same_graph_alter. }
    unfold separate_step. rewrite (same_graph_isFinal _ _ x Hsg').
    rewrite !filter_app, !filter_cons, !filter_nil.
    destruct (isFinal (deref h0 x)) eqn:Hfin; simpl; rewrite ?app_nil_r;
      (split_and!; [done|by f_equal|by f_equal]).
Qed.

(** X6.  [initialPartition] makes the final states of the array, in array
    order, the first partition and the non-final states the next one, leaving
    out a group that is empty: no partition for an empty array, one or two
    otherwise.  Every state of the array gets the index of its partition as
    partition id, finals 0, and nothing else in a cell changes. *)
Theorem initialPartition_shape (st : Machine) :
  wf_graph st →
  blocks (initialPartition st) =
    filter (λ g, g ≠ [])
           [filter (λ p, isFinal (deref (heap st) p) = true) (allStates st);
            filter (λ p, isFinal (deref (heap st) p) = false) (allStates st)] ∧
  (nStates st = 0 → nPartitions (initialPartition st) = 0) ∧
  (0 < nStates st → 1 ≤ nPartitions (initialPartition st) ≤ 2) ∧
  (∀ i P p, partitions (initialPartition st) !! i = Some P → p ∈ states P →
            p_id P = Z.of_nat i ∧
            partitionId (deref (heap (initialPartition st)) p) = Z.of_nat i) ∧
  (∀ p, p ∈ allStates st → isFinal (deref (heap st) p) = true →
        partitionId (deref (heap (initialPartition st)) p) = 0%Z) ∧
  same_graph (heap st) (heap (initialPartition st)) ∧
  allStates (initialPartition st) = allStates st.
Proof.
  intros Hwf.
  destruct (initialPartition_spec st Hwf) as (Hwf' & Hpi & Hsg & Hall & Hle & _).
  assert (blocks (initialPartition st) =
          filter (λ g, g ≠ [])
            [filter (λ p, isFinal (deref (heap st) p) = true) (allStates st);
             filter (λ p, isFinal (deref (heap st) p) = false) (allStates st)])
    as Hshape.
  { unfold initialPartition.
    destruct (separate_fold_filter (heap st) (allStates st)) as [Hf Hnf].
    destruct (separate_fold_spec (heap st) (allStates st))
      as (h & f & nf & Hfold & Hsg0 & Hperm & _).
    rewrite Hfold in *. simpl in Hf, Hnf. rewrite <- Hf, <- Hnf.
    rewrite add_group_install.
    assert (NoDup (mjoin ((if bool_decide (0 < length f) then [f] else []) ++
                          (if bool_decide (0 < length nf) then [nf] else []))))
      as Hnd.
    { assert (mjoin ((if bool_decide (0 < length f) then [f] else []) ++
                     (if bool_decide (0 < length nf) then [nf] else []))
              = f ++ nf) as ->.
      { destruct f, nf; simpl; by rewrite ?app_nil_r. }
      rewrite Hperm. by apply wf_nodup. }
    destruct (install_fold_spec h _ Hnd) as (h' & ps & -> & _ & Hst & _).
    { intros p Hp. apply (Hsg0 p). apply wf_alloc; [done|].
      rewrite <- Hperm. revert Hp. destruct f, nf; simpl; rewrite ?app_nil_r;
        intros Hp; try done; by apply elem_of_nil in Hp. }
    unfold blocks. simpl. rewrite Hst.
    rewrite !filter_cons, filter_nil.
    destruct f, nf; simpl; repeat case_decide; try done. }
  assert (∀ i P p, partitions (initialPartition st) !! i = Some P →
                   p ∈ states P →
                   p_id P = Z.of_nat i ∧
                   partitionId (deref (heap (initialPartition st)) p) = Z.of_nat i)
    as Hidx.
  { intros i P p Hi Hp. split; [by apply (pi_id _ Hpi)|].
    apply (pi_pid _ Hpi i (states P)); [|done].
    unfold blocks. by rewrite list_lookup_fmap, Hi. }
  split_and!; try done.
  - intros Hn. unfold nStates in Hn. apply length_zero_iff_nil in Hn.
    unfold nPartitions.
    replace (length (partitions (initialPartition st)))
      with (length (blocks (initialPartition st)))
      by (unfold blocks; by rewrite length_fmap).
    rewrite Hshape, Hn. done.
  - intros Hn. split; [|done].
    destruct (allStates st) as [|p l] eqn:E; [simpl in Hn; unfold nStates in Hn;
      rewrite E in Hn; simpl in Hn; lia|].
    apply (initialPartition_nonempty st p Hwf). rewrite E. apply list_elem_of_here.
  - intros p Hp Hfin.
    assert (blocks (initialPartition st) !! 0 =
            Some (filter (λ p, isFinal (deref (heap st) p) = true) (allStates st)))
      as H0.
    { rewrite Hshape. rewrite filter_cons. rewrite decide_True; [done|].
      intros Hnil. assert (p ∈ filter (λ p, isFinal (deref (heap st) p) = true)
                                       (allStates st)) as Hin
        by (apply list_elem_of_filter; done).
      rewrite Hnil in Hin. by apply elem_of_nil in Hin. }
    apply (pi_pid _ Hpi 0 _ p H0). by apply list_elem_of_filter.
Qed.

Lemma initialPartition_shape_witness :
  blocks (initialPartition dfa2_pruned) =
    filter (λ g, g ≠ [])
           [filter (λ p, isFinal (deref (heap dfa2_pruned) p) = true)
                   (allStates dfa2_pruned);
            filter (λ p, isFinal (deref (heap dfa2_pruned) p) = false)
                   (allStates dfa2_pruned)].
Proof.
  apply (initialPartition_shape dfa2_pruned).
  apply wf_check_sound. vm_compute. reflexivity.
Defined.

(** X7.  After the initial partitioning and after any number of refinement
    passes, every state of the array is a member of exactly one partition,
    listed there once; its partition id is the index of that partition, which
    is also the id of the partition; and partitions have no other members. *)
Theorem every_state_in_one_partition (st0 : Machine) (k : nat) :
  wf_graph st0 →
  (∀ p, p ∈ allStates st0 →
        ∃ i P,
          partitions (after_passes k (initialPartition st0)) !! i = Some P ∧
          p ∈ states P ∧ p_id P = Z.of_nat i ∧
          partitionId (deref (heap (after_passes k (initialPartition st0))) p)
          = Z.of_nat i ∧
          ∀ j P', partitions (after_passes k (initialPartition st0)) !! j = Some P' →
                  p ∈ states P' → j = i) ∧
  (∀ P, P ∈ partitions (after_passes k (initialPartition st0)) →
        states P ≠ [] ∧ NoDup (states P) ∧
        ∀ p, p ∈ states P → p ∈ allStates st0).
Proof.
  intros Hwf.
  destruct (initialPartition_spec st0 Hwf) as (Hwf1 & Hpi1 & _ & Hall1 & _).
  destruct (after_passes_inv k _ Hwf1 Hpi1) as (Hwfk & Hpik & _ & Hallk).
  set (st := after_passes k (initialPartition st0)) in *.
  assert (allStates st = allStates st0) as Hall by congruence.
  assert (∀ j P' p, partitions st !! j = Some P' → p ∈ states P' →
                    partitionId (deref (heap st) p) = Z.of_nat j) as Hpid.
  { intros j P' p Hj Hp. apply (pi_pid _ Hpik j (states P')); [|done].
    unfold blocks. by rewrite list_lookup_fmap, Hj. }
  split.
  - intros p Hp. rewrite <- Hall in Hp.
    destruct (part_inv_block_of st p Hpik Hp) as (i & b & Hi & Hpb).
    unfold blocks in Hi. rewrite list_lookup_fmap in Hi.
    destruct (partitions st !! i) as [P|] eqn:E; simplify_eq/=.
    exists i, P. split_and!; [done|done|by apply (pi_id _ Hpik)|by eapply Hpid|].
    intros j P' Hj Hp'.
    pose proof (Hpid j P' p Hj Hp') as H1. pose proof (Hpid i P p E Hpb) as H2.
    lia.
  - intros P HP.
    assert (states P ∈ blocks st) as Hb.
    { unfold blocks. apply list_elem_of_fmap. eauto. }
    split_and!.
    + by apply (pi_nonempty _ Hpik).
    + pose proof (wf_nodup _ Hwfk) as Hnd. rewrite <- (pi_perm _ Hpik) in Hnd.
      apply list_elem_of_lookup in Hb as [i Hi].
      rewrite <- (take_drop_middle _ _ _ Hi), join_app in Hnd. simpl in Hnd.
      apply NoDup_app in Hnd as (_ & _ & Hnd).
      by apply NoDup_app in Hnd as (Hnd & _ & _).
    + intros p Hp. rewrite <- Hall. by eapply part_inv_block_elem.
Qed.

Lemma every_state_in_one_partition_witness :
  (∀ p, p ∈ allStates dfa2_pruned →
        ∃ i P,
          partitions (after_passes 1 (initialPartition dfa2_pruned)) !! i = Some P ∧
          p ∈ states P ∧ p_id P = Z.of_nat i ∧
          partitionId (deref (heap (after_passes 1 (initialPartition dfa2_pruned))) p)
          = Z.of_nat i ∧
          ∀ j P', partitions (after_passes 1 (initialPartition dfa2_pruned)) !! j
                  = Some P' →
                  p ∈ states P' → j = i) ∧
  (∀ P, P ∈ partitions (after_passes 1 (initialPartition dfa2_pruned)) →
        states P ≠ [] ∧ NoDup (states P) ∧
        ∀ p, p ∈ states P → p ∈ allStates dfa2_pruned).
Proof.
  apply (every_state_in_one_partition dfa2_pruned 1).
  apply wf_check_sound. vm_compute. reflexivity.
Defined.

(** X8.  A refinement pass keeps two states together exactly when they were
    together before and have the same signature, that is, when on each symbol
    their transitions lead to the same partition or are both missing.  In
    particular a pass only splits partitions and never merges two. *)
Theorem refine_pass_splits_by_signature (st0 : Machine) (k : nat) (p q : loc) :
  wf_graph st0 →
  same_partition (after_passes (S k) (initialPartition st0)) p q ↔
  same_partition (after_passes k (initialPartition st0)) p q ∧
  signature (heap (after_passes k (initialPartition st0))) p =
  signature (heap (after_passes k (initialPartition st0))) q.
Proof.
  intros Hwf.
  destruct (initialPartition_spec st0 Hwf) as (Hwf1 & Hpi1 & _).
  destruct (after_passes_inv k _ Hwf1 Hpi1) as (Hwfk & Hpik & _).
  change (after_passes (S k) (initialPartition st0))
    with (refine_pass (after_passes k (initialPartition st0))).1.
  set (st := after_passes k (initialPartition st0)) in *.
  destruct (refine_pass_spec st Hwfk Hpik) as (_ & _ & _ & _ & _ & Ht & Hf).
  destruct (refine_pass st).2 eqn:Hc.
  - destruct (Ht eq_refl) as [_ Hbl]. rewrite !same_partition_blocks. split.
    + intros (i & s & Hi & Hp & Hq).
      assert (s ∈ blocks st ≫= refined (heap st)) as Hs.
      { rewrite <- Hbl. by eapply list_elem_of_lookup_2. }
      apply list_elem_of_bind in Hs as (b & Hs & Hb).
      assert (p ∈ b) as Hpb by by eapply refined_subset.
      assert (q ∈ b) as Hqb by by eapply refined_subset.
      split.
      * apply list_elem_of_lookup in Hb as [j Hj]. eauto.
      * apply (refined_same_block (heap st) b p q Hpb Hqb). eauto.
    + intros [(i & b & Hi & Hp & Hq) Hsig].
      apply (refined_same_block (heap st) b p q Hp Hq) in Hsig
        as (s & Hs & Hps & Hqs).
      assert (s ∈ blocks (refine_pass st).1) as Hin.
      { rewrite Hbl. apply list_elem_of_bind. exists b. split; [done|].
        by eapply list_elem_of_lookup_2. }
      apply list_elem_of_lookup in Hin as [j Hj]. eauto.
  - destruct (Hf eq_refl) as [-> Hst]. split; [|by intros [? _]].
    intros Hsame. split; [done|].
    apply same_partition_blocks in Hsame as (i & b & Hi & Hp & Hq).
    apply (Hst b); [by eapply list_elem_of_lookup_2|done..].
Qed.

Lemma refine_pass_splits_by_signature_witness :
  same_partition (after_passes 1 (initialPartition dfa2_pruned))
                 2%positive 3%positive ↔
  same_partition (after_passes 0 (initialPartition dfa2_pruned))
                 2%positive 3%positive ∧
  signature (heap (after_passes 0 (initialPartition dfa2_pruned))) 2%positive =
  signature (heap (after_passes 0 (initialPartition dfa2_pruned))) 3%positive.
Proof.
  apply (refine_pass_splits_by_signature dfa2_pruned 0 2%positive 3%positive).
  apply wf_check_sound. vm_compute. reflexivity.
Defined.

Lemma sublist_singleton_refl (x : loc) : [x] `sublist_of` [x].
Proof. done. Qed.

(** X9.  Splitting one partition groups its members by signature and keeps
    their order: the sub-partitions together hold the members of the
    partition, none is empty, each lists its members in the order they had in
    the partition, the first member of the partition opens the first
    sub-partition, and two members end in the same sub-partition exactly when
    the comparison of their transitions finds them indistinguishable. *)
Theorem split_partition_groups (h : gmap loc State) (b : list loc) :
  mjoin (split_partition h b) ≡ₚ b ∧
  (∀ s, s ∈ split_partition h b → s ≠ [] ∧ s `sublist_of` b) ∧
  (∀ x rest, b = x :: rest →
             ∃ s subs, split_partition h b = (x :: s) :: subs) ∧
  (∀ p q, p ∈ b → q ∈ b →
          ((∃ s, s ∈ split_partition h b ∧ p ∈ s ∧ q ∈ s)
           ↔ distinguishable h p q = false)).
Proof.
  destruct (split_partition_spec h b) as (Hperm & (Hne & Hsame & Hdiff) & _).
  split_and!.
  - done.
  - intros s Hs. split; [by apply Hne|]. revert s Hs.
    destruct b as [|s0 others]; [intros s Hs; by apply elem_of_nil in Hs|].
    unfold split_partition.
    apply (foldl_invariant _
             (λ done subs, ∀ s, s ∈ subs → s `sublist_of` s0 :: done)).
    + intros s Hs. by apply list_elem_of_singleton in Hs as ->.
    + intros done x rest subs _ Hsub s Hs.
      change (s0 :: done ++ [x]) with ((s0 :: done) ++ [x]).
      destruct (place h x subs) as [subs'|] eqn:Hpl.
      * apply place_Some in Hpl as (k & sub & rep & Hk & _ & _ & ->).
        apply list_elem_of_lookup in Hs as [i Hi].
        apply list_lookup_insert_Some in Hi as [(-> & <- & _)|[_ Hi]].
        -- apply sublist_app; [|done]. apply Hsub. by eapply list_elem_of_lookup_2.
        -- apply sublist_inserts_r, Hsub. by eapply list_elem_of_lookup_2.
      * apply elem_of_app in Hs as [Hs|Hs].
        -- by apply sublist_inserts_r, Hsub.
        -- apply list_elem_of_singleton in Hs as ->.
           by apply sublist_inserts_l.
  - intros x rest ->. unfold split_partition.
    apply (foldl_invariant _ (λ _ subs, ∃ s subs', subs = (x :: s) :: subs')).
    + by exists [], [].
    + intros done y rest' subs _ (s & subs' & ->).
      destruct (place h y ((x :: s) :: subs')) as [subs2|] eqn:Hpl.
      * apply place_Some in Hpl as (k & sub & rep & Hk & _ & _ & ->).
        destruct k as [|k]; simpl in *; simplify_eq; eauto.
      * simpl. eauto.
  - intros p q Hp Hq. rewrite distinguishable_signature.
    assert (∀ x, x ∈ b → ∃ i s, split_partition h b !! i = Some s ∧ x ∈ s)
      as Hfind.
    { intros x Hx. rewrite <- Hperm in Hx.
      apply list_elem_of_join in Hx as (s & Hxs & Hs).
      apply list_elem_of_lookup in Hs as [i Hi]. eauto. }
    split.
    + intros (s & Hs & Hps & Hqs). by eapply Hsame.
    + intros Hsig. destruct (Hfind p Hp) as (i & s & Hi & Hps).
      destruct (Hfind q Hq) as (j & t & Hj & Hqt).
      assert (i = j) as <- by by eapply Hdiff.
      assert (t = s) as -> by congruence.
      exists s. split; [by eapply list_elem_of_lookup_2|done].
Qed.

(** ** The minimised table *)

Lemma omap_lookup_total {A B : Type} (f : A → option B) (l : list A) (i : nat) :
  (∀ x, x ∈ l → is_Some (f x)) → omap f l !! i = l !! i ≫= f.
Proof.
  revert i. induction l as [|x l IH]; intros i Hall; [done|].
  destruct (Hall x (list_elem_of_here _ _)) as [y Hy]. simpl. rewrite Hy.
  destruct i as [|i]; simpl; [done|].
  apply IH. intros z Hz. apply Hall. by apply list_elem_of_further.
Qed.

Lemma printMinimizedDFA_lookup (st : Machine) (i : nat) (P : Partition) :
  part_inv st → partitions st !! i = Some P →
  ∃ rep rest,
    states P = rep :: rest ∧
    printMinimizedDFA st !! i =
    Some (mkRow (Z.of_nat i) (label P) (isFinal (deref (heap st) rep))
                (row_target (heap st) (next0 (deref (heap st) rep)))
                (row_target (heap st) (next1 (deref (heap st) rep)))).
Proof.
  intros Hpi Hi.
  assert (∀ Q, Q ∈ partitions st → states Q ≠ []) as Hne.
  { intros Q HQ. apply (pi_nonempty _ Hpi). unfold blocks.
    apply list_elem_of_fmap. eauto. }
  unfold printMinimizedDFA. rewrite omap_lookup_total.
  - rewrite Hi. simpl.
    assert (states P ≠ []) as HP by (apply Hne; by eapply list_elem_of_lookup_2).
    destruct (states P) as [|rep rest]; [done|].
    exists rep, rest. split; [done|]. by rewrite (pi_id _ Hpi i P Hi).
  - intros Q HQ. specialize (Hne Q HQ). destruct (states Q); [done|eauto].
Qed.

Lemma printMinimizedDFA_ids (st : Machine) (i : nat) (r : Row) :
  part_inv st → printMinimizedDFA st !! i = Some r → row_id r = Z.of_nat i.
Proof.
  intros Hpi Hr.
  assert (i < nPartitions st) as Hlt.
  { rewrite <- printMinimizedDFA_length by done. by eapply lookup_lt_Some. }
  destruct (lookup_lt_is_Some_2 (partitions st) i Hlt) as [P HP].
  destruct (printMinimizedDFA_lookup st i P Hpi HP) as (rep & rest & _ & Hrow).
  rewrite Hrow in Hr. by injection Hr as <-.
Qed.

Lemma table_row_lookup (rows : list Row) (i : nat) :
  (∀ j r, rows !! j = Some r → row_id r = Z.of_nat j) →
  table_row rows (Z.of_nat i) = rows !! i.
Proof.
  intros Hids. unfold table_row.
  destruct (list_find (λ r, row_id r = Z.of_nat i) rows) as [[k r]|] eqn:E; simpl.
  - apply list_find_Some in E as (Hk & Hid & _).
    rewrite (Hids k r Hk) in Hid. by replace i with k by lia.
  - apply list_find_None in E. rewrite Forall_forall in E.
    destruct (rows !! i) as [r|] eqn:Hr; [|done].
    exfalso. apply (E r); [by eapply list_elem_of_lookup_2|by apply Hids].
Qed.

Lemma partitionId_nonneg (st : Machine) (p : loc) :
  part_inv st → p ∈ allStates st →
  ∃ i, partitionId (deref (heap st) p) = Z.of_nat i ∧ i < nPartitions st ∧
       ∃ P, partitions st !! i = Some P ∧ p ∈ states P.
Proof.
  intros Hpi Hp. destruct (part_inv_block_of st p Hpi Hp) as (i & b & Hi & Hb).
  exists i. split; [by apply (pi_pid _ Hpi i b)|].
  unfold blocks in Hi. rewrite list_lookup_fmap in Hi.
  destruct (partitions st !! i) as [P|] eqn:E; simplify_eq/=.
  split; [by eapply lookup_lt_Some|eauto].
Qed.

(** The row of the partition of a state carries the final flag of the state
    and, on every symbol, the partition id of its successor. *)
Lemma table_row_of_state (st : Machine) (p : loc) :
  wf_graph st → part_inv st → stable st → p ∈ allStates st →
  ∃ row,
    table_row (printMinimizedDFA st) (partitionId (deref (heap st) p)) = Some row ∧
    row_final row = isFinal (deref (heap st) p) ∧
    ∀ sym, row_next row sym =
           (λ q, partitionId (deref (heap st) q)) <$> delta (heap st) p sym.
Proof.
  intros Hwf Hpi Hst Hp.
  destruct (partitionId_nonneg st p Hpi Hp) as (i & -> & Hlt & P & HP & HpP).
  destruct (printMinimizedDFA_lookup st i P Hpi HP) as (rep & rest & Hrep & Hrow).
  rewrite table_row_lookup by (intros j r; by apply printMinimizedDFA_ids).
  eexists. split; [exact Hrow|]. simpl.
  assert (states P ∈ blocks st) as Hb.
  { unfold blocks. apply list_elem_of_fmap.
    exists P. split; [done|]. by eapply list_elem_of_lookup_2. }
  assert (rep ∈ states P) as HrP by (rewrite Hrep; apply list_elem_of_here).
  assert (rep ∈ allStates st) as Hra by by eapply part_inv_block_elem.
  split; [by apply (pi_final _ Hpi (states P))|].
  intros sym.
  pose proof (Hst (states P) rep p Hb HrP HpP) as Hsig.
  pose proof (proj1 (signature_eq st rep p Hwf Hpi Hra Hp) Hsig sym) as Hsym.
  assert (row_next (mkRow (Z.of_nat i) (label P) (isFinal (deref (heap st) rep))
                     (row_target (heap st) (next0 (deref (heap st) rep)))
                     (row_target (heap st) (next1 (deref (heap st) rep)))) sym
          = (λ q, partitionId (deref (heap st) q)) <$> delta (heap st) rep sym)
    as -> by by destruct sym.
  destruct Hsym as [[Er Ep]|(r' & p' & Er & Ep & Hsame)];
    [by rewrite Er, Ep|].
  rewrite Er, Ep. simpl. f_equal.
  assert (r' ∈ allStates st) as Hr' by by apply (wf_closed _ Hwf rep sym).
  assert (p' ∈ allStates st) as Hp' by by apply (wf_closed _ Hwf p sym).
  by apply (proj1 (same_partition_pid st r' p' Hpi Hr' Hp')).
Qed.

Lemma table_run_of_state (st : Machine) (p : loc) (w : list symbol) :
  wf_graph st → part_inv st → stable st → p ∈ allStates st →
  table_run (printMinimizedDFA st) (partitionId (deref (heap st) p)) w =
  (λ q, partitionId (deref (heap st) q)) <$> run (heap st) p w.
Proof.
  intros Hwf Hpi Hst. revert p. induction w as [|a w IH]; intros p Hp; [done|].
  destruct (table_row_of_state st p Hwf Hpi Hst Hp) as (row & Hrow & _ & Hnext).
  cbn [table_run run]. unfold table_delta. rewrite Hrow. simpl. rewrite Hnext.
  destruct (delta (heap st) p a) as [q|] eqn:E; [|done]. simpl.
  apply IH. by apply (wf_closed _ Hwf p a).
Qed.

Lemma table_observe_of_state (st : Machine) (p : loc) (w : list symbol) :
  wf_graph st → part_inv st → stable st → p ∈ allStates st →
  table_observe (printMinimizedDFA st) (partitionId (deref (heap st) p)) w =
  observe (heap st) p w.
Proof.
  intros Hwf Hpi Hst Hp. unfold table_observe, observe.
  rewrite table_run_of_state by done.
  destruct (run (heap st) p w) as [q|] eqn:E; [|done]. simpl.
  destruct (table_row_of_state st q Hwf Hpi Hst) as (row & -> & Hfin & _).
  - by eapply run_in_graph.
  - simpl. by rewrite Hfin.
Qed.

Lemma accepts_observe (h : gmap loc State) (p : loc) (w : list symbol) :
  accepts h p w = default false (observe h p w).
Proof. unfold accepts, observe. by destruct (run h p w). Qed.

(** The cells of the final machine hold the transitions, final flags and
    names of the input. *)
Lemma pipeline_graph (fuel : nat) (start : loc) (st st' : Machine)
    (rows : list Row) :
  wf_graph st → start ∈ allStates st →
  pipeline fuel (Some start) st = Some (st', rows) →
  ∀ p, p ∈ allStates st' →
       (∀ sym, delta (heap st') p sym = delta (heap st) p sym) ∧
       isFinal (deref (heap st') p) = isFinal (deref (heap st) p) ∧
       name (deref (heap st') p) = name (deref (heap st) p) ∧
       (∀ w, run (heap st') p w = run (heap st) p w).
Proof.
  intros Hwf Hstart Hrun p Hp.
  apply pipeline_unfold in Hrun as (st1 & Hrun1 & Hrun2 & ->).
  destruct (removeUnreachable_any_fuel fuel start st st1 Hwf Hstart Hrun1)
    as (_ & Hwf1 & _ & _ & _ & Hg).
  destruct (initialPartition_spec st1 Hwf1) as (Hwf2 & Hpi2 & Hsg2 & Hall2 & _).
  destruct (refineAllPartitions_result fuel _ st' Hwf2 Hpi2 Hrun2)
    as (_ & _ & _ & Hsg & Hall & _).
  assert (same_graph (heap st1) (heap st')) as Hsg' by by eapply same_graph_trans.
  rewrite Hall, Hall2 in Hp. destruct (Hg p Hp) as (Hd & Hf & Hn).
  destruct (Hsg' p) as (_ & Hn' & Hf' & Hd' & _).
  split_and!.
  - intros sym. rewrite <- Hd. apply Hd'.
  - congruence.
  - congruence.
  - intros w. rewrite (same_graph_run _ _ _ _ Hsg').
    apply pruned_run; [done| |done]. intros q Hq. apply (Hg q Hq).
Qed.

(** X10.  The printed table is equivalent to the input automaton: read as an
    automaton over the row ids, from the row of the partition of a reachable
    state [p] (in particular of the start state) it has a run on exactly the
    words on which [p] has a run, ends it in a final row exactly when the run
    of [p] ends in a final state, and so accepts exactly the words that [p]
    accepts. *)
Theorem table_same_behaviour (fuel : nat) (start : loc) (st st' : Machine)
    (rows : list Row) :
  wf_graph st → start ∈ allStates st →
  pipeline fuel (Some start) st = Some (st', rows) →
  ∀ p w,
    p ∈ allStates st → reachable_from (heap st) start p →
    table_observe rows (partitionId (deref (heap st') p)) w
    = observe (heap st) p w ∧
    default false (table_observe rows (partitionId (deref (heap st') p)) w)
    = accepts (heap st) p w.
Proof.
  intros Hwf Hstart Hrun p w Hp Hreach.
  destruct (pipeline_result fuel start st st' rows Hwf Hstart Hrun)
    as (Hwf' & Hpi' & Hst & _ & Hmem & _ & Hobs & ->).
  assert (p ∈ allStates st') as Hp' by by apply Hmem.
  assert (table_observe (printMinimizedDFA st') (partitionId (deref (heap st') p)) w
          = observe (heap st) p w) as Heq.
  { rewrite table_observe_of_state by done. by apply Hobs. }
  split; [done|]. by rewrite Heq, accepts_observe.
Qed.

Lemma table_same_behaviour_witness :
  table_observe (printMinimizedDFA (initialPartition dfa2_pruned))
    (partitionId (deref (heap (initialPartition dfa2_pruned)) 1%positive))
    [Sym0; Sym1]
  = observe (heap dfa2_machine) 1%positive [Sym0; Sym1] ∧
  default false
    (table_observe (printMinimizedDFA (initialPartition dfa2_pruned))
       (partitionId (deref (heap (initialPartition dfa2_pruned)) 1%positive))
       [Sym0; Sym1])
  = accepts (heap dfa2_machine) 1%positive [Sym0; Sym1].
Proof.
  apply (table_same_behaviour 4 1%positive dfa2_machine
           (initialPartition dfa2_pruned)
           (printMinimizedDFA (initialPartition dfa2_pruned))).
  - apply wf_check_sound. vm_compute. reflexivity.
  - vm_compute. apply list_elem_of_here.
  - vm_compute. reflexivity.
  - vm_compute. apply list_elem_of_here.
  - by exists [].
Defined.

(** The first member of the partition with index [i]. *)
Lemma partition_representative (st : Machine) (i : nat) :
  part_inv st → i < nPartitions st →
  ∃ p, p ∈ allStates st ∧ partitionId (deref (heap st) p) = Z.of_nat i.
Proof.
  intros Hpi Hlt.
  destruct (lookup_lt_is_Some_2 (partitions st) i Hlt) as [P HP].
  assert (blocks st !! i = Some (states P)) as Hb.
  { unfold blocks. by rewrite list_lookup_fmap, HP. }
  assert (states P ≠ []) as Hne.
  { apply (pi_nonempty _ Hpi). by eapply list_elem_of_lookup_2. }
  destruct (states P) as [|p rest] eqn:E; [done|].
  exists p. split.
  - apply (part_inv_block_elem st (p :: rest)); [done| |apply list_elem_of_here].
    by eapply list_elem_of_lookup_2.
  - apply (pi_pid _ Hpi i (p :: rest)); [done|apply list_elem_of_here].
Qed.

(** X11.  The printed table is minimal among the automata that tell a missing
    transition from a rejecting run: no two distinct rows show the same
    behaviour on every word. *)
Theorem table_rows_distinct (fuel : nat) (start : loc) (st st' : Machine)
    (rows : list Row) :
  wf_graph st → start ∈ allStates st →
  pipeline fuel (Some start) st = Some (st', rows) →
  ∀ i j,
    i < length rows → j < length rows → i ≠ j →
    ¬ ∀ w, table_observe rows (Z.of_nat i) w = table_observe rows (Z.of_nat j) w.
Proof.
  intros Hwf Hstart Hrun i j Hi Hj Hne Hsame.
  destruct (pipeline_result fuel start st st' rows Hwf Hstart Hrun)
    as (Hwf' & Hpi' & Hst & Hco & _ & _ & _ & ->).
  rewrite printMinimizedDFA_length in Hi, Hj by done.
  destruct (partition_representative st' i Hpi' Hi) as (p & Hp & Hpid).
  destruct (partition_representative st' j Hpi' Hj) as (q & Hq & Hqid).
  assert (same_behaviour (heap st') p q) as Hbeh.
  { intros w. rewrite <- !table_observe_of_state by done.
    rewrite Hpid, Hqid. apply Hsame. }
  apply Hco in Hbeh; [|done..].
  apply (same_partition_pid st' p q Hpi' Hp Hq) in Hbeh. lia.
Qed.

Lemma table_rows_distinct_witness :
  ¬ ∀ w, table_observe (printMinimizedDFA (initialPartition dfa2_pruned))
                       (Z.of_nat 0) w
         = table_observe (printMinimizedDFA (initialPartition dfa2_pruned))
                         (Z.of_nat 1) w.
Proof.
  apply (table_rows_distinct 4 1%positive dfa2_machine
           (initialPartition dfa2_pruned)
           (printMinimizedDFA (initialPartition dfa2_pruned))
           (wf_check_sound dfa2_machine eq_refl)).
  - vm_compute. apply list_elem_of_here.
  - vm_compute. reflexivity.
  - vm_compute. lia.
  - vm_compute. lia.
  - lia.
Defined.

(** X12.  Every row of the printed table can be reached from the row of the
    start state. *)
Theorem table_rows_reachable (fuel : nat) (start : loc) (st st' : Machine)
    (rows : list Row) :
  wf_graph st → start ∈ allStates st →
  pipeline fuel (Some start) st = Some (st', rows) →
  ∀ i, i < length rows →
       ∃ w, table_run rows (partitionId (deref (heap st') start)) w
            = Some (Z.of_nat i).
Proof.
  intros Hwf Hstart Hrun i Hi.
  pose proof (pipeline_graph fuel start st st' rows Hwf Hstart Hrun) as Hg.
  destruct (pipeline_result fuel start st st' rows Hwf Hstart Hrun)
    as (Hwf' & Hpi' & Hst & _ & Hmem & _ & _ & ->).
  rewrite printMinimizedDFA_length in Hi by done.
  destruct (partition_representative st' i Hpi' Hi) as (p & Hp & Hpid).
  destruct (proj1 (Hmem p) Hp) as [_ [w Hw]].
  assert (start ∈ allStates st') as Hstart'.
  { apply Hmem. split; [done|apply reachable_from_refl]. }
  exists w. rewrite table_run_of_state by done.
  destruct (Hg start Hstart') as (_ & _ & _ & Hruns).
  by rewrite Hruns, Hw, <- Hpid.
Qed.

Lemma table_rows_reachable_witness :
  ∃ w, table_run (printMinimizedDFA (initialPartition dfa2_pruned))
                 (partitionId (deref (heap (initialPartition dfa2_pruned)) 1%positive))
                 w
       = Some (Z.of_nat 0).
Proof.
  apply (table_rows_reachable 4 1%positive dfa2_machine
           (initialPartition dfa2_pruned)
           (printMinimizedDFA (initialPartition dfa2_pruned))
           (wf_check_sound dfa2_machine eq_refl)).
  - vm_compute. apply list_elem_of_here.
  - vm_compute. reflexivity.
  - vm_compute. lia.
Defined.

(** X13.  The printed table has one row per final partition, at least one
    and at most as many as there are reachable states; the rows carry the ids
    0, 1, 2, ... in order and the labels of their partitions; every successor
    named in a row is the id of a row of the table; and when no reachable
    state of the input lacks a transition, no entry of the table is "-". *)
Theorem table_shape (fuel : nat) (start : loc) (st st' : Machine)
    (rows : list Row) :
  wf_graph st → start ∈ allStates st →
  pipeline fuel (Some start) st = Some (st', rows) →
  length rows = nPartitions st' ∧
  1 ≤ length rows ≤ nStates st' ∧ nStates st' ≤ nStates st ∧
  (∀ i r, rows !! i = Some r →
          row_id r = Z.of_nat i ∧
          (∃ P, partitions st' !! i = Some P ∧ row_label r = label P) ∧
          ∀ sym j, row_next r sym = Some j →
                   ∃ k, j = Z.of_nat k ∧ k < length rows) ∧
  ((∀ q sym, reachable_from (heap st) start q →
             is_Some (delta (heap st) q sym)) →
   ∀ r sym, r ∈ rows → is_Some (row_next r sym)).
Proof.
  intros Hwf Hstart Hrun.
  pose proof (pipeline_graph fuel start st st' rows Hwf Hstart Hrun) as Hg.
  destruct (pipeline_result fuel start st st' rows Hwf Hstart Hrun)
    as (Hwf' & Hpi' & Hst & _ & Hmem & Hsub & _ & ->).
  assert (start ∈ allStates st') as Hstart'.
  { apply Hmem. split; [done|apply reachable_from_refl]. }
  pose proof (printMinimizedDFA_length st' Hpi') as Hlen.
  assert (∀ i r, printMinimizedDFA st' !! i = Some r →
                 ∃ P rep, partitions st' !! i = Some P ∧ rep ∈ allStates st' ∧
                          row_id r = Z.of_nat i ∧ row_label r = label P ∧
                          ∀ sym, row_next r sym =
                                 (λ q, partitionId (deref (heap st') q))
                                   <$> delta (heap st') rep sym) as Hrows.
  { intros i r Hr.
    assert (i < nPartitions st') as Hlt.
    { rewrite <- Hlen. by eapply lookup_lt_Some. }
    destruct (lookup_lt_is_Some_2 (partitions st') i Hlt) as [P HP].
    destruct (printMinimizedDFA_lookup st' i P Hpi' HP) as (rep & rest & Hrep & Hrow).
    rewrite Hrow in Hr. injection Hr as <-.
    exists P, rep. split_and!; try done.
    - apply (part_inv_block_elem st' (states P)); [done| |].
      + unfold blocks. apply list_elem_of_fmap. exists P.
        split; [done|by eapply list_elem_of_lookup_2].
      + rewrite Hrep. apply list_elem_of_here.
    - by intros []. }
  split_and!.
  - done.
  - rewrite Hlen. destruct (partitionId_nonneg st' start Hpi' Hstart')
      as (i & _ & Hi & _). lia.
  - rewrite Hlen. by apply part_inv_block_count.
  - by apply sublist_length.
  - intros i r Hr. destruct (Hrows i r Hr) as (P & rep & HP & Hrep & Hid & Hlab & Hnext).
    split_and!; [done|eauto|].
    intros sym j Hj. rewrite Hnext in Hj.
    destruct (delta (heap st') rep sym) as [q|] eqn:E; simplify_eq/=.
    destruct (partitionId_nonneg st' q Hpi') as (k & Hk & Hlt & _).
    { by apply (wf_closed _ Hwf' rep sym). }
    exists k. split; [done|]. by rewrite Hlen.
  - intros Hcomplete r sym Hr. apply list_elem_of_lookup in Hr as [i Hr].
    destruct (Hrows i r Hr) as (P & rep & _ & Hrep & _ & _ & Hnext).
    rewrite Hnext. apply fmap_is_Some.
    destruct (Hg rep Hrep) as (Hd & _). rewrite Hd.
    apply Hcomplete. by apply Hmem.
Qed.

Lemma table_shape_witness :
  length (printMinimizedDFA (initialPartition dfa2_pruned))
  = nPartitions (initialPartition dfa2_pruned) ∧
  1 ≤ length (printMinimizedDFA (initialPartition dfa2_pruned))
    ≤ nStates (initialPartition dfa2_pruned) ∧
  nStates (initialPartition dfa2_pruned) ≤ nStates dfa2_machine ∧
  (∀ i r, printMinimizedDFA (initialPartition dfa2_pruned) !! i = Some r →
          row_id r = Z.of_nat i ∧
          (∃ P, partitions (initialPartition dfa2_pruned) !! i = Some P ∧
                row_label r = label P) ∧
          ∀ sym j, row_next r sym = Some j →
                   ∃ k, j = Z.of_nat k ∧
                        k < length (printMinimizedDFA (initialPartition dfa2_pruned))) ∧
  ((∀ q sym, reachable_from (heap dfa2_machine) 1%positive q →
             is_Some (delta (heap dfa2_machine) q sym)) →
   ∀ r sym, r ∈ printMinimizedDFA (initialPartition dfa2_pruned) →
            is_Some (row_next r sym)).
Proof.
  apply (table_shape 4 1%positive dfa2_machine (initialPartition dfa2_pruned)
           (printMinimizedDFA (initialPartition dfa2_pruned))
           (wf_check_sound dfa2_machine eq_refl)).
  - vm_compute. apply list_elem_of_here.
  - vm_compute. reflexivity.
Defined.

(** ** Labels *)

Lemma make_label_same_graph (h h' : gmap loc State) (l : list loc) :
  same_graph h h' → make_label h' l = make_label h l.
Proof.
  intros Hsg. unfold make_label. f_equal. f_equal.
  induction l as [|p l IH]; [done|].
  destruct (Hsg p) as (_ & Hn & _).
  destruct l as [|q l]; [done|].
  change (label_body h' (p :: q :: l))
    with (name (deref h' p) +:+ "," +:+ label_body h' (q :: l)).
  change (label_body h (p :: q :: l))
    with (name (deref h p) +:+ "," +:+ label_body h (q :: l)).
  by rewrite IH, Hn.
Qed.

Lemma install_fold_labels (h0 : gmap loc State) (newList : list (list loc)) :
  same_graph h0 (foldl install_step (h0, []) newList).1 ∧
  ∀ P, P ∈ (foldl install_step (h0, []) newList).2 →
       label P = make_label h0 (states P).
Proof.
  apply (foldl_invariant install_step
           (λ _ acc, same_graph h0 acc.1 ∧
                     ∀ P, P ∈ acc.2 → label P = make_label h0 (states P))).
  - split; [apply same_graph_refl|]. intros P HP. by apply elem_of_nil in HP.
  - intros done x rest [h ps] _ [Hsg Hlab]. simpl in *.
    assert (same_graph h0 (assign_partition (Z.of_nat (length ps)) h x)) as Hsg'.
    { eapply same_graph_trans; [exact Hsg|]. apply assign_partition_same_graph. }
    split; [done|]. intros P HP. apply elem_of_app in HP as [HP|HP]; [by apply Hlab|].
    apply list_elem_of_singleton in HP as ->. simpl.
    by apply make_label_same_graph.
Qed.

Lemma labels_ok_initialPartition (st : Machine) :
  labels_ok (initialPartition st) ∧
  same_graph (heap st) (heap (initialPartition st)).
Proof.
  unfold initialPartition, labels_ok.
  destruct (separate_fold_spec (heap st) (allStates st))
    as (h & f & nf & -> & Hsg & _).
  rewrite add_group_install.
  destruct (install_fold_labels h
              ((if bool_decide (0 < length f) then [f] else []) ++
               (if bool_decide (0 < length nf) then [nf] else [])))
    as [Hsg' Hlab].
  destruct (foldl install_step _ _) as [h' ps]. simpl in *.
  split.
  - intros P HP. rewrite (Hlab P HP). symmetry. by apply make_label_same_graph.
  - by eapply same_graph_trans.
Qed.

Lemma labels_ok_refine_pass (st : Machine) :
  labels_ok st → labels_ok (refine_pass st).1.
Proof.
  intros Hlab. unfold refine_pass.
  destruct (foldl (refine_step (heap st)) ([], false) (partitions st))
    as [newList c].
  destruct (c || negb (bool_decide (length newList = nPartitions st))); [|done].
  simpl. unfold install, labels_ok.
  destruct (install_fold_labels (heap st) newList) as [Hsg Hl].
  destruct (foldl install_step _ _) as [h' ps]. simpl in *.
  intros P HP. rewrite (Hl P HP). symmetry. by apply make_label_same_graph.
Qed.

Lemma length_elem_join (bs : list (list loc)) (b : list loc) :
  b ∈ bs → length b ≤ length (mjoin bs).
Proof.
  induction bs as [|c bs IH]; intros Hb; [by apply elem_of_nil in Hb|].
  simpl. rewrite length_app. apply elem_of_cons in Hb as [->|Hb]; [lia|].
  specialize (IH Hb). lia.
Qed.

(** X14.  When the display names have at most three characters, as
    [createState] stores them, every label written by [initialPartition] and
    by the refinement passes lists the names of the members of its partition
    between braces and has fewer than [MAX_LABEL_LEN] characters: the
    [strcat] calls never write past the label buffer. *)
Theorem labels_fit (st0 : Machine) (k : nat) :
  wf_graph st0 → names_short st0 →
  ∀ P, P ∈ partitions (after_passes k (initialPartition st0)) →
       label P = make_label (heap st0) (states P) ∧
       String.length (label P) < MAX_LABEL_LEN.
Proof.
  intros Hwf Hnames P HP.
  destruct (initialPartition_spec st0 Hwf) as (Hwf1 & Hpi1 & Hsg1 & Hall1 & _).
  destruct (after_passes_inv k _ Hwf1 Hpi1) as (Hwfk & Hpik & Hsgk & Hallk).
  assert (labels_ok (after_passes k (initialPartition st0))) as Hlab.
  { clear HP. induction k as [|k IH].
    - apply labels_ok_initialPartition.
    - apply labels_ok_refine_pass. apply IH;
        by destruct (after_passes_inv k _ Hwf1 Hpi1) as (? & ? & ? & ?). }
  set (st := after_passes k (initialPartition st0)) in *.
  assert (label P = make_label (heap st0) (states P)) as Heq.
  { rewrite (Hlab P HP). apply make_label_same_graph.
    by eapply same_graph_trans. }
  split; [done|]. rewrite Heq.
  assert (states P ∈ blocks st) as Hb.
  { unfold blocks. apply list_elem_of_fmap. eauto. }
  apply label_fits.
  - intros p Hp. apply Hnames. rewrite <- Hall1, <- Hallk.
    by eapply part_inv_block_elem.
  - pose proof (length_elem_join _ _ Hb) as Hle.
    rewrite (pi_perm _ Hpik) in Hle.
    pose proof (wf_capacity _ Hwfk). unfold nStates in *. lia.
Qed.

Lemma labels_fit_witness :
  label (mkPartition [2%positive; 3%positive] 0 "{q2,q3}")
  = make_label (heap dfa2_pruned)
               (states (mkPartition [2%positive; 3%positive] 0 "{q2,q3}")) ∧
  String.length (label (mkPartition [2%positive; 3%positive] 0 "{q2,q3}"))
  < MAX_LABEL_LEN.
Proof.
  apply (labels_fit dfa2_pruned 1 (wf_check_sound dfa2_pruned eq_refl)).
  - intros p Hp. vm_compute in Hp.
    apply elem_of_cons in Hp as [->|Hp]; [vm_compute; lia|].
    apply elem_of_cons in Hp as [->|Hp]; [vm_compute; lia|].
    apply elem_of_cons in Hp as [->|Hp]; [vm_compute; lia|].
    by apply elem_of_nil in Hp.
  - vm_compute. apply list_elem_of_here.
Defined.

(** ** The end of main *)

(** X15.  When every allocated state is in the state array, as after any
    sequence of [createState] calls, the program leaks no state and frees
    none twice: the states of the final array are distinct and live, the
    loop that ends [main] frees them, and together with the states freed by
    the pruning this leaves no state allocated. *)
Theorem free_states_no_leak (fuel : nat) (start : loc) (st st' : Machine)
    (rows : list Row) :
  wf_graph st → start ∈ allStates st →
  (∀ p, is_Some (heap st !! p) → p ∈ allStates st) →
  pipeline fuel (Some start) st = Some (st', rows) →
  NoDup (allStates st') ∧
  (∀ p, p ∈ allStates st' → is_Some (heap st' !! p)) ∧
  heap (free_states st') = ∅.
Proof.
  intros Hwf Hstart Hdom Hrun.
  destruct (pipeline_result fuel start st st' rows Hwf Hstart Hrun)
    as (Hwf' & _).
  apply pipeline_unfold in Hrun as (st1 & Hrun1 & Hrun2 & _).
  destruct (removeUnreachable_any_fuel fuel start st st1 Hwf Hstart Hrun1)
    as (Hrun1' & Hwf1 & _ & _ & Hmem & _).
  destruct (removeUnreachable_result _ start st Hwf Hstart
              (Nat.le_max_r fuel (nStates st)))
    as (st2 & Hrun2' & _ & _ & _ & Hfree & Hout & _).
  rewrite Hrun1' in Hrun2'. injection Hrun2' as <-.
  destruct (initialPartition_spec st1 Hwf1) as (Hwf2 & Hpi2 & Hsg2 & Hall2 & _).
  destruct (refineAllPartitions_result fuel _ st' Hwf2 Hpi2 Hrun2)
    as (_ & _ & _ & Hsg & Hall & _).
  split_and!.
  - by apply wf_nodup.
  - by apply wf_alloc.
  - apply map_empty. intros p. unfold free_states. simpl.
    rewrite foldl_delete_lookup. case_decide as Hin; [done|].
    rewrite Hall, Hall2 in Hin.
    destruct (heap st' !! p) as [s|] eqn:E; [|done]. exfalso.
    assert (is_Some (heap st1 !! p)) as Hlive.
    { apply (Hsg2 p). apply (Hsg p). by rewrite E. }
    destruct (decide (p ∈ allStates st)) as [Hp|Hp].
    + rewrite (Hfree p Hp) in Hlive; [by destruct Hlive|].
      intros Hreach. apply Hin. by apply Hmem.
    + rewrite (Hout p Hp) in Hlive. by apply Hp, Hdom.
Qed.

Lemma free_states_no_leak_witness :
  NoDup (allStates (initialPartition dfa2_pruned)) ∧
  (∀ p, p ∈ allStates (initialPartition dfa2_pruned) →
        is_Some (heap (initialPartition dfa2_pruned) !! p)) ∧
  heap (free_states (initialPartition dfa2_pruned)) = ∅.
Proof.
  apply (free_states_no_leak 4 1%positive dfa2_machine
           (initialPartition dfa2_pruned)
           (printMinimizedDFA (initialPartition dfa2_pruned))
           (wf_check_sound dfa2_machine eq_refl)).
  - vm_compute. apply list_elem_of_here.
  - intros p [s Hs]. apply elem_of_map_to_list in Hs.
    apply (list_elem_of_fmap_2 fst) in Hs. vm_compute in Hs.
    elem_of_cases Hs; subst p; vm_compute; repeat constructor.
  - vm_compute. reflexivity.
Defined.

(** ** Marking *)

(** X16.  On a well-formed graph whose start state is in the array,
    [markReachable] returns within [nStates] sweeps and writes only the array
    [reachable]: afterwards the slot of a state is set exactly when the state
    is reachable from the start state, the slot of the start state is set,
    and the states, the state array, the partitions and the error stream are
    as before. *)
Theorem markReachable_marks_reachable (fuel : nat) (start : loc) (st : Machine) :
  wf_graph st → start ∈ allStates st → nStates st ≤ fuel →
  ∃ st', markReachable fuel (Some start) st = Some st' ∧
    heap st' = heap st ∧ allStates st' = allStates st ∧
    partitions st' = partitions st ∧ stderr st' = stderr st ∧
    length (reachable st') = MAX_STATES ∧
    (∀ i p, allStates st !! i = Some p →
       (is_marked (reachable st') i = true ↔ reachable_from (heap st) start p)) ∧
    (∃ si, getStateIndexByPtr (Some start) st = Some si ∧
           is_marked (reachable st') si = true).
Proof.
  intros Hwf Hstart Hfuel.
  destruct (markReachable_spec fuel start st Hwf Hstart Hfuel)
    as (r & Hrun & Hlen & Hmarks).
  exists (set_reachable r st). split_and!; try done.
  destruct (getStateIndexByPtr_elem _ _ Hstart) as [si Hsi].
  exists si. split; [done|].
  apply getStateIndexByPtr_Some in Hsi as [Hsi _].
  apply (Hmarks si start Hsi). by exists [].
Qed.

Lemma markReachable_marks_reachable_witness :
  ∃ st', markReachable 4 (Some 1%positive) dfa2_machine = Some st' ∧
    heap st' = heap dfa2_machine ∧ allStates st' = allStates dfa2_machine ∧
    partitions st' = partitions dfa2_machine ∧
    stderr st' = stderr dfa2_machine ∧
    length (reachable st') = MAX_STATES ∧
    (∀ i p, allStates dfa2_machine !! i = Some p →
       (is_marked (reachable st') i = true
        ↔ reachable_from (heap dfa2_machine) 1%positive p)) ∧
    (∃ si, getStateIndexByPtr (Some 1%positive) dfa2_machine = Some si ∧
           is_marked (reachable st') si = true).
Proof.
  apply (markReachable_marks_reachable 4 1%positive dfa2_machine).
  - apply wf_check_sound. vm_compute. reflexivity.
  - vm_compute. apply list_elem_of_here.
  - apply Nat.leb_le. vm_compute. reflexivity.
Defined.

(** ** main *)

